(** * ILS verification bot: document extraction and reconciliation

    A shallow embedding of [backend/src/bot/validator.js] (class
    [Validator]), [backend/src/bot/pdf-parser.js] (class [PDFParser]) and
    the part of [backend/src/utils/cleanup-ocr.js] (class [OCRCleanup])
    the parser starts after a recognition, together with the fragment of
    the ECMAScript runtime these classes rely on (strings as sequences of
    UTF-16 code units, [String.prototype] helpers, the backtracking
    regular-expression matcher, [parseFloat]).

    Layout: module [JS] (runtime fragment), module [Data] (records of the
    data model), module [Validator], module [PDFParser], modules
    [OCRCleanup] and [AutoCleanup], the notions used in the statements,
    then the lemmas and theorems. *)

From Stdlib Require Import String Ascii DecimalString.
From Stdlib Require Import Bool Arith PeanoNat NArith ZArith QArith Lia List.
From Stdlib Require Import DecimalZ DecimalPos Permutation Sorted Qpower.
Import ListNotations.

Set Implicit Arguments.
Local Open Scope nat_scope.
Local Open Scope list_scope.

(* ===================================================================== *)
(** * The ECMAScript fragment                                             *)
(* ===================================================================== *)

Module JS.

(** ** Strings

    A JavaScript string is a finite sequence of UTF-16 code units.  Code
    units are kept as [N]; values above 0xFFFF never arise from a real
    string and behave like any other non-space, non-letter unit. *)

Definition codeunit := N.
Definition jsstring := list codeunit.

(** String literals of the source, written in ASCII. *)
Definition str (s : string) : jsstring :=
  map N_of_ascii (list_ascii_of_string s).
Arguments str s%_string.

Definition cu_eqb (a b : codeunit) : bool := N.eqb a b.

Fixpoint jsstring_eqb (a b : jsstring) : bool :=
  match a, b with
  | [], [] => true
  | x :: a', y :: b' => cu_eqb x y && jsstring_eqb a' b'
  | _, _ => false
  end.

Definition LF : codeunit := 10%N.
Definition SP : codeunit := 32%N.

(** [WhiteSpace] and [LineTerminator] of ECMA-262: the set matched by the
    regular-expression class [\s] and stripped by [String.prototype.trim]. *)
Definition isWhiteSpace (c : codeunit) : bool :=
  ((9 <=? c) && (c <=? 13) || (c =? 32) || (c =? 160) || (c =? 5760)
   || (8192 <=? c) && (c <=? 8202) || (c =? 8232) || (c =? 8233)
   || (c =? 8239) || (c =? 8287) || (c =? 12288) || (c =? 65279))%N.

(** Line terminators, excluded by [.] unless the [s] flag is set. *)
Definition isLineTerminator (c : codeunit) : bool :=
  ((c =? 10) || (c =? 13) || (c =? 8232) || (c =? 8233))%N.

Definition isDigit (c : codeunit) : bool := ((48 <=? c) && (c <=? 57))%N.
Definition isUpper (c : codeunit) : bool := ((65 <=? c) && (c <=? 90))%N.
Definition isLower (c : codeunit) : bool := ((97 <=? c) && (c <=? 122))%N.
(** [\w] *)
Definition isWord (c : codeunit) : bool :=
  isDigit c || isUpper c || isLower c || (c =? 95)%N.

Definition upperASCII (c : codeunit) : codeunit :=
  if isLower c then (c - 32)%N else c.
Definition lowerASCII (c : codeunit) : codeunit :=
  if isUpper c then (c + 32)%N else c.

(** ** [String.prototype] helpers *)

Fixpoint dropWhile (p : codeunit -> bool) (s : jsstring) : jsstring :=
  match s with
  | [] => []
  | c :: s' => if p c then dropWhile p s' else s
  end.

Definition trimStart (s : jsstring) : jsstring := dropWhile isWhiteSpace s.
Definition trimEnd (s : jsstring) : jsstring :=
  rev (dropWhile isWhiteSpace (rev s)).
(** [s.trim()] *)
Definition trim (s : jsstring) : jsstring := trimEnd (trimStart s).

(** [s.split('\n')]: the pieces between line feeds; never empty. *)
Fixpoint split_lf (s : jsstring) : list jsstring :=
  match s with
  | [] => [[]]
  | c :: s' =>
      if cu_eqb c LF then [] :: split_lf s'
      else match split_lf s' with
           | l :: ls => (c :: l) :: ls
           | [] => [[c]]
           end
  end.

(** [a.join(sep)] *)
Fixpoint join (sep : jsstring) (ls : list jsstring) : jsstring :=
  match ls with
  | [] => []
  | [l] => l
  | l :: ls' => l ++ sep ++ join sep ls'
  end.

Fixpoint startsWith (p s : jsstring) : bool :=
  match p, s with
  | [], _ => true
  | x :: p', y :: s' => cu_eqb x y && startsWith p' s'
  | _ :: _, [] => false
  end.

(** [s.includes(p)] *)
Fixpoint includes (p s : jsstring) : bool :=
  startsWith p s ||
  match s with
  | [] => false
  | _ :: s' => includes p s'
  end.

(** [s.substring(a, b)] for [a <= b]; indices are clamped to the length. *)
Definition substring (a b : nat) (s : jsstring) : jsstring :=
  firstn (b - a) (skipn a s).

(** ** Numbers

    A Number is modelled as an exact rational or NaN.  The binary64
    rounding of the real runtime is the identity on every value computed
    below from a short decimal numeral or by adding integers below 2^53;
    infinities do not arise from such numerals. *)

Inductive number :=
| NaN
| Num (q : Q).

Definition isNaN (n : number) : bool :=
  match n with NaN => true | Num _ => false end.

(** [a <= b], [a >= b], [a + b] on Numbers; a comparison with NaN is false. *)
Definition num_le (a b : number) : bool :=
  match a, b with
  | Num x, Num y => Qle_bool x y
  | _, _ => false
  end.
Definition num_ge (a b : number) : bool := num_le b a.
Definition num_add (a b : number) : number :=
  match a, b with
  | Num x, Num y => Num (Qred (x + y))
  | _, _ => NaN
  end.
Definition num_eqb (a b : number) : bool :=
  match a, b with
  | Num x, Num y => Qeq_bool x y
  | _, _ => false
  end.
Definition num_of_Z (z : Z) : number := Num (inject_Z z).

(** ** [parseFloat]

    Leading white space is skipped and the longest prefix that is a decimal
    literal (sign, digits, fraction, exponent) is converted; NaN when there
    is none.  The literal [Infinity] is not covered: no caller below can
    pass it. *)

Fixpoint span (p : codeunit -> bool) (s : jsstring) : jsstring * jsstring :=
  match s with
  | [] => ([], [])
  | c :: s' =>
      if p c then let (a, b) := span p s' in (c :: a, b) else ([], s)
  end.

Definition digitsValue (ds : jsstring) : Z :=
  fold_left (fun acc d => (acc * 10 + (Z.of_N d - 48))%Z) ds 0%Z.

Definition readSign (s : jsstring) : bool * jsstring :=
  match s with
  | c :: t =>
      if (c =? 45)%N then (true, t)
      else if (c =? 43)%N then (false, t)
      else (false, s)
  | [] => (false, [])
  end.

(** The exponent part [e±ddd], when present and well formed. *)
Definition readExponent (s : jsstring) : Z :=
  match s with
  | c :: t =>
      if ((c =? 101) || (c =? 69))%N then
        let (neg, t') := readSign t in
        match fst (span isDigit t') with
        | [] => 0%Z
        | ds => if neg then (- digitsValue ds)%Z else digitsValue ds
        end
      else 0%Z
  | [] => 0%Z
  end.

Definition parseFloat (s : jsstring) : number :=
  let (neg, s1) := readSign (trimStart s) in
  let (ip, s2) := span isDigit s1 in
  let (fp, s3) :=
    match s2 with
    | c :: t => if (c =? 46)%N then span isDigit t else ([], s2)
    | [] => ([], [])
    end in
  match ip ++ fp with
  | [] => NaN
  | ds =>
      let m := inject_Z (if neg then (- digitsValue ds)%Z else digitsValue ds) in
      let e := (readExponent s3 - Z.of_nat (length fp))%Z in
      Num (Qred (m * Qpower (inject_Z 10) e))
  end.

(** [parseFloat(x)] for an argument that already is a Number: the value is
    printed and read back, which returns it. *)
Definition parseFloatNum (n : number) : number := n.

(** ** Regular expressions

    The abstract syntax of the patterns used by the program and the
    backtracking matcher of ECMA-262 (22.2.2), written in
    continuation-passing style as in the standard.  Flags [i] and [s] are
    parameters of the matcher; [g] selects the driver ([matchAll],
    [replaceAll_g]) instead of the single-match one ([exec], [replace1]);
    flag [m] is used by no pattern.  No pattern has a group inside a
    repetition, so the reset of the captures at each iteration is left
    out. *)

Inductive regex :=
| Eps                                        (* empty pattern *)
| Lit (c : codeunit)                         (* one literal character *)
| Cls (p : codeunit -> bool)                 (* class: \d, \s, \w, [...] *)
| Dot                                        (* . *)
| Seq (r1 r2 : regex)
| Alt (r1 r2 : regex)                        (* r1|r2 *)
| Rep (r : regex) (lo : nat) (hi : option nat) (greedy : bool)
                                             (* r{lo,hi}, r{lo,}, lazy with ? *)
| Grp (i : nat) (r : regex)                  (* capture group number i *)
| Bol                                        (* ^ *)
| Eol                                        (* $ *)
| Ahead (r : regex).                         (* (?=r) *)

Record flags := { ignoreCase : bool; dotAll : bool }.

Definition noflags : flags := {| ignoreCase := false; dotAll := false |}.
Definition flag_i : flags := {| ignoreCase := true; dotAll := false |}.
Definition flag_s : flags := {| ignoreCase := false; dotAll := true |}.

(** Captures: the latest binding of a group comes first. *)
Definition captures := list (nat * jsstring).

Fixpoint capture (i : nat) (caps : captures) : option jsstring :=
  match caps with
  | [] => None
  | (j, v) :: rest => if Nat.eqb i j then Some v else capture i rest
  end.

(** Character comparison under flag [i].  The patterns of the program are
    ASCII, for which canonicalisation is ASCII upper-casing: a unit above
    127 never canonicalises to an ASCII one. *)
Definition lit_matches (fl : flags) (c x : codeunit) : bool :=
  if ignoreCase fl then cu_eqb (upperASCII c) (upperASCII x) else cu_eqb c x.

Definition cls_matches (fl : flags) (p : codeunit -> bool) (x : codeunit) : bool :=
  if ignoreCase fl then p x || p (upperASCII x) || p (lowerASCII x) else p x.

Section Matcher.
Variable fl : flags.
(** Length of the whole input: [^] holds where nothing is consumed yet. *)
Variable total : nat.

(** RepeatMatcher: [body] is the matcher of the repeated pattern, [k] the
    continuation.  An iteration beyond [lo] that consumes nothing is
    rejected, so [fuel = lo + remaining length + 1] is never exhausted. *)
Fixpoint rep_loop (R : Type)
    (body : jsstring -> captures -> (jsstring -> captures -> option R) -> option R)
    (greedy : bool) (k : jsstring -> captures -> option R)
    (fuel lo : nat) (hi : option nat) (s : jsstring) (caps : captures)
    {struct fuel} : option R :=
  match fuel with
  | O => None
  | S fuel' =>
      match hi with
      | Some O => k s caps
      | _ =>
          let d := fun s' caps' =>
            if Nat.eqb lo 0 && Nat.eqb (length s') (length s) then None
            else rep_loop body greedy k fuel' (Nat.pred lo)
                   (option_map Nat.pred hi) s' caps' in
          if negb (Nat.eqb lo 0) then body s caps d
          else if greedy then
            match body s caps d with
            | Some z => Some z
            | None => k s caps
            end
          else
            match k s caps with
            | Some z => Some z
            | None => body s caps d
            end
      end
  end.

Fixpoint m (R : Type) (r : regex) (s : jsstring) (caps : captures)
    (k : jsstring -> captures -> option R) {struct r} : option R :=
  match r with
  | Eps => k s caps
  | Lit c =>
      match s with
      | x :: s' => if lit_matches fl c x then k s' caps else None
      | [] => None
      end
  | Cls p =>
      match s with
      | x :: s' => if cls_matches fl p x then k s' caps else None
      | [] => None
      end
  | Dot =>
      match s with
      | x :: s' =>
          if dotAll fl || negb (isLineTerminator x) then k s' caps else None
      | [] => None
      end
  | Seq r1 r2 => m r1 s caps (fun s' caps' => m r2 s' caps' k)
  | Alt r1 r2 =>
      match m r1 s caps k with
      | Some z => Some z
      | None => m r2 s caps k
      end
  | Rep r' lo hi greedy =>
      rep_loop (m (R:=R) r') greedy k (lo + length s + 1) lo hi s caps
  | Grp i r' =>
      m r' s caps (fun s' caps' =>
        k s' ((i, firstn (length s - length s') s) :: caps'))
  | Bol => if Nat.eqb (length s) total then k s caps else None
  | Eol => match s with [] => k s caps | _ :: _ => None end
  | Ahead r' =>
      match m r' s caps (fun _ caps' => Some caps') with
      | Some caps' => k s caps'
      | None => None
      end
  end.
End Matcher.

(** A successful match: where it starts, the text matched, the groups. *)
Record match_result := {
  index : nat;
  matched : jsstring;
  groups : captures
}.

(** [$n] / [match[n]]: a group that did not take part yields the empty
    string in a replacement. *)
Definition group (i : nat) (z : match_result) : jsstring :=
  match capture i (groups z) with Some v => v | None => [] end.

(** Match attempt at one position; [rest] is the input from that position,
    [i] its index, [total] the length of the whole input. *)
Definition match_here (fl : flags) (r : regex) (total i : nat) (rest : jsstring)
  : option match_result :=
  m fl total r rest []
    (fun s' caps =>
       Some {| index := i;
               matched := firstn (length rest - length s') rest;
               groups := caps |}).

(** Leftmost match at or after position [i]. *)
Fixpoint search (fl : flags) (r : regex) (total i : nat) (rest : jsstring)
  : option match_result :=
  match match_here fl r total i rest with
  | Some z => Some z
  | None =>
      match rest with
      | [] => None
      | _ :: rest' => search fl r total (S i) rest'
      end
  end.

(** [r.exec(s)] / [s.match(r)] without flag [g]. *)
Definition exec (fl : flags) (r : regex) (s : jsstring) : option match_result :=
  search fl r (length s) 0 s.

(** [r.test(s)] without flag [g]. *)
Definition test (fl : flags) (r : regex) (s : jsstring) : bool :=
  match exec fl r s with Some _ => true | None => false end.

(** [s.replace(r, f)] without flag [g]: the first match only. *)
Definition replace1 (fl : flags) (r : regex) (f : match_result -> jsstring)
    (s : jsstring) : jsstring :=
  match exec fl r s with
  | Some z =>
      firstn (index z) s ++ f z ++ skipn (index z + length (matched z)) s
  | None => s
  end.

(** The scan shared by the [g] drivers.  At each position a match is
    attempted; on failure the position advances by one unit, on success by
    the length of the match (by one unit after an empty match). *)
Fixpoint scan_g (A : Type) (fl : flags) (r : regex) (total : nat)
    (on_match : match_result -> A) (on_unit : codeunit -> A)
    (fuel i : nat) (rest : jsstring) : list A :=
  match fuel with
  | O => []
  | S fuel' =>
      match match_here fl r total i rest with
      | Some z =>
          match length (matched z) with
          | O =>
              on_match z ::
              match rest with
              | [] => []
              | c :: rest' =>
                  on_unit c :: scan_g fl r total on_match on_unit fuel' (S i) rest'
              end
          | S n =>
              on_match z ::
              scan_g fl r total on_match on_unit fuel' (i + S n) (skipn (S n) rest)
          end
      | None =>
          match rest with
          | [] => []
          | c :: rest' =>
              on_unit c :: scan_g fl r total on_match on_unit fuel' (S i) rest'
          end
      end
  end.

(** [[...s.matchAll(r)]] with flag [g]. *)
Definition matchAll (fl : flags) (r : regex) (s : jsstring) : list match_result :=
  concat (scan_g fl r (length s) (fun z => [z]) (fun _ => [])
            (S (length s)) 0 s).

(** [s.replace(r, f)] with flag [g]. *)
Definition replaceAll_g (fl : flags) (r : regex) (f : match_result -> jsstring)
    (s : jsstring) : jsstring :=
  concat (scan_g fl r (length s) f (fun c => [c]) (S (length s)) 0 s).

(** Pattern builders: a literal string, a sequence, an alternation. *)
Fixpoint lits (s : jsstring) : regex :=
  match s with
  | [] => Eps
  | [c] => Lit c
  | c :: s' => Seq (Lit c) (lits s')
  end.

Fixpoint seq (rs : list regex) : regex :=
  match rs with
  | [] => Eps
  | [r] => r
  | r :: rs' => Seq r (seq rs')
  end.

Fixpoint alt (rs : list regex) : regex :=
  match rs with
  | [] => Eps
  | [r] => r
  | r :: rs' => Alt r (alt rs')
  end.

Definition star (r : regex) : regex := Rep r 0 None true.       (* r*  *)
Definition plus (r : regex) : regex := Rep r 1 None true.       (* r+  *)
Definition opt (r : regex) : regex := Rep r 0 (Some 1) true.    (* r?  *)
Definition plus_lazy (r : regex) : regex := Rep r 1 None false. (* r+? *)
Definition times (lo hi : nat) (r : regex) : regex := Rep r lo (Some hi) true.
Definition atleast (lo : nat) (r : regex) : regex := Rep r lo None true.

Definition chr (s : string) : codeunit :=
  match str s with c :: _ => c | [] => 0%N end.
Arguments chr s%_string.

Definition oneOf (s : string) (c : codeunit) : bool :=
  existsb (cu_eqb c) (str s).
Arguments oneOf s%_string c.

(** [s.endsWith(p)] *)
Definition endsWith (p s : jsstring) : bool := startsWith (rev p) (rev s).

(** [a > b] and [a * b] on Numbers. *)
Definition num_gt (a b : number) : bool :=
  match a, b with
  | Num x, Num y => negb (Qle_bool x y)
  | _, _ => false
  end.
Definition num_mul (a b : number) : number :=
  match a, b with
  | Num x, Num y => Num (Qred (x * y))
  | _, _ => NaN
  end.

End JS.

(* ===================================================================== *)
(** * Data model                                                          *)
(* ===================================================================== *)

Module Data.
Import JS.

(** Primitive values, as they reach the [Validator] constructor through
    its [options] argument. *)
Inductive jsval :=
| JUndefined
| JNull
| JBool (b : bool)
| JNumber (n : number)
| JString (s : jsstring)
| JBigInt (z : Z).

(** ToBoolean: the falsy values are [undefined], [null], [false], [0],
    [NaN], the empty string and [0n]. *)
Definition truthy (v : jsval) : bool :=
  match v with
  | JUndefined | JNull => false
  | JBool b => b
  | JNumber NaN => false
  | JNumber (Num q) => negb (Qeq_bool q 0)
  | JString s => match s with [] => false | _ :: _ => true end
  | JBigInt z => negb (Z.eqb z 0)
  end.

(** [a || b] *)
Definition js_or (a b : jsval) : jsval := if truthy a then a else b.

(** A line item extracted from the document ([this.items] of the parser). *)
Record BCItem := {
  seri : Z;
  kodeBrg : jsstring;
  uraian : jsstring;
  bc_qty : number;
  satuan : jsstring
}.

(** A reference row of the spreadsheet.  The last three fields are absent
    ([None]) until [processDuplicateSeri] adds them. *)
Record ExcelItem := {
  rowNumber : nat;
  itemCode : jsstring;
  itemName : jsstring;
  qty : number;
  ajuNumber : jsstring;
  seriBarang : Z;
  qtyToCheck : option number;
  isDuplicate : option bool;
  duplicateCount : option nat
}.

(** The status strings ['OK'], ['ERROR'], ['NOT MATCH'], ['OVER LIMIT'],
    ['WARNING']. *)
Inductive status := OK | ERROR | NOT_MATCH | OVER_LIMIT | WARNING.

Definition status_eqb (a b : status) : bool :=
  match a, b with
  | OK, OK | ERROR, ERROR | NOT_MATCH, NOT_MATCH
  | OVER_LIMIT, OVER_LIMIT | WARNING, WARNING => true
  | _, _ => false
  end.

(** The issue messages, kept structured: the text of a message embeds
    Numbers printed by the runtime, which is outside the model. *)
Inductive issue :=
| SeriNotFound (seri : Z)                      (* Seri .. tidak ditemukan di BC *)
| CodeSimilar (similarity : number)            (* Item Code match (..% similar) *)
| CodeMismatch (excelCode bcCode : jsstring)   (* Item Code mismatch (..)       *)
| InvalidQty                                   (* Invalid qty values            *)
| QtyOverLimit (excelNum bcNum : number).      (* Qty over limit (..)           *)

Record ExcelData := {
  ed_itemCode : jsstring;
  ed_itemName : jsstring;
  ed_qty : number;
  ed_seriBarang : Z
}.

(** [result.validation]; a field is [None] while it is [null]. *)
Record Validation := {
  v_itemCode : option status;
  v_qty : option status;
  v_overall : option status
}.

Record ValidationResult := {
  r_rowNumber : nat;
  r_excelData : option ExcelData;
  r_bcData : option BCItem;
  validation : Validation;
  issues : list issue
}.

End Data.

(* ===================================================================== *)
(** * validator.js: class [Validator]                                     *)
(* ===================================================================== *)

Module Validator.
Import JS Data.

(** The constructor argument [options]; an absent key is [JUndefined]. *)
Record ctor_options := {
  opt_nameSimilarityThreshold : jsval;
  opt_allowMultiItemSameSeri : jsval;
  opt_strictMode : jsval
}.

(** [options = {}] *)
Definition no_options : ctor_options :=
  {| opt_nameSimilarityThreshold := JUndefined;
     opt_allowMultiItemSameSeri := JUndefined;
     opt_strictMode := JUndefined |}.

(** [this.options] *)
Record options := {
  nameSimilarityThreshold : jsval;
  allowMultiItemSameSeri : bool;
  strictMode : jsval
}.

(** The Number [0.75]. *)
Definition default_threshold : number := Num (3 # 4).

(** [x !== false] *)
Definition not_strictly_false (v : jsval) : bool :=
  match v with JBool false => false | _ => true end.

Definition constructor (o : ctor_options) : options :=
  {| nameSimilarityThreshold :=
       js_or (opt_nameSimilarityThreshold o) (JNumber default_threshold);
     allowMultiItemSameSeri := not_strictly_false (opt_allowMultiItemSameSeri o);
     strictMode := js_or (opt_strictMode o) (JBool false) |}.

(** What the class takes from outside the repository. *)
Record runtime := {
  (** [String.prototype.toUpperCase] (Unicode case mapping) *)
  toUpperCase : jsstring -> jsstring;
  (** [stringSimilarity.compareTwoStrings] of package string-similarity *)
  compareTwoStrings : jsstring -> jsstring -> number;
  (** ToNumber on a String *)
  StringToNumber : jsstring -> number
}.

Section WithRuntime.
Variable rt : runtime.
Variable this_options : options.

(** ToNumber on a primitive. *)
Definition ToNumber (v : jsval) : number :=
  match v with
  | JUndefined => NaN
  | JNull => Num 0
  | JBool b => if b then Num 1 else Num 0
  | JNumber n => n
  | JString s => StringToNumber rt s
  | JBigInt z => num_of_Z z
  end.

(** [x >= v] for a Number [x]: neither operand is NaN after conversion
    and [v] is not greater. *)
Definition ge_value (x : number) (v : jsval) : bool := num_ge x (ToNumber v).

Record code_validation := {
  cv_status : status;
  cv_similarity : number;
  cv_message : option issue
}.

Definition validateItemCode (excelCode bcCode : jsstring) : code_validation :=
  let excelNorm := toUpperCase rt (trim excelCode) in
  let bcNorm := toUpperCase rt (trim bcCode) in
  if jsstring_eqb excelNorm bcNorm then
    {| cv_status := OK; cv_similarity := Num 1; cv_message := None |}
  else
    let similarity := compareTwoStrings rt excelNorm bcNorm in
    if ge_value similarity (nameSimilarityThreshold this_options) then
      {| cv_status := OK; cv_similarity := similarity;
         cv_message := Some (CodeSimilar similarity) |}
    else
      {| cv_status := NOT_MATCH; cv_similarity := similarity;
         cv_message := Some (CodeMismatch excelCode bcCode) |}.

Record qty_validation := {
  qv_status : status;
  qv_message : option issue
}.

Definition validateQty (excelQty bcQty : number) : qty_validation :=
  let excelNum := parseFloatNum excelQty in
  let bcNum := parseFloatNum bcQty in
  if isNaN excelNum || isNaN bcNum then
    {| qv_status := ERROR; qv_message := Some InvalidQty |}
  else if num_le excelNum bcNum then
    {| qv_status := OK; qv_message := None |}
  else
    {| qv_status := OVER_LIMIT; qv_message := Some (QtyOverLimit excelNum bcNum) |}.

Definition excelData_of (excelItem : ExcelItem) : ExcelData :=
  {| ed_itemCode := itemCode excelItem;
     ed_itemName := itemName excelItem;
     ed_qty := qty excelItem;
     ed_seriBarang := seriBarang excelItem |}.

Definition push_message (m : option issue) (l : list issue) : list issue :=
  match m with Some i => l ++ [i] | None => l end.

(** The branch on the two field statuses that sets [validation.overall]. *)
Definition overall (itemCodeStatus qtyStatus : status) : status :=
  if status_eqb itemCodeStatus OK && status_eqb qtyStatus OK then OK
  else if status_eqb itemCodeStatus ERROR || status_eqb qtyStatus ERROR then ERROR
  else WARNING.

(** [validateItem(excelItem, bcItem)]; [bcItem] is [None] for [null].
    Every operation of the [try] block is total on these types, so the
    [catch] handler is unreachable and has no counterpart here. *)
Definition validateItem (excelItem : ExcelItem) (bcItem : option BCItem)
  : ValidationResult :=
  match bcItem with
  | None =>
      {| r_rowNumber := rowNumber excelItem;
         r_excelData := Some (excelData_of excelItem);
         r_bcData := None;
         validation := {| v_itemCode := Some ERROR; v_qty := Some ERROR;
                          v_overall := Some ERROR |};
         issues := [SeriNotFound (seriBarang excelItem)] |}
  | Some bc =>
      let itemCodeValidation := validateItemCode (itemCode excelItem) (kodeBrg bc) in
      let issues1 := push_message (cv_message itemCodeValidation) [] in
      let qtyValidation := validateQty (qty excelItem) (bc_qty bc) in
      let issues2 := push_message (qv_message qtyValidation) issues1 in
      {| r_rowNumber := rowNumber excelItem;
         r_excelData := Some (excelData_of excelItem);
         r_bcData := Some bc;
         validation :=
           {| v_itemCode := Some (cv_status itemCodeValidation);
              v_qty := Some (qv_status qtyValidation);
              v_overall := Some (overall (cv_status itemCodeValidation)
                                         (qv_status qtyValidation)) |};
         issues := issues2 |}
  end.

(** ToString of an integral Number. *)
Definition int_to_jsstring (z : Z) : jsstring :=
  map N_of_ascii (list_ascii_of_string (NilZero.string_of_int (Z.to_int z))).

(** The template [`${item.ajuNumber}_${item.seriBarang}`]. *)
Definition group_key (item : ExcelItem) : jsstring :=
  ajuNumber item ++ str "_" ++ int_to_jsstring (seriBarang item).

(** The object [groups]: its keys in insertion order, which is the order
    [Object.keys] lists them in (no key is an array index, each contains
    an underscore). *)
Definition groups_t := list (jsstring * list ExcelItem).

Fixpoint push_group (key : jsstring) (item : ExcelItem) (groups : groups_t)
  : groups_t :=
  match groups with
  | [] => [(key, [item])]
  | (k, g) :: rest =>
      if jsstring_eqb k key then (k, g ++ [item]) :: rest
      else (k, g) :: push_group key item rest
  end.

Definition group_items (items : list ExcelItem) : groups_t :=
  fold_left (fun groups item => push_group (group_key item) item groups) items [].

(** [{...item, qtyToCheck, isDuplicate, duplicateCount}] *)
Definition annotate (item : ExcelItem) (q : number) (dup : bool)
    (count : option nat) : ExcelItem :=
  {| rowNumber := rowNumber item;
     itemCode := itemCode item;
     itemName := itemName item;
     qty := qty item;
     ajuNumber := ajuNumber item;
     seriBarang := seriBarang item;
     qtyToCheck := Some q;
     isDuplicate := Some dup;
     duplicateCount :=
       match count with Some c => Some c | None => duplicateCount item end |}.

Definition process_group (group : list ExcelItem) : list ExcelItem :=
  match group with
  | [item] => [annotate item (qty item) false None]
  | _ =>
      let totalQty :=
        fold_left (fun sum item => num_add sum (qty item)) group (Num 0) in
      map (fun item => annotate item totalQty true (Some (length group))) group
  end.

Definition processDuplicateSeri (items : list ExcelItem) : list ExcelItem :=
  if negb (allowMultiItemSameSeri this_options) then items
  else flat_map (fun kg => process_group (snd kg)) (group_items items).

Record Summary := {
  total : nat;
  ok : nat;
  warning : nat;
  error : nat;
  (** percentage, before it is printed with two decimals *)
  successRate : Q;
  issues_itemCode : nat;
  issues_qty : nat
}.

Definition has_status (s : status) (o : option status) : bool :=
  match o with Some x => status_eqb x s | None => false end.

(** [x && x !== 'OK'] *)
Definition is_issue (o : option status) : bool :=
  match o with Some x => negb (status_eqb x OK) | None => false end.

Definition count (f : ValidationResult -> bool) (results : list ValidationResult) : nat :=
  length (filter f results).

Definition generateSummary (results : list ValidationResult) : Summary :=
  let total := length results in
  let ok := count (fun r => has_status OK (v_overall (validation r))) results in
  {| total := total;
     ok := ok;
     warning := count (fun r => has_status WARNING (v_overall (validation r))) results;
     error := count (fun r => has_status ERROR (v_overall (validation r))) results;
     successRate :=
       if 0 <? total
       then Qred ((inject_Z (Z.of_nat ok) / inject_Z (Z.of_nat total)) * 100)
       else 0%Q;
     issues_itemCode := count (fun r => is_issue (v_itemCode (validation r))) results;
     issues_qty := count (fun r => is_issue (v_qty (validation r))) results |}.

(** [validateBatch(excelItems, pdfParser)]; of [pdfParser] only the method
    [findBySeri] is used, which cannot throw. *)
Definition validateBatch (excelItems : list ExcelItem)
    (findBySeri : Z -> option BCItem)
  : list ValidationResult * Summary :=
  let results :=
    map (fun excelItem => validateItem excelItem (findBySeri (seriBarang excelItem)))
        excelItems in
  (results, generateSummary results).

End WithRuntime.

End Validator.

(* ===================================================================== *)
(** * pdf-parser.js: class [PDFParser]                                    *)
(* ===================================================================== *)

Module PDFParser.
Import JS Data.

(** The fields of a parser object that the methods below read or write. *)
Record parser := {
  pdfPath : jsstring;
  fullText : jsstring;
  items : list BCItem;
  isScanned : bool
}.

Definition set_fullText (t : jsstring) (p : parser) : parser :=
  {| pdfPath := pdfPath p; fullText := t; items := items p; isScanned := isScanned p |}.
Definition set_items (l : list BCItem) (p : parser) : parser :=
  {| pdfPath := pdfPath p; fullText := fullText p; items := l; isScanned := isScanned p |}.

(** A thrown [Error], identified by its message. *)
Definition Error := jsstring.

(** ** Text normalisation: [postProcessOCRText] *)

(** The object [phraseReplacements], in the order [Object.entries] lists it
    (no key is an array index). *)
Definition phraseReplacements : list (jsstring * jsstring) :=
  [ (str "Kode 8rg", str "Kode Brg");
    (str "Kode 8RG", str "Kode Brg");
    (str "Pos TarifI", str "Pos Tarif");
    (str "Pos TarifHS", str "Pos Tarif/HS");
    (str "Pos Taril", str "Pos Tarif");
    (str "Jurnlah", str "Jumlah");
    (str "PEMER1TAHUAN", str "PEMBERITAHUAN");
    (str "PEM8ERITAHUAN", str "PEMBERITAHUAN");
    (str "1MPOR", str "IMPOR");
    (str "IMP0R", str "IMPOR");
    (str "8ARANG", str "BARANG");
    (str "LEMRAR", str "LEMBAR");
    (str "LANJIJTAN", str "LANJUTAN") ].

(** [cleaned.replace(new RegExp(wrong, 'gi'), correct)]; no key contains a
    pattern metacharacter and no value contains [$]. *)
Definition replacePhrase (wrong correct cleaned : jsstring) : jsstring :=
  replaceAll_g flag_i (lits wrong) (fun _ => correct) cleaned.

(** The [for (const [wrong, correct] of Object.entries(...))] loop. *)
Definition applyPhraseReplacements (text : jsstring) : jsstring :=
  fold_left (fun cleaned wc => replacePhrase (fst wc) (snd wc) cleaned)
            phraseReplacements text.

(** [cleaned.replace(/\s{2,}/g, ' ')] *)
Definition collapseSpaces (cleaned : jsstring) : jsstring :=
  replaceAll_g noflags (atleast 2 (Cls isWhiteSpace)) (fun _ => [SP]) cleaned.

(** [cleaned.replace(/\n{4,}/g, '\n\n\n')] *)
Definition collapseNewlines (cleaned : jsstring) : jsstring :=
  replaceAll_g noflags (atleast 4 (Lit LF)) (fun _ => [LF; LF; LF]) cleaned.

(** [cleaned.split('\n').map(line => line.trim()).join('\n')] *)
Definition trimLines (cleaned : jsstring) : jsstring :=
  join [LF] (map trim (split_lf cleaned)).

(** The three statements after the phrase loop. *)
Definition normalizeWhitespace (cleaned : jsstring) : jsstring :=
  trimLines (collapseNewlines (collapseSpaces cleaned)).

(** No statement of the [try] block can throw on a string, so the [catch]
    handler (return the original text) is unreachable. *)
Definition postProcessOCRText (text : jsstring) : jsstring :=
  normalizeWhitespace (applyPhraseReplacements text).

(** ** Item extraction *)

Definition digit : regex := Cls isDigit.
Definition space : regex := Cls isWhiteSpace.
Definition word : regex := Cls isWord.
(** [[\d.,]] *)
Definition numchar : regex := Cls (fun c => isDigit c || oneOf ".," c).
(** [[.,]?] *)
Definition sep_opt : regex := opt (Cls (oneOf ".,")).
(** [[A-Z]] *)
Definition AZ : regex := Cls isUpper.
(** [[a-z]] *)
Definition az : regex := Cls isLower.

(** [parseInt] on a run of decimal digits. *)
Definition parseIntDigits (ds : jsstring) : Z := digitsValue ds.

Definition keywords : list jsstring :=
  [ str "LEMBAR LANJUTAN";
    str "PEMBERITAHUAN IMPOR BARANG UNTUK DITIMBUN";
    str "PEMBERITAHUAN IMPOR";
    str "Pos Tarif/HS";
    str "Pos TarifHS";
    str "Pos Tarif HS";
    str "Pos Taril/HS";
    str "BC23";
    str "BC 23";
    str "BC 2.3";
    str "TEMPAT PENIMBUNAN BERIKAT" ].

(** [/[\|\s]*\d+\s+[\[\(]?\d{4}[.,]?\d{2,3}[.,]?\d{3,4}/] *)
Definition itemLikePattern : regex :=
  seq [ star (Cls (fun c => cu_eqb c (chr "|") || isWhiteSpace c));
        plus digit; plus space;
        opt (Cls (oneOf "[("));
        times 4 4 digit; sep_opt; times 2 3 digit; sep_opt; times 3 4 digit ].

Definition findTableSection (p : parser) : bool :=
  let foundCount :=
    length (filter (fun keyword => includes keyword (fullText p)) keywords) in
  if 0 <? foundCount then true
  else test noflags itemLikePattern (fullText p).

(** *** Strategy 1: digital layout, [parseItemText] *)

Definition KodeBrg_label : regex :=
  seq [ lits (str "Kode Brg"); star space; Lit (chr ":"); star space ].

(** [/Kode Brg\s*:\s*(\w+)/] *)
Definition kodePattern : regex := seq [ KodeBrg_label; Grp 1 (plus word) ].

(** [/Kode Brg\s*:\s*\w+\s+(.+?)(?=Kemasan:|Merk:|$)/s] *)
Definition uraianPattern : regex :=
  seq [ KodeBrg_label; plus word; plus space;
        Grp 1 (plus_lazy Dot);
        Ahead (alt [ lits (str "Kemasan:"); lits (str "Merk:"); Eol ]) ].

(** [/-\s*([\d.,]+)\s*\n\s*-\s*(\w+)/] *)
Definition jumlahPattern : regex :=
  seq [ Lit (chr "-"); star space; Grp 1 (plus numchar); star space; Lit LF;
        star space; Lit (chr "-"); star space; Grp 2 (plus word) ].

(** [/Jumlah[:\s]*([\d.,]+)\s*(\w+)/i] *)
Definition jumlahAltPattern : regex :=
  seq [ lits (str "Jumlah");
        star (Cls (fun c => cu_eqb c (chr ":") || isWhiteSpace c));
        Grp 1 (plus numchar); star space; Grp 2 (plus word) ].

(** [x.replace(/\./g, '').replace(',', '.')] *)
Definition dotsOut_commaToDot (x : jsstring) : jsstring :=
  replace1 noflags (Lit (chr ",")) (fun _ => str ".")
    (replaceAll_g noflags (Lit (chr ".")) (fun _ => []) x).

(** [parseItemText(seri, itemText)]; [None] is the [null] returned by the
    [catch] handler. *)
Definition parseItemText (seri : Z) (itemText : jsstring) : option BCItem :=
  match exec noflags kodePattern itemText with
  | None => None                                   (* Kode Brg not found *)
  | Some kodeMatch =>
      let kodeBrg := trim (group 1 kodeMatch) in
      let uraian :=
        match exec flag_s uraianPattern itemText with
        | Some uraianMatch =>
            replaceAll_g noflags (plus space) (fun _ => [SP])
              (trim (group 1 uraianMatch))
        | None => []
        end in
      match exec noflags jumlahPattern itemText with
      | None =>
          match exec flag_i jumlahAltPattern itemText with
          | None => None                           (* Jumlah not found *)
          | Some altMatch =>
              Some {| seri := seri; kodeBrg := kodeBrg; uraian := uraian;
                      bc_qty := parseFloat (dotsOut_commaToDot (group 1 altMatch));
                      satuan := trim (group 2 altMatch) |}
          end
      | Some jumlahMatch =>
          let qty := parseFloat (dotsOut_commaToDot (group 1 jumlahMatch)) in
          if isNaN qty then None                   (* Invalid qty *)
          else Some {| seri := seri; kodeBrg := kodeBrg; uraian := uraian;
                       bc_qty := qty; satuan := trim (group 2 jumlahMatch) |}
      end
  end.

(** *** Strategy 2: OCR table layout, [parseOCRItemText] *)

(** Lines 802-811: the tariff code. *)
Definition normalizeHsCode (hsCode : jsstring) : jsstring :=
  (* hsCode.replace(/[\[\]]/g, '') *)
  let kodeBrg := replaceAll_g noflags (Cls (oneOf "[]")) (fun _ => []) hsCode in
  if negb (includes (str ".") kodeBrg) && (10 <=? length kodeBrg) then
    substring 0 4 kodeBrg ++ str "." ++ skipn 4 kodeBrg
  else
    (* /^(\d{4})\.(\d{2})\.(\d{4})$/ with replacement '$1.$2$3' *)
    replace1 noflags
      (seq [ Bol; Grp 1 (times 4 4 digit); Lit (chr "."); Grp 2 (times 2 2 digit);
             Lit (chr "."); Grp 3 (times 4 4 digit); Eol ])
      (fun z => group 1 z ++ str "." ++ group 2 z ++ group 3 z)
      kodeBrg.

Definition unitName : regex :=
  alt (map (fun w => lits w)
         [ str "Piece"; str "Set"; str "Kg"; str "Unit"; str "Pcs";
           str "PCS"; str "SET"; str "PIECE"; str "KG"; str "UNIT" ]).

(** [/([\d.,]+)\s+(Piece|Set|Kg|Unit|Pcs|PCS|SET|PIECE|KG|UNIT)\s*\(([A-Z]+)\)/i] *)
Definition qtyPattern : regex :=
  seq [ Grp 1 (plus numchar); plus space; Grp 2 unitName; star space;
        Lit (chr "("); Grp 3 (plus AZ); Lit (chr ")") ].

(** Lines 825-844: the quantity text, made readable by [parseFloat]. *)
Definition normalizeQtyString (qtyString : jsstring) : jsstring :=
  if includes (str ".") qtyString && includes (str ",") qtyString then
    dotsOut_commaToDot qtyString
  else if test noflags                             (* /^\d+\.\d{4,}$/ *)
            (seq [ Bol; plus digit; Lit (chr "."); atleast 4 digit; Eol ])
            qtyString then
    qtyString
  else if test noflags                             (* /^\d{1,3}\.\d{3}$/ *)
            (seq [ Bol; times 1 3 digit; Lit (chr "."); times 3 3 digit; Eol ])
            qtyString then
    replaceAll_g noflags (Lit (chr ".")) (fun _ => []) qtyString
  else
    replace1 noflags (Lit (chr ",")) (fun _ => str ".") qtyString.

(** [/^(Kd barang|Langsung|Carton|BM:|Cukai|PPN|PPnBM|PPh|Tidak|Berhub|\d+\s+Carton)/i] *)
Definition metadataPattern : regex :=
  seq [ Bol;
        Grp 1 (alt [ lits (str "Kd barang"); lits (str "Langsung"); lits (str "Carton");
                     lits (str "BM:"); lits (str "Cukai"); lits (str "PPN");
                     lits (str "PPnBM"); lits (str "PPh"); lits (str "Tidak");
                     lits (str "Berhub");
                     seq [ plus digit; plus space; lits (str "Carton") ] ]) ].

(** [/^(.+?)(?:\s+Berhub|\s+Langsung|$)/] *)
Definition descPattern : regex :=
  seq [ Bol; Grp 1 (plus_lazy Dot);
        alt [ seq [ plus space; lits (str "Berhub") ];
              seq [ plus space; lits (str "Langsung") ];
              Eol ] ].

(** The [for] loop over [lines[1..]] that looks for the description. *)
Fixpoint findDescription (lines : list jsstring) : jsstring :=
  match lines with
  | [] => []
  | line :: rest =>
      let skip := findDescription rest in
      match line with
      | [] => skip
      | _ :: _ =>
          if test flag_i metadataPattern line then skip
          else
            match exec noflags descPattern line with
            | Some descMatch =>
                if 3 <? length (group 1 descMatch) then trim (group 1 descMatch)
                else skip
            | None => skip
            end
      end
  end.

(** The two fallback patterns tried on the first line. *)
Definition firstLinePatterns : list regex :=
  [ (* /\([A-Z]{2}\)\s+(.+?)\s+(?:BM:|DTG:|\d+[.,]\d+\s+(?:Piece|Set|Kg))/i *)
    seq [ Lit (chr "("); times 2 2 AZ; Lit (chr ")"); plus space;
          Grp 1 (plus_lazy Dot); plus space;
          alt [ lits (str "BM:"); lits (str "DTG:");
                seq [ plus digit; Cls (oneOf ".,"); plus digit; plus space;
                      alt [ lits (str "Piece"); lits (str "Set"); lits (str "Kg") ] ] ] ];
    (* /Tidak\s+[A-Z][a-z]+\s+\([A-Z]{2}\)\s+(.+?)\s+(?:BM:|DTG:)/i *)
    seq [ lits (str "Tidak"); plus space; AZ; plus az; plus space;
          Lit (chr "("); times 2 2 AZ; Lit (chr ")"); plus space;
          Grp 1 (plus_lazy Dot); plus space;
          alt [ lits (str "BM:"); lits (str "DTG:") ] ] ].

Fixpoint firstLineDescription (patterns : list regex) (firstLine : jsstring)
  : jsstring :=
  match patterns with
  | [] => []
  | pattern :: rest =>
      match exec flag_i pattern firstLine with
      | Some z =>
          if 3 <? length (group 1 z) then trim (group 1 z)
          else firstLineDescription rest firstLine
      | None => firstLineDescription rest firstLine
      end
  end.

Definition nonEmpty (l : jsstring) : bool :=
  match l with [] => false | _ :: _ => true end.

(** [parseOCRItemText(seri, hsCode, itemBlock)]; [None] is the [null]
    returned by the [catch] handler. *)
Definition parseOCRItemText (seri : Z) (hsCode itemBlock : jsstring)
  : option BCItem :=
  let kodeBrg := normalizeHsCode hsCode in
  match exec flag_i qtyPattern itemBlock with
  | None => None                                   (* Quantity not found *)
  | Some qtyMatch =>
      let qty := parseFloat (normalizeQtyString (group 1 qtyMatch)) in
      let satuan := trim (group 3 qtyMatch) in
      if isNaN qty then None                       (* Invalid qty *)
      else
        let lines := filter nonEmpty (map trim (split_lf itemBlock)) in
        match lines with
        | [] => None                               (* lines[0] is undefined *)
        | firstLine :: others =>
            let uraian1 := findDescription others in
            let uraian2 :=
              if nonEmpty uraian1 then uraian1
              else firstLineDescription firstLinePatterns firstLine in
            Some {| seri := seri; kodeBrg := kodeBrg;
                    (* uraian.replace(/^\|+\s*/, '').trim() *)
                    uraian := trim (replace1 noflags
                                      (seq [ Bol; plus (Lit (chr "|")); star space ])
                                      (fun _ => []) uraian2);
                    bc_qty := qty; satuan := satuan |}
        end
  end.

(** [/^[\|\s]*(\d+)\s+\[?(\d{4}[.,]?\d{2,3}[.,]?\d{3,4}|\d{10})/] *)
Definition itemLinePattern : regex :=
  seq [ Bol;
        star (Cls (fun c => cu_eqb c (chr "|") || isWhiteSpace c));
        Grp 1 (plus digit); plus space; opt (Lit (chr "["));
        Grp 2 (Alt (seq [ times 4 4 digit; sep_opt; times 2 3 digit; sep_opt;
                          times 3 4 digit ])
                   (times 10 10 digit)) ].

(** The [while] loop that collects the lines after an item line: it stops
    at the next item line, at the end, or once ten lines are taken. *)
Fixpoint blockLines (n : nat) (lines : list jsstring) : list jsstring :=
  match n, lines with
  | S n', l :: rest =>
      if test noflags itemLinePattern (trim l) then []
      else l :: blockLines n' rest
  | _, _ => []
  end.

(** The [for] loop of [parseItemsFromOCRTable] over the lines from [i] on. *)
Fixpoint scanLines (lines : list jsstring) (acc : list BCItem) : list BCItem :=
  match lines with
  | [] => acc
  | l :: rest =>
      let line := trim l in
      match exec noflags itemLinePattern line with
      | Some z =>
          let seri := parseIntDigits (group 1 z) in
          let hsCode := group 2 z in
          let itemBlock :=
            line ++ [LF] ++ concat (map (fun x => x ++ [LF]) (blockLines 10 rest)) in
          match parseOCRItemText seri hsCode itemBlock with
          | Some itemData => scanLines rest (acc ++ [itemData])
          | None => scanLines rest acc
          end
      | None => scanLines rest acc
      end
  end.

(** The lines of the log that tell which strategy ran. *)
Inductive log_line :=
| FoundPosTarif (n : nat)       (* Found n items using "Pos Tarif/HS" pattern *)
| TryingOCRTable                (* Trying OCR table format parsing...         *)
| OCRTableFound (n : nat)       (* OCR table parsing found n items            *)
| ParsedItems (n : nat)         (* Parsed n items from PDF                    *)
| FailedToParse (e : Error).    (* Failed to parse PDF items: e               *)

(** [parseItemsFromOCRTable()]: appends to [this.items]. *)
Definition parseItemsFromOCRTable (p : parser) : parser * list log_line :=
  let lines := split_lf (fullText p) in
  let p' := set_items (scanLines lines (items p)) p in
  (p', [OCRTableFound (length (items p'))]).

(** [/(\d+)\s+Pos Tarif\/HS/g] *)
Definition posTarifPattern : regex :=
  seq [ Grp 1 (plus digit); plus space; lits (str "Pos Tarif/HS") ].

(** The [for] loop of strategy 1 over [matches[i..]]. *)
Fixpoint parseBlocks (text : jsstring) (matches : list match_result)
    (acc : list BCItem) : list BCItem :=
  match matches with
  | [] => acc
  | mt :: rest =>
      let seri := parseIntDigits (group 1 mt) in
      let startIndex := index mt in
      let endIndex :=
        match rest with
        | next :: _ => index next
        | [] => length text
        end in
      let itemText := substring startIndex endIndex text in
      match parseItemText seri itemText with
      | Some itemData => parseBlocks text rest (acc ++ [itemData])
      | None => parseBlocks text rest acc
      end
  end.

(** [parseItems()]: the value returned or the error thrown, the parser
    afterwards, and the log. *)
Definition parseItems (p : parser) : (Error + list BCItem) * parser * list log_line :=
  if negb (findTableSection p) then
    let e := str "Table section not found" in
    (inl e, p, [FailedToParse e])
  else
    let matches := matchAll noflags posTarifPattern (fullText p) in
    let log1 := [FoundPosTarif (length matches)] in
    let p0 := set_items [] p in
    if 0 <? length matches then
      let p1 := set_items (parseBlocks (fullText p0) matches (items p0)) p0 in
      (inr (items p1), p1, log1 ++ [ParsedItems (length (items p1))])
    else
      let '(p1, log2) := parseItemsFromOCRTable p0 in
      (inr (items p1), p1,
       log1 ++ [TryingOCRTable] ++ log2 ++ [ParsedItems (length (items p1))]).

(** [findBySeri(seri)]; [parseInt] of an integral Number returns it. *)
Definition findBySeri (p : parser) (seri : Z) : option BCItem :=
  find (fun i => Z.eqb (Data.seri i) seri) (items p).

(** ** Recognition of a scanned document *)

Section OCR.
(** A raster image ([Buffer]). *)
Variable image : Type.

(** An element of the array returned by [pdfToPng]. *)
Record png_page := { name : jsstring; content : image }.

(** [result.data] of the recognition engine; [words] may be absent. *)
Record ocr_word := { w_text : jsstring; w_confidence : number }.
Record ocr_data := {
  d_text : jsstring;
  d_words : option (list ocr_word);
  d_confidence : number
}.

(** The collaborators outside the repository, with what they return or
    throw in the run at hand.  Calls made once per page are indexed by
    the page number. *)
Record collaborators := {
  (** [sharp(buf).grayscale().normalize().sharpen().threshold(128).toBuffer()] *)
  sharp_enhance : image -> Error + image;
  (** [fs.existsSync(langPath)] / [fs.mkdirSync(langPath, ...)] *)
  ensure_tessdata : nat -> Error + unit;
  (** [Tesseract.recognize(image, 'ind+eng', ...)] *)
  recognize : nat -> image -> Error + ocr_data;
  (** [fs.existsSync(tempFolder)] / [fs.mkdirSync(tempFolder, ...)] *)
  ensure_tempFolder : Error + unit;
  (** [pdfToPng(this.pdfPath, ...)] *)
  pdfToPng : jsstring -> Error + list png_page;
  (** [fs.existsSync] / [fs.readdirSync] / [fs.rmSync] on the temp folder *)
  remove_tempFolder : Error + unit;
  (** [fs.writeFileSync(ocrLogPath, ocrText)] *)
  save_result : jsstring -> Error + unit
}.

Variable env : collaborators.

(** Sequencing of steps that may throw. *)
Definition bind (A B : Type) (c : Error + A) (f : A -> Error + B) : Error + B :=
  match c with
  | inl e => inl e
  | inr a => f a
  end.
Notation "x <- c ;; k" := (bind c (fun x => k))
  (at level 61, c at next level, right associativity).

(** [try { return sharp pipeline } catch { return imageBuffer }] *)
Definition preprocessImage (imageBuffer : image) : image :=
  match sharp_enhance env imageBuffer with
  | inr processed => processed
  | inl _ => imageBuffer
  end.

Definition minConfidence : number := Num 30.

(** The confidence filter: each retained word followed by one space. *)
Definition filterWords (data : ocr_data) : jsstring :=
  match d_words data with
  | Some words =>
      fold_left
        (fun filteredText w =>
           if num_ge (w_confidence w) minConfidence
           then filteredText ++ w_text w ++ [SP]
           else filteredText)
        words []
  | None => d_text data
  end.

(** The body of the [try] block of [processPageWithOCR]. *)
Definition recognizePage (page : png_page) (pageNum : nat) : Error + jsstring :=
  let preprocessedImage := preprocessImage (content page) in
  _ <- ensure_tessdata env pageNum ;;
  result <- recognize env pageNum preprocessedImage ;;
  inr (filterWords result).

(** [processPageWithOCR(page, pageNum, totalPages)]: the promise never
    rejects, a failure yields the empty string. *)
Definition processPageWithOCR (page : png_page) (pageNum : nat) : jsstring :=
  match recognizePage page pageNum with
  | inr filteredText => filteredText
  | inl _ => []
  end.

Definition batchSize : nat := 3.

(** [batch.map((page, idx) => this.processPageWithOCR(page, i + idx + 1, ..))]
    under [Promise.all]: no task rejects, so the results come back in the
    order of the pages whatever the interleaving. *)
Fixpoint processBatch (i : nat) (batch : list png_page) : list jsstring :=
  match batch with
  | [] => []
  | page :: rest => processPageWithOCR page (i + 1) :: processBatch (S i) rest
  end.

(** The [for (let i = 0; i < pngPages.length; i += batchSize)] loop; the
    deletion of the images of a batch swallows its own errors. *)
Fixpoint processBatches (fuel i : nat) (pages : list png_page) (ocrText : jsstring)
  : jsstring :=
  match fuel, pages with
  | S fuel', _ :: _ =>
      let batch := firstn batchSize pages in
      let batchResults := processBatch i batch in
      processBatches fuel' (i + batchSize) (skipn batchSize pages)
        (ocrText ++ join [LF; LF] batchResults)
  | _, _ => ocrText
  end.

Definition ocrFailed : Error :=
  str "Cannot extract text from scanned PDF. OCR failed.".

(** The body of the [try] block of [extractTextWithOCR]: the text
    returned or the error thrown, and the parser afterwards. *)
Definition extractTextWithOCR_try (p : parser) : (Error + jsstring) * parser :=
  match (_ <- ensure_tempFolder env ;;
         pngPages <- pdfToPng env (pdfPath p) ;;
         let ocrText := processBatches (length pngPages) 0 pngPages [] in
         _ <- remove_tempFolder env ;;
         inr (postProcessOCRText ocrText)) with
  | inl e => (inl e, p)
  | inr ocrText =>
      let p' := set_fullText ocrText p in
      match save_result env ocrText with
      | inl e => (inl e, p')
      | inr _ => (inr ocrText, p')
      end
  end.

(** [extractTextWithOCR()]: whatever is thrown inside is replaced by one
    fixed error. *)
Definition extractTextWithOCR (p : parser) : (Error + jsstring) * parser :=
  match extractTextWithOCR_try p with
  | (inl _, p') => (inl ocrFailed, p')
  | (inr ocrText, p') => (inr ocrText, p')
  end.

End OCR.

(** ** Document type *)

Definition bc23Patterns : list jsstring :=
  [ str "BC 2.3"; str "BC 23"; str "BC23"; str "BC2.3" ].

Definition bc40Patterns : list jsstring :=
  [ str "BC 4.0"; str "BC 40"; str "BC40"; str "BC4.0" ].

(** [detectDocumentType()]: the first spelling found decides.  The search
    for other [BC...] texts before ['Unknown'] is returned only feeds the
    log. *)
Definition detectDocumentType (p : parser) : jsstring :=
  if existsb (fun pattern => includes pattern (fullText p)) bc23Patterns
  then str "BC2.3"
  else if existsb (fun pattern => includes pattern (fullText p)) bc40Patterns
  then str "BC4.0"
  else str "Unknown".

(** ** Looking items up *)

Section Lookup.
(** [String.prototype.toUpperCase] *)
Variable toUpperCase : jsstring -> jsstring.

(** [findByKodeBarang(kodeBrg)]; [None] is [null]. *)
Definition findByKodeBarang (p : parser) (kodeBrg : jsstring) : option (list BCItem) :=
  let found :=
    filter (fun i => jsstring_eqb (toUpperCase (Data.kodeBrg i)) (toUpperCase kodeBrg))
           (items p) in
  match found with
  | [] => None
  | _ :: _ => Some found
  end.
End Lookup.

(** [getItems()] *)
Definition getItems (p : parser) : list BCItem := items p.

(** ** Summary of the extracted items *)

(** The integers with the two infinities that [Math.min] and [Math.max]
    return when they are given no argument. *)
Inductive extended :=
| NegInfinity
| Finite (z : Z)
| PosInfinity.

(** [Math.min(...xs)] and [Math.max(...xs)] on integers. *)
Definition Math_min (xs : list Z) : extended :=
  match xs with
  | [] => PosInfinity
  | x :: rest => Finite (fold_left Z.min rest x)
  end.

Definition Math_max (xs : list Z) : extended :=
  match xs with
  | [] => NegInfinity
  | x :: rest => Finite (fold_left Z.max rest x)
  end.

(** [[...new Set(xs)]]: each value once, in the order of the first
    occurrences. *)
Definition set_values (xs : list jsstring) : list jsstring :=
  fold_left (fun seen x => if existsb (jsstring_eqb x) seen then seen else seen ++ [x])
            xs [].

Record items_summary := {
  totalItems : nat;
  totalQty : number;
  kodeBrgList : list jsstring;
  seriRange_min : extended;
  seriRange_max : extended
}.

Definition getSummary (p : parser) : items_summary :=
  {| totalItems := length (items p);
     totalQty := fold_left (fun sum item => num_add sum (bc_qty item)) (items p) (Num 0);
     kodeBrgList := set_values (map kodeBrg (items p));
     seriRange_min := Math_min (map seri (items p));
     seriRange_max := Math_max (map seri (items p)) |}.

(** ** Loading a document *)

Definition set_isScanned (b : bool) (p : parser) : parser :=
  {| pdfPath := pdfPath p; fullText := fullText p; items := items p; isScanned := b |}.
Definition set_pdfPath (path : jsstring) (p : parser) : parser :=
  {| pdfPath := path; fullText := fullText p; items := items p; isScanned := isScanned p |}.

(** What [pdfParse] resolves to, as far as it is read. *)
Record pdf_data := { text : jsstring; numpages : nat }.

(** A parser object with its field [pdfData] ([None] for [null]). *)
Record document := { this : parser; pdfData : option pdf_data }.

(** [new PDFParser(pdfPath)] *)
Definition constructor (pdfPath : jsstring) : document :=
  {| this := {| pdfPath := pdfPath; fullText := []; items := []; isScanned := false |};
     pdfData := None |}.

(** The temporary file of [loadFromBuffer]: what happened to it. *)
Inductive fs_event :=
| Written (path : jsstring)        (* fs.writeFileSync(tempPath, buffer) returned *)
| Unlinked (path : jsstring).      (* fs.unlinkSync(tempPath) returned           *)

Section Loading.
Variable image : Type.
(** The bytes of a document ([Buffer]). *)
Variable bytes : Type.

(** The collaborators of [load] and [loadFromBuffer]. *)
Record loader := {
  (** [fs.readFileSync(this.pdfPath)] *)
  readFileSync : jsstring -> Error + bytes;
  (** [pdfParse(dataBuffer)] *)
  pdfParse : bytes -> Error + pdf_data;
  (** [path.join(__dirname, '../../logs', `temp-${Date.now()}.pdf`)] *)
  tempPath : jsstring;
  (** [fs.writeFileSync(tempPath, buffer)] *)
  writeFileSync : jsstring -> bytes -> Error + unit;
  (** [fs.unlinkSync(tempPath)] *)
  unlinkSync : jsstring -> Error + unit
}.

Variable env : collaborators image.
Variable ld : loader.

(** [this.fullText.trim().length < 100] *)
Definition noExtractableText (p : parser) : bool := length (trim (fullText p)) <? 100.

(** [load()]: [true] or the error thrown (the [catch] handler throws the
    error it caught), and the object afterwards. *)
Definition load (d : document) : (Error + bool) * document :=
  match readFileSync ld (pdfPath (this d)) with
  | inl e => (inl e, d)
  | inr dataBuffer =>
      match pdfParse ld dataBuffer with
      | inl e => (inl e, d)
      | inr data =>
          let p1 := set_fullText (text data) (this d) in
          if noExtractableText p1 then
            let p2 := set_isScanned true p1 in
            match extractTextWithOCR env p2 with
            | (inl e, p3) => (inl e, {| this := p3; pdfData := Some data |})
            | (inr _, p3) => (inr true, {| this := p3; pdfData := Some data |})
            end
          else (inr true, {| this := p1; pdfData := Some data |})
      end
  end.

(** [loadFromBuffer(buffer)], with what happened to the temporary file. *)
Definition loadFromBuffer (d : document) (buffer : bytes)
  : (Error + bool) * document * list fs_event :=
  match pdfParse ld buffer with
  | inl e => (inl e, d, [])
  | inr data =>
      let p1 := set_fullText (text data) (this d) in
      if noExtractableText p1 then
        let p2 := set_isScanned true p1 in
        match writeFileSync ld (tempPath ld) buffer with
        | inl e => (inl e, {| this := p2; pdfData := Some data |}, [])
        | inr _ =>
            let p3 := set_pdfPath (tempPath ld) p2 in
            match extractTextWithOCR env p3 with
            | (inl e, p4) =>
                (inl e, {| this := p4; pdfData := Some data |}, [Written (tempPath ld)])
            | (inr _, p4) =>
                match unlinkSync ld (tempPath ld) with
                | inl e =>
                    (inl e, {| this := p4; pdfData := Some data |},
                     [Written (tempPath ld)])
                | inr _ =>
                    (inr true, {| this := p4; pdfData := Some data |},
                     [Written (tempPath ld); Unlinked (tempPath ld)])
                end
            end
        end
      else (inr true, {| this := p1; pdfData := Some data |}, [])
  end.

End Loading.

End PDFParser.

(* ===================================================================== *)
(** * cleanup-ocr.js: class [OCRCleanup]                                  *)
(* ===================================================================== *)

Module OCRCleanup.
Import JS Data.

Definition Error := jsstring.

(** The constructor argument [options]; an absent key is [JUndefined].
    The directory [logsDir] is not a field here: it is the directory the
    file-system collaborators below work in. *)
Record ctor_options := {
  opt_maxAge : jsval;
  opt_maxFiles : jsval;
  opt_dryRun : jsval
}.

Record cleanup := {
  maxAge : jsval;       (* days to keep files          *)
  maxFiles : jsval;     (* number of files to keep     *)
  dryRun : jsval        (* only tell what would go     *)
}.

Definition constructor (o : ctor_options) : cleanup :=
  {| maxAge := js_or (opt_maxAge o) (JNumber (Num 7));
     maxFiles := js_or (opt_maxFiles o) (JNumber (Num 50));
     dryRun := js_or (opt_dryRun o) (JBool false) |}.

(** An element of [files]: the name and [stat.mtime] in milliseconds. *)
Record file := { f_name : jsstring; mtime : Z }.

(** [file.startsWith('ocr-result-') && file.endsWith('.txt')] *)
Definition isOCRResult (name : jsstring) : bool :=
  startsWith (str "ocr-result-") name && endsWith (str ".txt") name.

(** [files.sort((a, b) => b.stat.mtime - a.stat.mtime)]: newest first.
    The sort of the runtime is stable, and the comparator is a total
    preorder, so the result is the one of this insertion sort. *)
Fixpoint insert_desc (x : file) (l : list file) : list file :=
  match l with
  | [] => [x]
  | y :: l' =>
      if (mtime x <? mtime y)%Z then y :: insert_desc x l' else x :: y :: l'
  end.

Definition sort_desc (l : list file) : list file := fold_right insert_desc [] l.

Section WithFileSystem.
(** ToNumber on a String *)
Variable StringToNumber : jsstring -> number.
(** [fs.readdirSync(this.logsDir)] *)
Variable readdirSync : Error + list jsstring.
(** [fs.statSync(path.join(this.logsDir, file)).mtime] *)
Variable statSync : jsstring -> Error + Z.
(** [fs.unlinkSync(path.join(this.logsDir, file))] *)
Variable unlinkSync : jsstring -> Error + unit.
(** [Date.now()] *)
Variable now : Z.
Variable this : cleanup.

Definition ToNumber (v : jsval) : number :=
  match v with
  | JUndefined => NaN
  | JNull => Num 0
  | JBool b => if b then Num 1 else Num 0
  | JNumber n => n
  | JString s => StringToNumber s
  | JBigInt z => num_of_Z z
  end.

(** The [map] that attaches the stat to each name; it stops at the first
    [statSync] that throws. *)
Fixpoint stat_all (names : list jsstring) : Error + list file :=
  match names with
  | [] => inr []
  | name :: rest =>
      match statSync name with
      | inl e => inl e
      | inr t =>
          match stat_all rest with
          | inl e => inl e
          | inr files => inr ({| f_name := name; mtime := t |} :: files)
          end
      end
  end.

(** [this.maxAge * 24 * 60 * 60 * 1000]; the product of a BigInt and a
    Number throws a TypeError. *)
Definition maxAgeMs : Error + number :=
  match maxAge this with
  | JBigInt _ => inl (str "Cannot mix BigInt and other types, use explicit conversions")
  | v => inr (num_mul (ToNumber v) (Num 86400000))
  end.

(** [age > maxAgeMs] *)
Definition isOld (maxAgeMs : number) (f : file) : bool :=
  num_gt (num_of_Z (now - mtime f)) maxAgeMs.
(** [i >= this.maxFiles] *)
Definition isBeyondLimit (i : nat) : bool :=
  num_ge (num_of_Z (Z.of_nat i)) (ToNumber (maxFiles this)).

(** The [for] loop from index [i] on: the count of deletions or the error
    thrown, and the names unlinked so far. *)
Fixpoint sweep (maxAgeMs : number) (i : nat) (files : list file)
    (deletedCount : nat) (unlinked : list jsstring)
  : (Error + nat) * list jsstring :=
  match files with
  | [] => (inr deletedCount, unlinked)
  | f :: rest =>
      if isOld maxAgeMs f || isBeyondLimit i then
        if truthy (dryRun this) then
          sweep maxAgeMs (S i) rest (S deletedCount) unlinked
        else
          match unlinkSync (f_name f) with
          | inl e => (inl e, unlinked)
          | inr _ =>
              sweep maxAgeMs (S i) rest (S deletedCount) (unlinked ++ [f_name f])
          end
      else sweep maxAgeMs (S i) rest deletedCount unlinked
  end.

Record counts := { deleted : nat; kept : nat }.

(** [cleanupOCRResults()]: the counts returned or the error thrown (the
    [catch] handler throws the error it caught), and the names of the
    files unlinked. *)
Definition cleanupOCRResults : (Error + counts) * list jsstring :=
  match readdirSync with
  | inl e => (inl e, [])
  | inr names =>
      match stat_all (filter isOCRResult names) with
      | inl e => (inl e, [])
      | inr stats =>
          let files := sort_desc stats in
          match maxAgeMs with
          | inl e => (inl e, [])
          | inr ms =>
              match sweep ms 0 files 0 [] with
              | (inl e, unlinked) => (inl e, unlinked)
              | (inr deletedCount, unlinked) =>
                  (inr {| deleted := deletedCount;
                          kept := length files - deletedCount |}, unlinked)
              end
          end
      end
  end.

End WithFileSystem.

End OCRCleanup.

(* ===================================================================== *)
(** * pdf-parser.js: [runCleanupAsync]                                    *)
(* ===================================================================== *)

Module AutoCleanup.
Import JS Data OCRCleanup.

(** The lines [runCleanupAsync] itself writes to the log. *)
Inductive cleanup_log :=
| RunningAutoCleanup                         (* Running auto-cleanup for OCR files... *)
| AutoCleanupDeleted (deleted kept : nat)    (* Auto-cleanup: Deleted d old OCR files, kept k *)
| NothingToDelete                            (* Auto-cleanup: No old OCR files to delete *)
| AutoCleanupFailed (e : Error).             (* Auto-cleanup failed (non-critical): e *)

(** The callback [runCleanupAsync()] hands to [setImmediate]: its log and
    the names of the files unlinked.  Nothing is thrown. *)
Definition runCleanupAsync (StringToNumber : jsstring -> number)
    (readdirSync : Error + list jsstring) (statSync : jsstring -> Error + Z)
    (unlinkSync : jsstring -> Error + unit) (now : Z)
  : list cleanup_log * list jsstring :=
  let cleanup :=
    constructor {| opt_maxAge := JNumber (Num 7);
                   opt_maxFiles := JNumber (Num 50);
                   opt_dryRun := JBool false |} in
  match cleanupOCRResults StringToNumber readdirSync statSync unlinkSync now cleanup with
  | (inr results, unlinked) =>
      ([ RunningAutoCleanup;
         if 0 <? deleted results
         then AutoCleanupDeleted (deleted results) (kept results)
         else NothingToDelete ], unlinked)
  | (inl e, unlinked) => ([ RunningAutoCleanup; AutoCleanupFailed e ], unlinked)
  end.

End AutoCleanup.

(* ===================================================================== *)
(** * Notions used in the statements                                      *)
(* ===================================================================== *)

Import JS Data.

Unset Implicit Arguments.

(** ** Sample inputs *)

Definition nl : string := String (ascii_of_nat 10) EmptyString.

(** The two reference rows and the extracted item of the split-shipment
    scenario: same submission, same serial, quantities 2 and 3, against a
    document quantity of 4. *)
Definition row_a : ExcelItem :=
  {| rowNumber := 5; itemCode := str "AB12345"; itemName := str "FLASH";
     qty := Num 2; ajuNumber := str "000001"; seriBarang := 1;
     qtyToCheck := None; isDuplicate := None; duplicateCount := None |}.

Definition row_b : ExcelItem :=
  {| rowNumber := 6; itemCode := str "AB12345"; itemName := str "FLASH";
     qty := Num 3; ajuNumber := str "000001"; seriBarang := 1;
     qtyToCheck := None; isDuplicate := None; duplicateCount := None |}.

Definition doc_item : BCItem :=
  {| seri := 1; kodeBrg := str "AB12345"; uraian := str "FLASH";
     bc_qty := Num 4; satuan := str "PCE" |}.

Definition doc_parser : PDFParser.parser :=
  {| PDFParser.pdfPath := str "bc.pdf"; PDFParser.fullText := [];
     PDFParser.items := [doc_item]; PDFParser.isScanned := false |}.

(** [new Validator({ nameSimilarityThreshold: 0 })] *)
Definition options_threshold_zero : Validator.ctor_options :=
  {| Validator.opt_nameSimilarityThreshold := JNumber (Num 0);
     Validator.opt_allowMultiItemSameSeri := JUndefined;
     Validator.opt_strictMode := JUndefined |}.

(** The sample block of the comment above [parseOCRItemText], and two
    blocks carrying the other two quantity formats. *)
Definition block_piece : jsstring :=
  str ("1 8479.903000 Tidak Japan (JP) BM: 5% DTG:100% 1.0000 Piece (PCE) 24.17"
       ++ nl ++ "COMPACT FLASH (BUFFALO RC Berhub. Cukai:- 0.0200 Kg" ++ nl).

Definition block_set : jsstring :=
  str ("2 8479903000 Tidak Japan (JP) BM: 5% DTG:100% 3.150,0000 Set (SET) 9.10" ++ nl).

Definition block_kg : jsstring :=
  str ("3 8479.90.3000 Tidak Japan (JP) BM: 5% DTG:100% 470,0000 Kg (KGM) 1.00" ++ nl).

(** A recognised table (no marker of strategy 1) and a digital document. *)
Definition ocr_document : PDFParser.parser :=
  {| PDFParser.pdfPath := str "scan.pdf";
     PDFParser.fullText :=
       str ("| 1 [8479.903000 Tidak Japan (JP) BM: 5% DTG:100% 1.0000 Piece (PCE) 24.17"
            ++ nl ++ "COMPACT FLASH (BUFFALO RC Berhub. Cukai:- 0.0200 Kg"
            ++ nl ++ "2 8479903000 Tidak Japan (JP) WIDGET THING BM: 5% 3.150,0000 Set (SET) 1");
     PDFParser.items := []; PDFParser.isScanned := true |}.

Definition digital_document : PDFParser.parser :=
  {| PDFParser.pdfPath := str "bc.pdf";
     PDFParser.fullText :=
       str ("1 Pos Tarif/HS : 8479.90" ++ nl ++ "Kode Brg : AB12345 COMPACT FLASH"
            ++ nl ++ " CARD Kemasan: 1 CT" ++ nl ++ "- 3.150,0000" ++ nl ++ "- PCE"
            ++ nl ++ "2 Pos Tarif/HS foo Kode Brg: CD67890 THING Merk: x Jumlah: 470,0000 KG");
     PDFParser.items := []; PDFParser.isScanned := false |}.

(** A text with neither a table keyword nor an item-like line. *)
Definition blank_document : PDFParser.parser :=
  {| PDFParser.pdfPath := str "memo.pdf"; PDFParser.fullText := str "hello world";
     PDFParser.items := []; PDFParser.isScanned := false |}.

(** A run on four pages whose images are numbered 1 to 4: enhancement
    throws on image 3, recognition throws on image 2, and the engine
    otherwise returns three words, one of them below the confidence
    threshold. *)
Definition demo_pages : list (PDFParser.png_page nat) :=
  map (fun n => {| PDFParser.name := str "page.png"; PDFParser.content := n |})
      [1; 2; 3; 4].

Definition demo_data (n : nat) : PDFParser.ocr_data :=
  {| PDFParser.d_text := str "Pos Tarif/HS";
     PDFParser.d_words :=
       Some [ {| PDFParser.w_text := str "Pos"; PDFParser.w_confidence := Num 91 |};
              {| PDFParser.w_text := str "??"; PDFParser.w_confidence := Num 12 |};
              {| PDFParser.w_text := Validator.int_to_jsstring (Z.of_nat n);
                 PDFParser.w_confidence := Num 30 |} ];
     PDFParser.d_confidence := Num 80 |}.

Definition demo_env : PDFParser.collaborators nat :=
  {| PDFParser.sharp_enhance := fun img =>
       if Nat.eqb img 3 then inl (str "unsupported image format") else inr (img + 100);
     PDFParser.ensure_tessdata := fun _ => inr tt;
     PDFParser.recognize := fun _ img =>
       if Nat.eqb img 102 then inl (str "recognition failed") else inr (demo_data img);
     PDFParser.ensure_tempFolder := inr tt;
     PDFParser.pdfToPng := fun _ => inr demo_pages;
     PDFParser.remove_tempFolder := inr tt;
     PDFParser.save_result := fun _ => inr tt |}.

Definition demo_scanned : PDFParser.parser :=
  {| PDFParser.pdfPath := str "scan.pdf"; PDFParser.fullText := [];
     PDFParser.items := []; PDFParser.isScanned := true |}.

(** ** Reading results *)

Definition qty_of (o : option BCItem) : option number := option_map bc_qty o.

(** The tariff code captured by the item-line pattern on a line. *)
Definition capturedHsCode (line : jsstring) : option jsstring :=
  option_map (group 2) (exec noflags PDFParser.itemLinePattern (trim line)).

Definition isBracket (c : codeunit) : bool := oneOf "[]" c.

(** The text without its square brackets. *)
Definition stripBrackets (s : jsstring) : jsstring :=
  filter (fun c => negb (isBracket c)) s.

(** The matches of the strategy-1 marker in the text of the parser. *)
Definition posTarifMatches (p : PDFParser.parser) : list match_result :=
  matchAll noflags PDFParser.posTarifPattern (PDFParser.fullText p).

(** What strategy 2 extracts from the text of the parser. *)
Definition ocrTableItems (p : PDFParser.parser) : list BCItem :=
  PDFParser.scanLines (split_lf (PDFParser.fullText p)) [].

Definition result_of
    (x : (PDFParser.Error + list BCItem) * PDFParser.parser * list PDFParser.log_line)
  : PDFParser.Error + list BCItem := fst (fst x).

Definition log_of
    (x : (PDFParser.Error + list BCItem) * PDFParser.parser * list PDFParser.log_line)
  : list PDFParser.log_line := snd x.

(** The text of a document from the fragments of its pages, in page order:
    the fragments of each batch of three joined by a blank line, the
    batches put end to end. *)
Fixpoint chunks (fuel : nat) (l : list jsstring) : list (list jsstring) :=
  match fuel, l with
  | S fuel', _ :: _ => firstn 3 l :: chunks fuel' (skipn 3 l)
  | _, _ => []
  end.

Definition assemble (fragments : list jsstring) : jsstring :=
  concat (map (join [LF; LF]) (chunks (length fragments) fragments)).

(** The fragments of all pages, page [k] (from 0) numbered [k + 1]. *)
Definition fragments (image : Type) (env : PDFParser.collaborators image)
    (pages : list (PDFParser.png_page image)) : list jsstring :=
  PDFParser.processBatch env 0 pages.

(** ** Runs of units and white space *)

(** Length of the longest prefix of [s] made of units in [q]. *)
Definition runlen (q : codeunit -> bool) (s : jsstring) : nat :=
  length (fst (span q s)).

(** A pattern that consumes exactly one unit of [q]. *)
Definition one_unit (q : codeunit -> bool) (r : regex) : Prop :=
  forall (R : Type) (total : nat) (s : jsstring) (caps : captures)
         (d : jsstring -> captures -> option R),
    m noflags total r s caps d =
    match s with
    | x :: s' => if q x then d s' caps else None
    | [] => None
    end.

(** [s.replace(/r{lo,}/g, rep)] for such a pattern, written directly: a run
    of [lo] units or more is replaced as a whole, any other unit is
    copied. *)
Fixpoint replaceRuns (q : codeunit -> bool) (lo : nat) (rep : jsstring)
    (fuel : nat) (rest : jsstring) : jsstring :=
  match fuel with
  | O => []
  | S fuel' =>
      match rest with
      | [] => []
      | c :: t =>
          if lo <=? runlen q rest
          then rep ++ replaceRuns q lo rep fuel' (dropWhile q rest)
          else c :: replaceRuns q lo rep fuel' t
      end
  end.

(** The text does not start, resp. end, with white space. *)
Definition headOK (s : jsstring) : Prop :=
  match s with
  | c :: _ => isWhiteSpace c = false
  | [] => True
  end.

Definition lastOK (s : jsstring) : Prop := headOK (rev s).

(** No two white-space units in a row. *)
Fixpoint NoAdj (s : jsstring) : Prop :=
  match s with
  | [] => True
  | a :: t => (isWhiteSpace a = true -> headOK t) /\ NoAdj t
  end.

(** A line: no line feed in it. *)
Definition lfFree (l : jsstring) : Prop := Forall (fun c => cu_eqb c LF = false) l.

(** ** Occurrences of a phrase *)

(** [key] is a prefix of [s], letters compared without case. *)
Fixpoint prefixCI (key s : jsstring) : bool :=
  match key, s with
  | [], _ => true
  | c :: key', x :: s' => cu_eqb (upperASCII c) (upperASCII x) && prefixCI key' s'
  | _ :: _, [] => false
  end.

(** [key] occurs somewhere in [s], letters compared without case. *)
Fixpoint containsCI (key s : jsstring) : bool :=
  prefixCI key s ||
  match s with
  | [] => false
  | _ :: s' => containsCI key s'
  end.

(** No key of the phrase table occurs in the text. *)
Definition phraseFree (s : jsstring) : bool :=
  forallb (fun wc => negb (containsCI (fst wc) s)) PDFParser.phraseReplacements.

(** ** Groups of reference rows *)

(** Same submission number and same serial. *)
Definition same_group (a b : ExcelItem) : bool :=
  jsstring_eqb (ajuNumber a) (ajuNumber b) && Z.eqb (seriBarang a) (seriBarang b).

(** The rows grouped with [x], in the order of the sheet. *)
Definition group_of (x : ExcelItem) (items : list ExcelItem) : list ExcelItem :=
  filter (same_group x) items.

(** The rows that open a group: no row before them belongs to it. *)
Fixpoint leaders_from (before items : list ExcelItem) : list ExcelItem :=
  match items with
  | [] => []
  | x :: rest =>
      (if existsb (same_group x) before then [] else [x])
      ++ leaders_from (before ++ [x]) rest
  end.

Definition leaders (items : list ExcelItem) : list ExcelItem := leaders_from [] items.

(** The quantities of a group added up from 0, in the order of the group. *)
Definition sum_qty (group : list ExcelItem) : number :=
  fold_left (fun sum item => num_add sum (qty item)) group (Num 0).

(** A row with the annotations of its group among [items]: its own
    quantity when it is alone, the total and the size of the group
    otherwise. *)
Definition annotated (items : list ExcelItem) (x : ExcelItem) : ExcelItem :=
  let g := group_of x items in
  if length g =? 1 then Validator.annotate x (qty x) false None
  else Validator.annotate x (sum_qty g) true (Some (length g)).

(** A runtime for the examples: ASCII upper-casing, a similarity that is
    0 on different strings, [parseFloat] for the conversion of strings. *)
Definition sample_runtime : Validator.runtime :=
  {| Validator.toUpperCase := map upperASCII;
     Validator.compareTwoStrings := fun _ _ => Num 0;
     Validator.StringToNumber := parseFloat |}.

(** A third reference row, alone in its group. *)
Definition row_c : ExcelItem :=
  {| rowNumber := 7; itemCode := str "CD67890"; itemName := str "CABLE";
     qty := Num 1; ajuNumber := str "000001"; seriBarang := 2;
     qtyToCheck := None; isDuplicate := None; duplicateCount := None |}.

(** The groups in the order of their first rows, each under its key. *)
Definition groups_spec (items : list ExcelItem) : Validator.groups_t :=
  map (fun l => (Validator.group_key l, group_of l items)) (leaders items).

(** No two rows of the list belong to the same group. *)
Definition distinct_groups (ls : list ExcelItem) : Prop :=
  ForallOrdPairs (fun a b => same_group a b = false) ls.

(** ** Reading numbers *)

(** The rational a Number stands for (0 for NaN). *)
Definition num_value (n : number) : Q :=
  match n with
  | Num q => q
  | NaN => 0%Q
  end.

(** ** Line feeds in pairs *)

(** [s.replace(new RegExp(key, 'gi'), rep)] written directly: at each
    position where the key stands, letters compared without case, the
    replacement is put and the scan goes on after the occurrence. *)
Fixpoint replaceCI (key rep : jsstring) (fuel : nat) (rest : jsstring) : jsstring :=
  match fuel with
  | O => []
  | S fuel' =>
      match rest with
      | [] => []
      | c :: t =>
          if prefixCI key rest
          then rep ++ replaceCI key rep fuel' (skipn (length key) rest)
          else c :: replaceCI key rep fuel' t
      end
  end.

Definition startsWithLF (s : jsstring) : Prop :=
  match s with
  | x :: _ => cu_eqb x LF = true
  | [] => False
  end.

(** Every line feed of the text stands next to another line feed; [prev]
    tells whether the unit before the text is one. *)
Fixpoint pairedLF (prev : bool) (s : jsstring) : Prop :=
  match s with
  | [] => True
  | c :: t =>
      (cu_eqb c LF = true -> prev = true \/ startsWithLF t) /\
      pairedLF (cu_eqb c LF) t
  end.

(** A key of the phrase table can stand in a line: it is not empty and
    none of its units matches a line feed. *)
Definition lineKey (key : jsstring) : bool :=
  match key with
  | [] => false
  | _ :: _ => forallb (fun c => negb (cu_eqb (upperASCII c) LF)) key
  end.

(** ** Recognised words *)

(** What the engine returns for a page holds no line feed: none of the
    words when there are words, the text otherwise. *)
Definition onOneLine (data : PDFParser.ocr_data) : Prop :=
  match PDFParser.d_words data with
  | Some words => Forall (fun w => lfFree (PDFParser.w_text w)) words
  | None => lfFree (PDFParser.d_text data)
  end.

(** ** Files by age *)

(** Newest first. *)
Definition newest_first (files : list OCRCleanup.file) : Prop :=
  StronglySorted (fun a b => (OCRCleanup.mtime b <= OCRCleanup.mtime a)%Z) files.

(** ** What a pattern can match *)

Section Matches.
Variable fl : flags.
(** Length of the whole input. *)
Variable total : nat.

(** [matches r s caps s' caps']: the pattern can consume the front of [s]
    and leave [s'], turning the captures [caps] into [caps'].  Every
    result of the matcher is one of these (but not conversely: the matcher
    returns the first one in its order of preference). *)
Inductive matches : regex -> jsstring -> captures -> jsstring -> captures -> Prop :=
| M_Eps s c : matches Eps s c s c
| M_Lit a x s c : lit_matches fl a x = true -> matches (Lit a) (x :: s) c s c
| M_Cls p x s c : cls_matches fl p x = true -> matches (Cls p) (x :: s) c s c
| M_Dot x s c :
    dotAll fl || negb (isLineTerminator x) = true -> matches Dot (x :: s) c s c
| M_Seq r1 r2 s c s1 c1 s2 c2 :
    matches r1 s c s1 c1 -> matches r2 s1 c1 s2 c2 -> matches (Seq r1 r2) s c s2 c2
| M_AltL r1 r2 s c s1 c1 : matches r1 s c s1 c1 -> matches (Alt r1 r2) s c s1 c1
| M_AltR r1 r2 s c s1 c1 : matches r2 s c s1 c1 -> matches (Alt r1 r2) s c s1 c1
| M_RepStop r lo hi g s c : lo = 0 \/ hi = Some 0 -> matches (Rep r lo hi g) s c s c
| M_RepStep r lo hi g s c s1 c1 s2 c2 :
    hi <> Some 0 ->
    matches r s c s1 c1 ->
    matches (Rep r (Nat.pred lo) (option_map Nat.pred hi) g) s1 c1 s2 c2 ->
    matches (Rep r lo hi g) s c s2 c2
| M_Grp i r s c s1 c1 :
    matches r s c s1 c1 ->
    matches (Grp i r) s c s1 ((i, firstn (length s - length s1) s) :: c1)
| M_Bol s c : length s = total -> matches Bol s c s c
| M_Eol c : matches Eol [] c [] c
| M_Ahead r s c s1 c1 : matches r s c s1 c1 -> matches (Ahead r) s c s c1.
End Matches.

(** The pattern holds no capture group. *)
Fixpoint nogroup (r : regex) : bool :=
  match r with
  | Eps | Lit _ | Cls _ | Dot | Bol | Eol => true
  | Seq r1 r2 | Alt r1 r2 => nogroup r1 && nogroup r2
  | Rep r' _ _ _ | Ahead r' => nogroup r'
  | Grp _ _ => false
  end.

(** The bounds of a repetition are in order. *)
Definition bounds_ok (lo : nat) (hi : option nat) : Prop :=
  match hi with
  | Some h => lo <= h
  | None => True
  end.

(** ASCII letters, and the class [[\d.,]] of the quantity patterns. *)
Definition isLetter (c : codeunit) : bool := isUpper c || isLower c.
Definition isNumChar (c : codeunit) : bool := isDigit c || oneOf ".," c.

(** The pattern [/^(\d{4})\.(\d{2})\.(\d{4})$/] of the tariff-code step. *)
Definition hsTwoDots : regex :=
  seq [ Bol; Grp 1 (times 4 4 PDFParser.digit); Lit (chr ".");
        Grp 2 (times 2 2 PDFParser.digit); Lit (chr ".");
        Grp 3 (times 4 4 PDFParser.digit); Eol ].

(** A unit that some part of the pattern can consume. *)
Fixpoint accepts (fl : flags) (r : regex) (x : codeunit) : bool :=
  match r with
  | Lit a => lit_matches fl a x
  | Cls p => cls_matches fl p x
  | Dot => dotAll fl || negb (isLineTerminator x)
  | Seq r1 r2 | Alt r1 r2 => accepts fl r1 x || accepts fl r2 x
  | Rep r' _ _ _ | Grp _ r' => accepts fl r' x
  | Eps | Bol | Eol | Ahead _ => false
  end.

(** ** Well-formed items *)

(** What every extracted item satisfies: the serial is not negative, the
    unit is not empty and made of word characters, the quantity is NaN or
    not negative. *)
Definition item_ok (item : BCItem) : Prop :=
  (0 <= seri item)%Z /\
  satuan item <> [] /\ Forall (fun x => isWord x = true) (satuan item) /\
  (bc_qty item = NaN \/ exists q, bc_qty item = Num q /\ (0 <= q)%Q).

(** What the items of strategy 2 satisfy besides: the code is made of
    digits, dots and commas, the unit of letters, and the quantity is a
    number. *)
Definition ocr_item_ok (item : BCItem) : Prop :=
  Forall (fun x => isNumChar x = true) (kodeBrg item) /\
  Forall (fun x => isLetter x = true) (satuan item) /\
  exists q, bc_qty item = Num q /\ (0 <= q)%Q.

(** What the items of strategy 1 satisfy besides: the code is not empty
    and made of word characters. *)
Definition digital_item_ok (item : BCItem) : Prop :=
  kodeBrg item <> [] /\ Forall (fun x => isWord x = true) (kodeBrg item).

(** ** Sample documents and directories *)

(** A text in the table layout: a heading, an item line with its
    description, and an item line with a bracket and two dots. *)
Definition sample_table : PDFParser.parser :=
  {| PDFParser.pdfPath := str "bc23.pdf";
     PDFParser.fullText :=
       str "BC 2.3" ++ [LF] ++ str "1 8479903000 5,0000 Piece (PCE)" ++ [LF]
       ++ str "MESIN CONTOH" ++ [LF] ++ str "2 [8479.90.3000 1.250 Set (SET)";
     PDFParser.items := []; PDFParser.isScanned := false |}.

(** The two items of [sample_table]. *)
Definition sample_item : BCItem :=
  {| seri := 1; kodeBrg := str "8479.903000"; uraian := str "MESIN CONTOH";
     bc_qty := Num 5; satuan := str "PCE" |}.

Definition sample_item2 : BCItem :=
  {| seri := 2; kodeBrg := str "8479.903000"; uraian := [];
     bc_qty := Num 1250; satuan := str "SET" |}.

(** The words of a page that shows a heading and two item lines. *)
Definition plain_data : PDFParser.ocr_data :=
  {| PDFParser.d_text := [];
     PDFParser.d_words :=
       Some (map (fun w => {| PDFParser.w_text := w; PDFParser.w_confidence := Num 90 |})
               [ str "BC"; str "2.3";
                 str "1"; str "8479903000"; str "5,0000"; str "Piece"; str "(PCE)";
                 str "2"; str "8479903000"; str "7,0000"; str "Piece"; str "(PCE)" ]);
     PDFParser.d_confidence := Num 90 |}.

(** A run on one page in which every collaborator succeeds. *)
Definition plain_env : PDFParser.collaborators nat :=
  {| PDFParser.sharp_enhance := fun img => inr img;
     PDFParser.ensure_tessdata := fun _ => inr tt;
     PDFParser.recognize := fun _ _ => inr plain_data;
     PDFParser.ensure_tempFolder := inr tt;
     PDFParser.pdfToPng := fun _ =>
       inr [ {| PDFParser.name := str "page.png"; PDFParser.content := 1%nat |} ];
     PDFParser.remove_tempFolder := inr tt;
     PDFParser.save_result := fun _ => inr tt |}.

(** A directory with two result files, the first one written at time 0,
    the other one at time 600000000 (in milliseconds). *)
Definition sample_names : list jsstring :=
  [ str "ocr-result-1.txt"; str "notes.txt"; str "ocr-result-2.txt" ].

Definition sample_statSync (name : jsstring) : OCRCleanup.Error + Z :=
  inr (if jsstring_eqb name (str "ocr-result-1.txt") then 0 else 600000000)%Z.

Definition sample_stats : list OCRCleanup.file :=
  [ {| OCRCleanup.f_name := str "ocr-result-1.txt"; OCRCleanup.mtime := 0 |};
    {| OCRCleanup.f_name := str "ocr-result-2.txt"; OCRCleanup.mtime := 600000000 |} ].

(* ===================================================================== *)
(** * Properties                                                          *)
(* ===================================================================== *)

(** ** Reconciliation *)

Section ValidatorFacts.
Import Validator.
Variable rt : runtime.
Variable opts : options.

Lemma validateQty_status_cases (a b : number) :
  qv_status (validateQty a b) = ERROR \/
  qv_status (validateQty a b) = OK \/
  qv_status (validateQty a b) = OVER_LIMIT.
Proof.
  unfold validateQty.
  destruct (isNaN (parseFloatNum a) || isNaN (parseFloatNum b)); [now left|].
  destruct (num_le (parseFloatNum a) (parseFloatNum b)); auto.
Qed.

Lemma validateItemCode_status_cases (a b : jsstring) :
  cv_status (validateItemCode rt opts a b) = OK \/
  cv_status (validateItemCode rt opts a b) = NOT_MATCH.
Proof.
  unfold validateItemCode.
  destruct (jsstring_eqb _ _); [now left|].
  destruct (ge_value _ _ _); auto.
Qed.

(** The field [qtyToCheck] written by [processDuplicateSeri] is read by
    nothing in [validateItem]: the verdict of a row is the same whatever
    it holds. *)
Lemma validateItem_ignores_qtyToCheck (item : ExcelItem) (q : number)
    (dup : bool) (n : option nat) (bcItem : option BCItem) :
  validateItem rt opts (annotate item q dup n) bcItem =
  validateItem rt opts item bcItem.
Proof. destruct bcItem; reflexivity. Qed.

(** For a matched row the quantity compared is the row's own [qty]. *)
Lemma validateItem_qty_status (item : ExcelItem) (bc : BCItem) :
  v_qty (validation (validateItem rt opts item (Some bc))) =
  Some (qv_status (validateQty (qty item) (bc_qty bc))).
Proof. reflexivity. Qed.

(** With the threshold at the Number zero every pair of codes would be
    accepted, given that the similarity is a Number that is not negative
    (a Dice coefficient lies between 0 and 1). *)
Lemma zero_threshold_accepts_all (a b : jsstring) :
  nameSimilarityThreshold opts = JNumber (Num 0) ->
  (forall x y, exists q, compareTwoStrings rt x y = Num q /\ (0 <= q)%Q) ->
  cv_status (validateItemCode rt opts a b) = OK.
Proof.
  intros Ht Hsim. unfold validateItemCode.
  destruct (jsstring_eqb _ _); [reflexivity|].
  destruct (Hsim (toUpperCase rt (trim a)) (toUpperCase rt (trim b))) as [q [Hq Hle]].
  unfold ge_value. rewrite Ht, Hq. simpl.
  apply Qle_bool_iff in Hle. rewrite Hle. reflexivity.
Qed.

(** The threshold is compared after conversion to a Number: a value that
    is kept by the constructor and converts to zero, such as the string
    "0", accepts every pair as well. *)
Remark converted_zero_threshold_accepts_all (v : jsval) (a b : jsstring) :
  nameSimilarityThreshold opts = v ->
  ToNumber rt v = Num 0 ->
  (forall x y, exists q, compareTwoStrings rt x y = Num q /\ (0 <= q)%Q) ->
  cv_status (validateItemCode rt opts a b) = OK.
Proof.
  intros Ht Hv Hsim. unfold validateItemCode.
  destruct (jsstring_eqb _ _); [reflexivity|].
  destruct (Hsim (toUpperCase rt (trim a)) (toUpperCase rt (trim b))) as [q [Hq Hle]].
  unfold ge_value. rewrite Ht, Hv, Hq. simpl.
  apply Qle_bool_iff in Hle. rewrite Hle. reflexivity.
Qed.
End ValidatorFacts.

(** C1 (the code departs from the claim).  On two rows of one
    (submission, serial) group with quantities 2 and 3 and a document item
    of quantity 4, [processDuplicateSeri] does annotate both rows with the
    total 5, the flag and the group size 2, but [validateBatch] then
    compares each row's own quantity: both rows come out with quantity
    status OK and overall status OK, not OVER LIMIT. *)
Theorem C1_split_shipment_rows_pass (rt : Validator.runtime) :
  let this := Validator.constructor Validator.no_options in
  let processed := Validator.processDuplicateSeri this [row_a; row_b] in
  let results :=
    fst (Validator.validateBatch rt this processed (PDFParser.findBySeri doc_parser)) in
  map qtyToCheck processed = [Some (Num 5); Some (Num 5)] /\
  map isDuplicate processed = [Some true; Some true] /\
  map duplicateCount processed = [Some 2; Some 2] /\
  map (fun r => v_qty (validation r)) results = [Some OK; Some OK].
Proof. repeat split; reflexivity. Qed.

(** C7.  For a matched row the result carries both field statuses and an
    overall status, and the overall status is OK exactly when both field
    statuses are OK, ERROR as soon as one of them is ERROR, and WARNING in
    every remaining case. *)
Theorem C7_overall_from_field_statuses (rt : Validator.runtime)
    (opts : Validator.options) (excelItem : ExcelItem) (bc : BCItem) :
  exists ic q o,
    v_itemCode (validation (Validator.validateItem rt opts excelItem (Some bc))) = Some ic /\
    v_qty (validation (Validator.validateItem rt opts excelItem (Some bc))) = Some q /\
    v_overall (validation (Validator.validateItem rt opts excelItem (Some bc))) = Some o /\
    (o = OK <-> ic = OK /\ q = OK) /\
    (ic = ERROR \/ q = ERROR -> o = ERROR) /\
    (~ (ic = OK /\ q = OK) -> ~ (ic = ERROR \/ q = ERROR) -> o = WARNING).
Proof.
  eexists _, _, _. split; [reflexivity|]. split; [reflexivity|]. split; [reflexivity|].
  generalize (Validator.cv_status
                (Validator.validateItemCode rt opts (itemCode excelItem) (kodeBrg bc))).
  generalize (Validator.qv_status (Validator.validateQty (qty excelItem) (bc_qty bc))).
  intros q ic.
  destruct ic, q; cbn; repeat split; intros; try tauto; try discriminate;
    try (exfalso; intuition discriminate).
Qed.

(** C9.  A falsy [options.nameSimilarityThreshold] (0 included) gives an
    instance whose threshold is the default 0.75; and no argument of the
    constructor gives an instance whose threshold is the Number zero. *)
Theorem C9_falsy_threshold_defaults (o : Validator.ctor_options)
    (Hfalsy : truthy (Validator.opt_nameSimilarityThreshold o) = false) :
  Validator.nameSimilarityThreshold (Validator.constructor o) = JNumber (Num (3 # 4)) /\
  forall o' q,
    Validator.nameSimilarityThreshold (Validator.constructor o') = JNumber (Num q) ->
    ~ (q == 0)%Q.
Proof.
  split.
  - unfold Validator.constructor, js_or. cbn. rewrite Hfalsy. reflexivity.
  - intros o' q. unfold Validator.constructor, js_or. cbn.
    destruct (truthy (Validator.opt_nameSimilarityThreshold o')) eqn:Ht.
    + intros E. rewrite E in Ht. cbn in Ht. intros Hq.
      apply Qeq_bool_iff in Hq. rewrite Hq in Ht. discriminate.
    + intros E. injection E as <-. intros Hq. discriminate.
Qed.

Lemma C9_witness_threshold_zero :
  Validator.nameSimilarityThreshold (Validator.constructor options_threshold_zero)
  = JNumber (Num (3 # 4)).
Proof. exact (proj1 (C9_falsy_threshold_defaults options_threshold_zero eq_refl)). Defined.

(** The values that are replaced by the default. *)
Example falsy_thresholds :
  map truthy [ JUndefined; JNull; JBool false; JNumber (Num 0); JNumber NaN;
               JString []; JBigInt 0 ] = repeat false 7 /\
  map truthy [ JNumber (Num (1 # 2)); JString (str "0"); JBool true ] = repeat true 3.
Proof. split; reflexivity. Qed.

(** ** The matcher on single-unit patterns *)

Lemma cls_one_unit (p : codeunit -> bool) : one_unit p (Cls p).
Proof. intros R total s caps d. reflexivity. Qed.

Lemma lit_one_unit (c : codeunit) : one_unit (cu_eqb c) (Lit c).
Proof. intros R total s caps d. reflexivity. Qed.

Section RunFacts.
Variable q : codeunit -> bool.

Lemma span_dropWhile (s : jsstring) : snd (span q s) = dropWhile q s.
Proof.
  induction s as [|c s IH]; simpl; auto.
  destruct (q c); simpl; auto. destruct (span q s); simpl in *; auto.
Qed.

Lemma runlen_cons (c : codeunit) (s : jsstring) :
  runlen q (c :: s) = if q c then S (runlen q s) else 0.
Proof.
  unfold runlen. simpl. destruct (q c); simpl; auto.
  destruct (span q s); reflexivity.
Qed.

Lemma runlen_nil : runlen q [] = 0.
Proof. reflexivity. Qed.

Lemma dropWhile_length (s : jsstring) :
  length (dropWhile q s) + runlen q s = length s.
Proof.
  induction s as [|c s IH]; auto.
  rewrite runlen_cons. simpl. destruct (q c); simpl; lia.
Qed.

Lemma skipn_runlen (s : jsstring) : skipn (runlen q s) s = dropWhile q s.
Proof.
  induction s as [|c s IH]; auto.
  rewrite runlen_cons. simpl. destruct (q c); simpl; auto.
Qed.

Variable r : regex.
Hypothesis r_one_unit : one_unit q r.

(** The greedy loop [r{lo,}] in front of a continuation that accepts
    everything: it takes the whole run, provided the run has [lo] units. *)
Lemma rep_loop_run (R : Type) (total : nat) (k : jsstring -> captures -> option R)
    (f : jsstring -> captures -> R) :
  (forall s c, k s c = Some (f s c)) ->
  forall (s : jsstring) (fuel lo : nat) (caps : captures),
    length s < fuel ->
    rep_loop (m noflags total (R:=R) r) true k fuel lo None s caps =
    if lo <=? runlen q s then Some (f (dropWhile q s) caps) else None.
Proof.
  intros Hk. induction s as [|x s IH]; intros fuel lo caps Hfuel.
  - destruct fuel as [|fuel]; [simpl in Hfuel; lia|].
    cbn [rep_loop]. rewrite !r_one_unit. rewrite runlen_nil.
    destruct lo; cbn; auto.
  - destruct fuel as [|fuel]; [simpl in Hfuel; lia|].
    cbn [rep_loop]. rewrite !r_one_unit. rewrite runlen_cons.
    simpl in Hfuel.
    destruct (q x) eqn:Hq.
    + destruct lo as [|lo].
      * cbn [Nat.eqb negb andb].
        replace (Nat.eqb (length s) (length (x :: s))) with false
          by (symmetry; apply Nat.eqb_neq; simpl; lia).
        cbn [Nat.pred option_map]. rewrite IH by lia.
        cbn [Nat.leb dropWhile]. rewrite Hq. reflexivity.
      * cbn [Nat.eqb negb andb Nat.pred option_map]. rewrite IH by lia.
        cbn [Nat.leb dropWhile]. rewrite Hq. reflexivity.
    + destruct lo as [|lo]; cbn [Nat.eqb negb Nat.leb dropWhile]; rewrite ?Hq, ?Hk; auto.
Qed.

Lemma match_here_run (total i lo : nat) (rest : jsstring) :
  match_here noflags (Rep r lo None true) total i rest =
  if lo <=? runlen q rest
  then Some {| index := i;
               matched := firstn (length rest - length (dropWhile q rest)) rest;
               groups := [] |}
  else None.
Proof.
  unfold match_here. cbn [m].
  rewrite rep_loop_run with
    (f := fun s' caps => {| index := i;
                            matched := firstn (length rest - length s') rest;
                            groups := caps |}); auto.
  lia.
Qed.

Lemma scan_g_run (lo : nat) (rep : jsstring) (total : nat) :
  1 <= lo ->
  forall (fuel i : nat) (rest : jsstring),
    length rest < fuel ->
    concat (scan_g noflags (Rep r lo None true) total
                   (fun _ => rep) (fun c => [c]) fuel i rest)
    = replaceRuns q lo rep fuel rest.
Proof.
  intros Hlo. induction fuel as [|fuel IH]; intros i rest Hfuel; [lia|].
  cbn [scan_g replaceRuns]. rewrite match_here_run.
  destruct rest as [|c t].
  - rewrite runlen_nil. destruct lo; [lia|]. reflexivity.
  - destruct (lo <=? runlen q (c :: t)) eqn:Hrun.
    + cbn [matched].
      assert (Hlen : length (firstn (length (c :: t) - length (dropWhile q (c :: t)))
                                    (c :: t)) = runlen q (c :: t)).
      { rewrite length_firstn. pose proof (dropWhile_length (c :: t)). lia. }
      rewrite Hlen. apply Nat.leb_le in Hrun.
      destruct (runlen q (c :: t)) as [|n] eqn:Hn; [lia|].
      cbn [concat]. f_equal. rewrite <- Hn, skipn_runlen.
      apply IH. pose proof (dropWhile_length (c :: t)). simpl in *. lia.
    + cbn [concat app]. f_equal. apply IH. simpl in Hfuel. lia.
Qed.

(** [s.replace(/r{lo,}/g, rep)] replaces the runs of [lo] units or more. *)
Lemma replaceAll_g_run (lo : nat) (rep s : jsstring) :
  1 <= lo ->
  replaceAll_g noflags (Rep r lo None true) (fun _ => rep) s
  = replaceRuns q lo rep (S (length s)) s.
Proof. intros Hlo. unfold replaceAll_g. apply scan_g_run; auto. Qed.

(** More fuel than the length of the text changes nothing. *)
Lemma replaceRuns_fuel (lo : nat) (rep : jsstring) :
  1 <= lo ->
  forall (fuel fuel' : nat) (s : jsstring),
    length s < fuel -> length s < fuel' ->
    replaceRuns q lo rep fuel s = replaceRuns q lo rep fuel' s.
Proof.
  intros Hlo. induction fuel as [|fuel IH]; intros fuel' s H H'; [lia|].
  destruct fuel' as [|fuel']; [lia|].
  destruct s as [|c t]; [reflexivity|].
  cbn [replaceRuns]. pose proof (dropWhile_length (c :: t)) as HL.
  cbn [length] in H, H', HL.
  destruct (lo <=? runlen q (c :: t)) eqn:Hrun; f_equal; apply IH; try lia.
  - apply Nat.leb_le in Hrun. lia.
  - apply Nat.leb_le in Hrun. lia.
Qed.

Lemma match_here_unit (total i : nat) (rest : jsstring) :
  match_here noflags r total i rest =
  match rest with
  | c :: t =>
      if q c then Some {| index := i; matched := firstn (length rest - length t) rest;
                          groups := [] |}
      else None
  | [] => None
  end.
Proof.
  unfold match_here. rewrite r_one_unit. destruct rest as [|c t]; reflexivity.
Qed.

Lemma scan_g_delete (total : nat) : forall (fuel i : nat) (rest : jsstring),
  length rest < fuel ->
  concat (scan_g noflags r total (fun _ => []) (fun c => [c]) fuel i rest)
  = filter (fun c => negb (q c)) rest.
Proof.
  induction fuel as [|fuel IH]; intros i rest Hfuel; [lia|].
  cbn [scan_g]. rewrite match_here_unit.
  destruct rest as [|c t]; [reflexivity|].
  cbn [length] in Hfuel. cbn [filter].
  destruct (q c) eqn:Hq; cbn [negb matched].
  - replace (length (c :: t) - length t) with 1 by (cbn [length]; lia).
    cbn [firstn length skipn concat app]. apply IH. lia.
  - cbn [concat app]. f_equal. apply IH. lia.
Qed.

(** [s.replace(/r/g, '')] deletes the units of the class. *)
Lemma replaceAll_g_delete (s : jsstring) :
  replaceAll_g noflags r (fun _ => []) s = filter (fun c => negb (q c)) s.
Proof. unfold replaceAll_g. apply scan_g_delete. lia. Qed.

End RunFacts.

(** ** Item extraction *)

Section HsCodeFacts.
Import PDFParser.

Lemma digit_not_bracket (c : codeunit) : isDigit c = true -> isBracket c = false.
Proof.
  unfold isDigit, isBracket, oneOf. cbn. unfold cu_eqb. intros H.
  apply andb_true_iff in H. destruct H as [H1 H2].
  apply N.leb_le in H1, H2.
  rewrite orb_false_r. apply orb_false_iff. split; apply N.eqb_neq; lia.
Qed.

Lemma digit_not_dot (c : codeunit) : isDigit c = true -> cu_eqb 46%N c = false.
Proof.
  unfold isDigit, cu_eqb. intros H.
  apply andb_true_iff in H. destruct H as [H1 H2].
  apply N.leb_le in H1, H2. apply N.eqb_neq; lia.
Qed.

Lemma stripBrackets_digits (s : jsstring) :
  forallb isDigit s = true -> stripBrackets s = s.
Proof.
  induction s as [|c s IH]; [reflexivity|].
  cbn [forallb]. intros H. apply andb_true_iff in H. destruct H as [Hc Hs].
  unfold stripBrackets in *. cbn [filter].
  rewrite (digit_not_bracket c Hc). cbn [negb]. now rewrite IH.
Qed.

Lemma stripBrackets_idempotent (s : jsstring) :
  stripBrackets (stripBrackets s) = stripBrackets s.
Proof.
  unfold stripBrackets. induction s as [|c s IH]; [reflexivity|].
  cbn [filter]. destruct (isBracket c) eqn:Hc; cbn [negb filter]; auto.
  rewrite Hc. cbn [negb]. now rewrite IH.
Qed.

Lemma includes_dot_digits (s : jsstring) :
  forallb isDigit s = true -> includes (str ".") s = false.
Proof.
  induction s as [|c s IH]; [reflexivity|].
  cbn [forallb]. intros H. apply andb_true_iff in H. destruct H as [Hc Hs].
  cbn [includes]. rewrite (IH Hs).
  change (startsWith (str ".") (c :: s)) with (cu_eqb 46%N c && true).
  rewrite (digit_not_dot c Hc). reflexivity.
Qed.

Lemma includes_unit (c : codeunit) (x y : jsstring) :
  includes [c] (x ++ c :: y) = true.
Proof.
  induction x as [|a x IH]; cbn [app includes startsWith].
  - unfold cu_eqb. rewrite N.eqb_refl. reflexivity.
  - rewrite IH. apply orb_true_r.
Qed.

(** The first statement removes the brackets. *)
Lemma brackets_removed (hsCode : jsstring) :
  replaceAll_g noflags (Cls (oneOf "[]")) (fun _ => []) hsCode = stripBrackets hsCode.
Proof. apply (replaceAll_g_delete isBracket (Cls isBracket) (cls_one_unit isBracket)). Qed.

(** Brackets do not count: a code and the same code without its brackets
    are normalised alike. *)
Lemma normalizeHsCode_strips (hsCode : jsstring) :
  normalizeHsCode hsCode = normalizeHsCode (stripBrackets hsCode).
Proof.
  unfold normalizeHsCode.
  rewrite !brackets_removed, stripBrackets_idempotent. reflexivity.
Qed.

(** Ten digits without separator: one dot after the fourth digit. *)
Lemma normalizeHsCode_ten_digits (s : jsstring) :
  forallb isDigit s = true -> length s = 10 ->
  normalizeHsCode s = firstn 4 s ++ str "." ++ skipn 4 s.
Proof.
  intros Hd Hl. unfold normalizeHsCode.
  rewrite brackets_removed, (stripBrackets_digits s Hd).
  rewrite (includes_dot_digits s Hd), Hl. reflexivity.
Qed.

Arguments isDigit : simpl never.

(** One step of the matcher on a unit known to be a digit. *)
Ltac step_digit H := cbn; rewrite H.

(** Four digits, dot, two digits, dot, four digits: the second dot goes. *)
Lemma normalizeHsCode_two_dots (a b c d e f g h i j : codeunit) :
  forallb isDigit [a; b; c; d; e; f; g; h; i; j] = true ->
  normalizeHsCode ([a; b; c; d] ++ str "." ++ [e; f] ++ str "." ++ [g; h; i; j])
  = [a; b; c; d] ++ str "." ++ [e; f; g; h; i; j].
Proof.
  cbn [forallb]. rewrite !andb_true_iff.
  intros (Ha & Hb & Hc & Hd & He & Hf & Hg & Hh & Hi & Hj & _).
  unfold normalizeHsCode. rewrite brackets_removed.
  assert (Hs : stripBrackets ([a; b; c; d] ++ str "." ++ [e; f] ++ str "." ++ [g; h; i; j])
               = [a; b; c; d] ++ str "." ++ [e; f] ++ str "." ++ [g; h; i; j]).
  { unfold stripBrackets. cbn [app str list_ascii_of_string map filter].
    repeat match goal with
           | H : isDigit ?x = true |- _ => rewrite (digit_not_bracket x H)
           end.
    reflexivity. }
  rewrite Hs.
  change (str ".") with [46%N] at 1.
  change (str "." ++ [e; f] ++ str "." ++ [g; h; i; j])
    with (46%N :: ([e; f] ++ str "." ++ [g; h; i; j])) at 1.
  rewrite includes_unit. cbn [negb andb].
  unfold replace1, exec, search.
  step_digit Ha; step_digit Hb; step_digit Hc; step_digit Hd; step_digit He;
  step_digit Hf; step_digit Hg; step_digit Hh; step_digit Hi; step_digit Hj.
  reflexivity.
Qed.

End HsCodeFacts.

(** C3.  The quantity text is rewritten and read as the claim says:
    "1.0000" is kept (a dot followed by four digits is a decimal point) and
    reads as 1; "3.150,0000" becomes "3150.0000" (dot and comma together:
    the dot groups thousands, the comma is the decimal point) and reads as
    3150; "470,0000" becomes "470.0000" (a comma alone is the decimal point)
    and reads as 470; "3.150" (a dot followed by exactly three digits)
    becomes "3150".  The same values come out of [parseOCRItemText] on item
    blocks that carry these texts. *)
Theorem C3_quantity_parsing :
  PDFParser.normalizeQtyString (str "1.0000") = str "1.0000" /\
  parseFloat (PDFParser.normalizeQtyString (str "1.0000")) = Num 1 /\
  PDFParser.normalizeQtyString (str "3.150,0000") = str "3150.0000" /\
  parseFloat (PDFParser.normalizeQtyString (str "3.150,0000")) = Num 3150 /\
  PDFParser.normalizeQtyString (str "470,0000") = str "470.0000" /\
  parseFloat (PDFParser.normalizeQtyString (str "470,0000")) = Num 470 /\
  PDFParser.normalizeQtyString (str "3.150") = str "3150" /\
  qty_of (PDFParser.parseOCRItemText 1 (str "8479.903000") block_piece) = Some (Num 1) /\
  qty_of (PDFParser.parseOCRItemText 2 (str "8479903000") block_set) = Some (Num 3150) /\
  qty_of (PDFParser.parseOCRItemText 3 (str "8479.90.3000") block_kg) = Some (Num 470).
Proof. repeat split; vm_compute; reflexivity. Qed.

(** C4.  Each of the four spellings of the tariff code is normalised to
    "8479.903000", as is the code captured from an item line written with
    any of them.  In general brackets are dropped, ten digits without a
    separator get one dot after the fourth digit, and the layout of four,
    two and four digits on two dots loses its second dot. *)
Theorem C4_tariff_code_normalisation :
  PDFParser.normalizeHsCode (str "8479903000") = str "8479.903000" /\
  PDFParser.normalizeHsCode (str "8479.903000") = str "8479.903000" /\
  PDFParser.normalizeHsCode (str "8479.90.3000") = str "8479.903000" /\
  PDFParser.normalizeHsCode (str "[8479.903000") = str "8479.903000" /\
  option_map PDFParser.normalizeHsCode (capturedHsCode (str "2 8479903000 Tidak"))
    = Some (str "8479.903000") /\
  option_map PDFParser.normalizeHsCode (capturedHsCode (str "1 8479.903000 Tidak"))
    = Some (str "8479.903000") /\
  option_map PDFParser.normalizeHsCode (capturedHsCode (str "5 [8479.90.3000 Tidak"))
    = Some (str "8479.903000") /\
  option_map PDFParser.normalizeHsCode (capturedHsCode (str "| 1 [8479.903000 Tidak"))
    = Some (str "8479.903000") /\
  (forall hsCode,
     PDFParser.normalizeHsCode hsCode = PDFParser.normalizeHsCode (stripBrackets hsCode)) /\
  (forall s,
     forallb isDigit s = true -> length s = 10 ->
     PDFParser.normalizeHsCode s = firstn 4 s ++ str "." ++ skipn 4 s) /\
  (forall a b c d e f g h i j,
     forallb isDigit [a; b; c; d; e; f; g; h; i; j] = true ->
     PDFParser.normalizeHsCode
       ([a; b; c; d] ++ str "." ++ [e; f] ++ str "." ++ [g; h; i; j])
     = [a; b; c; d] ++ str "." ++ [e; f; g; h; i; j]).
Proof.
  do 8 (split; [vm_compute; reflexivity|]).
  split; [exact normalizeHsCode_strips|].
  split; [exact normalizeHsCode_ten_digits | exact normalizeHsCode_two_dots].
Qed.

Lemma C4_witness_general_rules :
  PDFParser.normalizeHsCode (str "3926905900") = str "3926.905900" /\
  PDFParser.normalizeHsCode (str "3926.90.5900") = str "3926.905900".
Proof.
  destruct C4_tariff_code_normalisation
    as (_ & _ & _ & _ & _ & _ & _ & _ & _ & Hten & Htwo).
  split.
  - exact (Hten (str "3926905900") eq_refl eq_refl).
  - exact (Htwo 51%N 57%N 50%N 54%N 57%N 48%N 53%N 57%N 48%N 48%N eq_refl).
Defined.

(** ** The two extraction strategies *)

Section ParseItemsFacts.
Import PDFParser.

Lemma parseItems_no_table (p : parser) :
  findTableSection p = false ->
  parseItems p = (inl (str "Table section not found"), p,
                  [FailedToParse (str "Table section not found")]).
Proof. intros H. unfold parseItems. now rewrite H. Qed.

Lemma parseItems_fallback (p : parser) :
  findTableSection p = true ->
  posTarifMatches p = [] ->
  parseItems p =
    (inr (ocrTableItems p), set_items (ocrTableItems p) p,
     [FoundPosTarif 0; TryingOCRTable; OCRTableFound (length (ocrTableItems p));
      ParsedItems (length (ocrTableItems p))]).
Proof.
  intros Hs Hm. unfold parseItems, posTarifMatches in *. rewrite Hs, Hm.
  reflexivity.
Qed.

Lemma parseItems_digital (p : parser) :
  findTableSection p = true ->
  posTarifMatches p <> [] ->
  parseItems p =
    (inr (parseBlocks (fullText p) (posTarifMatches p) []),
     set_items (parseBlocks (fullText p) (posTarifMatches p) []) p,
     [FoundPosTarif (length (posTarifMatches p));
      ParsedItems (length (parseBlocks (fullText p) (posTarifMatches p) []))]).
Proof.
  intros Hs Hm. unfold parseItems, posTarifMatches in *. rewrite Hs.
  destruct (matchAll noflags posTarifPattern (fullText p)) as [|z zs]; [congruence|].
  reflexivity.
Qed.

(** C6.  Whenever a run of [parseItems] finds zero strategy-1 markers it
    goes on to run strategy 2 on the same text and returns what strategy 2
    extracts.  In terms of the text alone: on a text without any marker,
    [parseItems] either throws at the table-section check, before either
    strategy, or runs strategy 2; so whenever it returns a list (the empty
    one included) strategy 2 has run before.  On a text with at least one
    marker strategy 2 does not run. *)
Theorem C6_fallback_to_OCR_table (p : parser) :
  (In (FoundPosTarif 0) (log_of (parseItems p)) ->
     posTarifMatches p = [] /\
     In TryingOCRTable (log_of (parseItems p)) /\
     result_of (parseItems p) = inr (ocrTableItems p)) /\
  (posTarifMatches p = [] ->
     (findTableSection p = false /\
      result_of (parseItems p) = inl (str "Table section not found")) \/
     (findTableSection p = true /\
      result_of (parseItems p) = inr (ocrTableItems p) /\
      log_of (parseItems p) =
        [FoundPosTarif 0; TryingOCRTable; OCRTableFound (length (ocrTableItems p));
         ParsedItems (length (ocrTableItems p))])) /\
  (posTarifMatches p = [] ->
     forall l, result_of (parseItems p) = inr l ->
       In TryingOCRTable (log_of (parseItems p)) /\ l = ocrTableItems p) /\
  (posTarifMatches p <> [] ->
     ~ In TryingOCRTable (log_of (parseItems p)) /\
     forall n, ~ In (OCRTableFound n) (log_of (parseItems p))).
Proof.
  split; [|split; [|split]].
  - destruct (findTableSection p) eqn:Hs.
    + destruct (posTarifMatches p) as [|z zs] eqn:Hm.
      * rewrite (parseItems_fallback p Hs Hm). unfold result_of, log_of, fst, snd.
        intros _. split; [reflexivity|]. split; [|reflexivity].
        right; left; reflexivity.
      * assert (Hne : posTarifMatches p <> []) by (rewrite Hm; discriminate).
        rewrite (parseItems_digital p Hs Hne), Hm. unfold log_of, snd.
        intros [H|[H|[]]]; discriminate.
    + rewrite (parseItems_no_table p Hs). unfold log_of, snd.
      intros [H|[]]; discriminate.
  - intros Hm. destruct (findTableSection p) eqn:Hs.
    + right. rewrite (parseItems_fallback p Hs Hm). auto.
    + left. rewrite (parseItems_no_table p Hs). auto.
  - intros Hm l. destruct (findTableSection p) eqn:Hs.
    + rewrite (parseItems_fallback p Hs Hm). unfold result_of, log_of, fst, snd.
      intros E. injection E as <-. split; [|reflexivity].
      right; left; reflexivity.
    + rewrite (parseItems_no_table p Hs). discriminate.
  - intros Hm. destruct (findTableSection p) eqn:Hs.
    + rewrite (parseItems_digital p Hs Hm). unfold log_of, snd.
      split; [|intros n]; intros [H|[H|[]]]; discriminate.
    + rewrite (parseItems_no_table p Hs). unfold log_of, snd.
      split; [|intros n]; intros [H|[]]; discriminate.
Qed.
End ParseItemsFacts.

Example parseItems_ocr_document :
  result_of (PDFParser.parseItems ocr_document) =
    inr [ {| seri := 1; kodeBrg := str "8479.903000";
             uraian := str "COMPACT FLASH (BUFFALO RC"; bc_qty := Num 1;
             satuan := str "PCE" |};
          {| seri := 2; kodeBrg := str "8479.903000";
             uraian := str "WIDGET THING"; bc_qty := Num 3150;
             satuan := str "SET" |} ] /\
  log_of (PDFParser.parseItems ocr_document) =
    [ PDFParser.FoundPosTarif 0; PDFParser.TryingOCRTable;
      PDFParser.OCRTableFound 2; PDFParser.ParsedItems 2 ].
Proof. split; vm_compute; reflexivity. Qed.

Example parseItems_digital_document :
  result_of (PDFParser.parseItems digital_document) =
    inr [ {| seri := 1; kodeBrg := str "AB12345";
             uraian := str "COMPACT FLASH CARD"; bc_qty := Num 3150;
             satuan := str "PCE" |};
          {| seri := 2; kodeBrg := str "CD67890";
             uraian := str "THING"; bc_qty := Num 470;
             satuan := str "KG" |} ] /\
  log_of (PDFParser.parseItems digital_document) =
    [ PDFParser.FoundPosTarif 2; PDFParser.ParsedItems 2 ].
Proof. split; vm_compute; reflexivity. Qed.

Example parseItems_blank_document :
  posTarifMatches blank_document = [] /\
  PDFParser.findTableSection blank_document = false /\
  ocrTableItems blank_document = [] /\
  result_of (PDFParser.parseItems blank_document) = inl (str "Table section not found").
Proof. repeat split; vm_compute; reflexivity. Qed.

Lemma C6_witness_both_documents :
  In PDFParser.TryingOCRTable (log_of (PDFParser.parseItems ocr_document)) /\
  ~ In PDFParser.TryingOCRTable (log_of (PDFParser.parseItems digital_document)).
Proof.
  split.
  - destruct (C6_fallback_to_OCR_table ocr_document) as [_ [_ [H _]]].
    assert (Hm : posTarifMatches ocr_document = []) by (vm_compute; reflexivity).
    exact (proj1 (H Hm _ (proj1 parseItems_ocr_document))).
  - destruct (C6_fallback_to_OCR_table digital_document) as [_ [_ [_ H]]].
    assert (Hm : posTarifMatches digital_document <> []) by (vm_compute; discriminate).
    exact (proj1 (H Hm)).
Defined.

(** ** Text normalisation *)

(** *** Texts without two white-space units in a row *)

Lemma NoAdj_app_inv (a b : jsstring) : NoAdj (a ++ b) -> NoAdj a /\ NoAdj b.
Proof.
  induction a as [|x a IH]; simpl; [tauto|].
  intros [Hx Hab]. destruct (IH Hab) as [Ha Hb]. repeat split; auto.
  intros Hw. specialize (Hx Hw). destruct a; simpl in *; auto.
Qed.

Lemma NoAdj_glue (a b : jsstring) (c : codeunit) :
  NoAdj (a ++ [c]) -> NoAdj (c :: b) -> NoAdj (a ++ c :: b).
Proof.
  induction a as [|x a IH]; simpl; [tauto|].
  intros [Hx Hac] Hcb. split; [|apply IH; auto].
  intros Hw. specialize (Hx Hw). destruct a; simpl in *; auto.
Qed.

Lemma NoAdj_unglue (a b : jsstring) (c : codeunit) :
  NoAdj (a ++ c :: b) -> NoAdj (a ++ [c]) /\ NoAdj (c :: b).
Proof.
  intros H. split.
  - replace (a ++ c :: b) with ((a ++ [c]) ++ b) in H
      by (rewrite <- app_assoc; reflexivity).
    apply (NoAdj_app_inv _ _ H).
  - apply (NoAdj_app_inv _ _ H).
Qed.

Lemma lastOK_cons (a : codeunit) (t : jsstring) :
  t <> [] -> (lastOK (a :: t) <-> lastOK t).
Proof.
  intros Ht. unfold lastOK. simpl.
  destruct (rev t) eqn:E.
  - apply (f_equal (@rev _)) in E. rewrite rev_involutive in E. contradiction.
  - simpl. tauto.
Qed.

Lemma NoAdj_snoc (t : jsstring) (c : codeunit) :
  NoAdj t -> lastOK t -> NoAdj (t ++ [c]).
Proof.
  induction t as [|a t IH]; simpl; [tauto|].
  intros [Ha Ht] Hlast. destruct t as [|b t].
  - simpl. unfold lastOK in Hlast. simpl in Hlast.
    split; [|tauto]. intros Hw. congruence.
  - split; [exact Ha|]. apply IH; auto.
    apply (lastOK_cons a (b :: t)); [discriminate|exact Hlast].
Qed.

Lemma NoAdj_snoc_inv (t : jsstring) (c : codeunit) :
  NoAdj (t ++ [c]) -> isWhiteSpace c = true -> lastOK t.
Proof.
  induction t as [|a t IH]; intros H Hc; [exact I|].
  destruct t as [|b t].
  - simpl in H. unfold lastOK. simpl. destruct H as [H _].
    destruct (isWhiteSpace a) eqn:Ha; auto. specialize (H eq_refl). congruence.
  - apply lastOK_cons; [discriminate|]. apply IH; auto. apply H.
Qed.

Lemma headOK_dropWhile (s : jsstring) : headOK (dropWhile isWhiteSpace s).
Proof.
  induction s as [|c s IH]; simpl; auto.
  destruct (isWhiteSpace c) eqn:Hc; simpl; auto.
Qed.

Lemma dropWhile_headOK (s : jsstring) : headOK s -> dropWhile isWhiteSpace s = s.
Proof. destruct s as [|c s]; simpl; auto. intros ->. reflexivity. Qed.

Lemma lastOK_dropWhile (s : jsstring) : lastOK s -> lastOK (dropWhile isWhiteSpace s).
Proof.
  induction s as [|c s IH]; simpl; auto.
  intros H. destruct (isWhiteSpace c) eqn:Hc; auto.
  destruct s as [|d s]; [exact I|].
  apply IH. apply (lastOK_cons c (d :: s)); [discriminate|exact H].
Qed.

Lemma NoAdj_tail (a : codeunit) (t : jsstring) : NoAdj (a :: t) -> NoAdj t.
Proof. simpl; tauto. Qed.

Lemma NoAdj_dropWhile (s : jsstring) : NoAdj s -> NoAdj (dropWhile isWhiteSpace s).
Proof.
  induction s as [|c s IH]; simpl; auto.
  intros [Hc Hs]. destruct (isWhiteSpace c) eqn:E; [apply IH, Hs|].
  simpl. split; [intros; congruence | exact Hs].
Qed.

(** The relation is symmetric, so it survives reversal. *)
Lemma NoAdj_rev (s : jsstring) : NoAdj s -> NoAdj (rev s).
Proof.
  induction s as [|a t IH]; simpl; auto.
  intros [Ha Ht]. specialize (IH Ht).
  destruct (isWhiteSpace a) eqn:Hw.
  - apply NoAdj_snoc; auto. unfold lastOK. rewrite rev_involutive. auto.
  - clear Ha Ht. induction (rev t) as [|x u IHu]; simpl; auto.
    destruct IH as [Hx Hu]. split; auto.
    intros Hxw. specialize (Hx Hxw). destruct u; simpl in *; auto.
Qed.

Lemma headOK_trim (s : jsstring) : headOK (trim s).
Proof.
  unfold trim, trimEnd, trimStart.
  change (lastOK (dropWhile isWhiteSpace (rev (dropWhile isWhiteSpace s)))).
  apply lastOK_dropWhile. unfold lastOK. rewrite rev_involutive.
  apply headOK_dropWhile.
Qed.

Lemma lastOK_trim (s : jsstring) : lastOK (trim s).
Proof.
  unfold lastOK, trim, trimEnd. rewrite rev_involutive. apply headOK_dropWhile.
Qed.

Lemma trim_fixed (s : jsstring) : headOK s -> lastOK s -> trim s = s.
Proof.
  intros Hh Hl. unfold trim, trimEnd, trimStart.
  rewrite (dropWhile_headOK s Hh), (dropWhile_headOK (rev s) Hl).
  apply rev_involutive.
Qed.

Lemma trim_idempotent (s : jsstring) : trim (trim s) = trim s.
Proof. apply trim_fixed; [apply headOK_trim | apply lastOK_trim]. Qed.

Lemma NoAdj_trim (s : jsstring) : NoAdj s -> NoAdj (trim s).
Proof.
  intros H. unfold trim, trimEnd, trimStart.
  apply NoAdj_rev, NoAdj_dropWhile, NoAdj_rev, NoAdj_dropWhile, H.
Qed.

(** *** Lines *)

Lemma split_lf_nonempty (s : jsstring) : split_lf s <> [].
Proof.
  destruct s as [|c s]; simpl; [discriminate|].
  destruct (cu_eqb c LF); [discriminate|].
  destruct (split_lf s); discriminate.
Qed.

Lemma join_cons (l : jsstring) (ls : list jsstring) :
  ls <> [] -> join [LF] (l :: ls) = l ++ LF :: join [LF] ls.
Proof. destruct ls; [contradiction|reflexivity]. Qed.

Lemma join_split_lf (s : jsstring) : join [LF] (split_lf s) = s.
Proof.
  induction s as [|c s IH]; [reflexivity|].
  cbn [split_lf]. destruct (cu_eqb c LF) eqn:Hc.
  - apply N.eqb_eq in Hc. subst c.
    rewrite join_cons by apply split_lf_nonempty. now rewrite IH.
  - pose proof (split_lf_nonempty s) as Hne.
    destruct (split_lf s) as [|l ls]; [contradiction|].
    destruct ls as [|l' ls].
    + simpl in *. now rewrite IH.
    + rewrite join_cons by discriminate. rewrite join_cons in IH by discriminate.
      rewrite <- IH. reflexivity.
Qed.

Lemma split_lf_lfFree (s : jsstring) : Forall lfFree (split_lf s).
Proof.
  induction s as [|c s IH]; simpl.
  - repeat constructor.
  - destruct (cu_eqb c LF) eqn:Hc.
    + constructor; [constructor | exact IH].
    + destruct (split_lf s) as [|l ls]; [repeat constructor; exact Hc|].
      inversion IH; subst. constructor; auto. constructor; auto.
Qed.

Lemma split_lf_line (l : jsstring) : lfFree l -> split_lf l = [l].
Proof.
  induction 1 as [|c l Hc Hl IH]; [reflexivity|].
  simpl. rewrite Hc, IH. reflexivity.
Qed.

Lemma split_lf_app (l x : jsstring) :
  lfFree l -> split_lf (l ++ LF :: x) = l :: split_lf x.
Proof.
  induction 1 as [|c l Hc Hl IH]; [reflexivity|].
  simpl. rewrite Hc, IH. reflexivity.
Qed.

Lemma split_lf_join (ls : list jsstring) :
  ls <> [] -> Forall lfFree ls -> split_lf (join [LF] ls) = ls.
Proof.
  induction ls as [|l ls IH]; [contradiction|].
  intros _ H. inversion H as [|? ? Hl Hls]; subst.
  destruct ls as [|l' ls].
  - simpl. now apply split_lf_line.
  - rewrite join_cons by discriminate. rewrite split_lf_app by exact Hl.
    rewrite IH; auto. discriminate.
Qed.

Lemma lfFree_dropWhile (p : codeunit -> bool) (l : jsstring) :
  lfFree l -> lfFree (dropWhile p l).
Proof.
  induction 1 as [|c l Hc Hl IH]; simpl; [constructor|].
  destruct (p c); auto. constructor; auto.
Qed.

Lemma lfFree_rev (l : jsstring) : lfFree l -> lfFree (rev l).
Proof. intros H. apply Forall_rev, H. Qed.

Lemma lfFree_trim (l : jsstring) : lfFree l -> lfFree (trim l).
Proof.
  intros H. unfold trim, trimEnd, trimStart.
  apply lfFree_rev, lfFree_dropWhile, lfFree_rev, lfFree_dropWhile, H.
Qed.

Section TrimLinesFacts.
Import PDFParser.

Lemma trimLines_idempotent (s : jsstring) : trimLines (trimLines s) = trimLines s.
Proof.
  unfold trimLines. rewrite split_lf_join.
  - rewrite map_map. f_equal. apply map_ext. intros l. apply trim_idempotent.
  - pose proof (split_lf_nonempty s). destruct (split_lf s); [contradiction|discriminate].
  - apply Forall_map. eapply Forall_impl; [|apply split_lf_lfFree].
    intros l Hl. apply lfFree_trim, Hl.
Qed.

(** A line between two line feeds of such a text is already trimmed. *)
Lemma inner_line_trimmed (l : jsstring) : NoAdj (LF :: l ++ [LF]) -> trim l = l.
Proof.
  intros [Hh Hl]. apply trim_fixed.
  - specialize (Hh eq_refl). destruct l; simpl in *; auto.
  - apply NoAdj_snoc_inv with (c := LF); auto.
Qed.

Lemma NoAdj_after_lf (ls : list jsstring) :
  ls <> [] ->
  NoAdj (LF :: join [LF] ls) -> NoAdj (LF :: join [LF] (map trim ls)).
Proof.
  induction ls as [|l ls IH]; [contradiction|]. intros _.
  destruct ls as [|l' ls].
  - simpl join. intros [_ Hl]. split.
    + intros _. apply headOK_trim.
    + apply NoAdj_trim, Hl.
  - cbn [map]. rewrite !join_cons by discriminate.
    intros H.
    apply (NoAdj_unglue (LF :: l)) in H. destruct H as [H1 H2].
    rewrite (inner_line_trimmed l H1).
    apply (NoAdj_glue (LF :: l)); [exact H1|].
    apply (IH ltac:(discriminate) H2).
Qed.

Lemma NoAdj_trimLines (s : jsstring) : NoAdj s -> NoAdj (trimLines s).
Proof.
  unfold trimLines. rewrite <- (join_split_lf s) at 1.
  pose proof (split_lf_nonempty s) as Hne.
  destruct (split_lf s) as [|l ls]; [contradiction|]. clear Hne.
  destruct ls as [|l' ls].
  - simpl. apply NoAdj_trim.
  - cbn [map]. rewrite !join_cons by discriminate. intros H.
    apply NoAdj_unglue in H. destruct H as [H1 H2].
    apply NoAdj_glue.
    + apply NoAdj_snoc; [|apply lastOK_trim].
      apply NoAdj_trim. apply (NoAdj_app_inv _ _ H1).
    + apply (NoAdj_after_lf (l' :: ls)); [discriminate | exact H2].
Qed.

End TrimLinesFacts.

(** *** The two [replace] statements of the whitespace step *)

Section CollapseFacts.
Variable q : codeunit -> bool.
Hypothesis q_white : forall c, q c = true -> isWhiteSpace c = true.

Lemma runlen_zero_headOK (s : jsstring) : runlen isWhiteSpace s = 0 -> headOK s.
Proof.
  destruct s as [|c s]; [intros; exact I|].
  rewrite runlen_cons. simpl. destruct (isWhiteSpace c); [discriminate|reflexivity].
Qed.

Lemma headOK_runlen_zero (s : jsstring) : headOK s -> runlen q s = 0.
Proof.
  destruct s as [|c s]; [reflexivity|].
  rewrite runlen_cons. simpl. intros Hc.
  destruct (q c) eqn:Hq; [|reflexivity].
  apply q_white in Hq. congruence.
Qed.

Lemma NoAdj_runlen (s : jsstring) : NoAdj s -> runlen q s <= 1.
Proof.
  destruct s as [|c s]; [intros; apply Nat.le_0_l|].
  rewrite runlen_cons. intros [Hc _].
  destruct (q c) eqn:Hq; [|lia].
  apply q_white in Hq. rewrite (headOK_runlen_zero s (Hc Hq)). lia.
Qed.

(** Nothing to replace in a text without two white-space units in a row. *)
Lemma replaceRuns_NoAdj_id (lo : nat) (rep : jsstring) :
  2 <= lo ->
  forall (fuel : nat) (s : jsstring),
    length s < fuel -> NoAdj s -> replaceRuns q lo rep fuel s = s.
Proof.
  intros Hlo. induction fuel as [|fuel IH]; intros s Hfuel Hs; [lia|].
  destruct s as [|c t]; [reflexivity|].
  cbn [replaceRuns].
  pose proof (NoAdj_runlen (c :: t) Hs) as Hrun.
  replace (lo <=? runlen q (c :: t)) with false
    by (symmetry; apply Nat.leb_gt; lia).
  f_equal. apply IH; [simpl in Hfuel; lia | apply (NoAdj_tail _ _ Hs)].
Qed.

End CollapseFacts.

Section PhraseFacts.
Import PDFParser.

Lemma lits_match (R : Type) (total : nat) (k : jsstring -> captures -> option R) :
  forall (key s : jsstring) (caps : captures),
    key <> [] ->
    m flag_i total (lits key) s caps k =
    if prefixCI key s then k (skipn (length key) s) caps else None.
Proof.
  induction key as [|c key IH]; intros s caps Hne; [contradiction|].
  destruct key as [|c' key].
  - cbn [lits m prefixCI length]. destruct s as [|x s]; [reflexivity|].
    unfold lit_matches. cbn [ignoreCase flag_i andb skipn].
    destruct (cu_eqb (upperASCII c) (upperASCII x)); reflexivity.
  - cbn [lits m]. cbn [prefixCI]. destruct s as [|x s]; [reflexivity|].
    unfold lit_matches at 1. cbn [ignoreCase flag_i].
    destruct (cu_eqb (upperASCII c) (upperASCII x)); [|reflexivity].
    cbn [andb]. rewrite IH by discriminate. reflexivity.
Qed.

Lemma scan_g_absent (key rep : jsstring) (total : nat) :
  key <> [] ->
  forall (fuel i : nat) (rest : jsstring),
    length rest < fuel ->
    containsCI key rest = false ->
    concat (scan_g flag_i (lits key) total (fun _ => rep) (fun c => [c]) fuel i rest)
    = rest.
Proof.
  intros Hne. induction fuel as [|fuel IH]; intros i rest Hfuel Habs; [lia|].
  cbn [scan_g]. unfold match_here. rewrite lits_match by exact Hne.
  destruct rest as [|c t].
  - cbn [containsCI] in Habs. rewrite orb_false_r in Habs. rewrite Habs. reflexivity.
  - cbn [containsCI] in Habs. apply orb_false_iff in Habs. destruct Habs as [Hp Ht].
    rewrite Hp. cbn [concat app]. f_equal. apply IH; [simpl in Hfuel; lia | exact Ht].
Qed.

(** A phrase that does not occur is not replaced. *)
Lemma replacePhrase_absent (wrong correct s : jsstring) :
  wrong <> [] -> containsCI wrong s = false -> replacePhrase wrong correct s = s.
Proof.
  intros Hne Habs. unfold replacePhrase, replaceAll_g.
  apply scan_g_absent; auto.
Qed.

Lemma fold_phrases_free (table : list (jsstring * jsstring)) (s : jsstring) :
  Forall (fun wc => fst wc <> []) table ->
  forallb (fun wc => negb (containsCI (fst wc) s)) table = true ->
  fold_left (fun cleaned wc => replacePhrase (fst wc) (snd wc) cleaned) table s = s.
Proof.
  induction table as [|wc table IH]; intros Hne Hfree; [reflexivity|].
  cbn [forallb] in Hfree. apply andb_true_iff in Hfree. destruct Hfree as [H1 H2].
  inversion Hne as [|? ? Hwc Htable]; subst.
  cbn [fold_left]. rewrite replacePhrase_absent; auto.
  apply negb_true_iff, H1.
Qed.

(** The phrase table leaves a text alone in which none of its keys occurs. *)
Lemma applyPhraseReplacements_free (s : jsstring) :
  phraseFree s = true -> applyPhraseReplacements s = s.
Proof.
  intros H. unfold applyPhraseReplacements. apply fold_phrases_free; [|exact H].
  unfold phraseReplacements. repeat constructor; discriminate.
Qed.
End PhraseFacts.

Section WhitespaceStep.
Import PDFParser.

Lemma collapseSpaces_runs (s : jsstring) :
  collapseSpaces s = replaceRuns isWhiteSpace 2 [SP] (S (length s)) s.
Proof.
  unfold collapseSpaces, atleast.
  apply replaceAll_g_run; [apply cls_one_unit | lia].
Qed.

Lemma collapseNewlines_runs (s : jsstring) :
  collapseNewlines s = replaceRuns (cu_eqb LF) 4 [LF; LF; LF] (S (length s)) s.
Proof.
  unfold collapseNewlines, atleast.
  apply replaceAll_g_run; [apply lit_one_unit | lia].
Qed.

Lemma lf_is_white (c : codeunit) : cu_eqb LF c = true -> isWhiteSpace c = true.
Proof. intros H. apply N.eqb_eq in H. subst c. reflexivity. Qed.

Lemma collapseSpaces_fixed (s : jsstring) : NoAdj s -> collapseSpaces s = s.
Proof.
  intros H. rewrite collapseSpaces_runs.
  apply replaceRuns_NoAdj_id; auto.
Qed.

Lemma collapseNewlines_fixed (s : jsstring) : NoAdj s -> collapseNewlines s = s.
Proof.
  intros H. rewrite collapseNewlines_runs.
  apply replaceRuns_NoAdj_id; auto. apply lf_is_white.
Qed.

Lemma squeezed_NoAdj : forall (fuel : nat) (s : jsstring),
  length s < fuel ->
  NoAdj (replaceRuns isWhiteSpace 2 [SP] fuel s) /\
  (headOK s -> headOK (replaceRuns isWhiteSpace 2 [SP] fuel s)).
Proof.
  induction fuel as [|fuel IH]; intros s Hfuel; [lia|].
  destruct s as [|c t]; [simpl; tauto|].
  cbn [replaceRuns]. rewrite runlen_cons.
  destruct (isWhiteSpace c) eqn:Hc.
  - destruct (2 <=? S (runlen isWhiteSpace t)) eqn:Hrun.
    + assert (Hlen : length (dropWhile isWhiteSpace (c :: t)) < fuel).
      { pose proof (dropWhile_length isWhiteSpace (c :: t)) as HL.
        rewrite runlen_cons, Hc in HL. apply Nat.leb_le in Hrun.
        cbn [length] in Hfuel, HL. lia. }
      destruct (IH _ Hlen) as [Hn Hh].
      split; [|simpl; congruence].
      cbn [app NoAdj]. split; [|exact Hn].
      intros _. apply Hh, headOK_dropWhile.
    + assert (Hlen : length t < fuel) by (simpl in Hfuel; lia).
      destruct (IH _ Hlen) as [Hn Hh].
      split; [|simpl; congruence].
      cbn [NoAdj]. split; [|exact Hn].
      intros _. apply Hh, runlen_zero_headOK.
      apply Nat.leb_gt in Hrun. lia.
  - cbn [Nat.leb].
    assert (Hlen : length t < fuel) by (simpl in Hfuel; lia).
    destruct (IH _ Hlen) as [Hn Hh].
    split; [|simpl; auto].
    cbn [NoAdj]. split; [intros; congruence | exact Hn].
Qed.

(** After the first [replace] no two white-space units are adjacent. *)
Lemma collapseSpaces_NoAdj (s : jsstring) : NoAdj (collapseSpaces s).
Proof. rewrite collapseSpaces_runs. apply squeezed_NoAdj. lia. Qed.

(** So nothing is left for the second [replace]: it never changes the
    text it receives. *)
Lemma collapseNewlines_after_collapseSpaces (s : jsstring) :
  collapseNewlines (collapseSpaces s) = collapseSpaces s.
Proof. apply collapseNewlines_fixed, collapseSpaces_NoAdj. Qed.

Lemma normalizeWhitespace_NoAdj (s : jsstring) : NoAdj (normalizeWhitespace s).
Proof.
  unfold normalizeWhitespace. rewrite collapseNewlines_after_collapseSpaces.
  apply NoAdj_trimLines, collapseSpaces_NoAdj.
Qed.

(** The whitespace step is idempotent. *)
Lemma normalizeWhitespace_idempotent (s : jsstring) :
  normalizeWhitespace (normalizeWhitespace s) = normalizeWhitespace s.
Proof.
  pose proof (normalizeWhitespace_NoAdj s) as Hn.
  unfold normalizeWhitespace at 1.
  rewrite (collapseSpaces_fixed _ Hn), (collapseNewlines_fixed _ Hn).
  unfold normalizeWhitespace. apply trimLines_idempotent.
Qed.

Lemma postProcessOCRText_eq (t : jsstring) :
  postProcessOCRText t = normalizeWhitespace (applyPhraseReplacements t).
Proof. reflexivity. Qed.

(** A second pass whose phrase loop finds nothing to repair changes
    nothing. *)
Lemma second_pass_when_settled (t : jsstring) :
  applyPhraseReplacements (postProcessOCRText t) = postProcessOCRText t ->
  postProcessOCRText (postProcessOCRText t) = postProcessOCRText t.
Proof.
  intros Hsettled.
  rewrite (postProcessOCRText_eq (postProcessOCRText t)), Hsettled.
  rewrite postProcessOCRText_eq. apply normalizeWhitespace_idempotent.
Qed.

(** C5, as amended.  Applying the normaliser twice gives the same text as
    applying it once, for every text whose normalised form the phrase
    table leaves unchanged. *)
Theorem C5_idempotent_when_phrases_settled (t : jsstring)
    (Hsettled : applyPhraseReplacements (postProcessOCRText t) = postProcessOCRText t) :
  postProcessOCRText (postProcessOCRText t) = postProcessOCRText t.
Proof. exact (second_pass_when_settled t Hsettled). Qed.

(** In particular for every text in whose normalised form no key of the
    phrase table occurs. *)
Corollary idempotent_when_phrase_free (t : jsstring) :
  phraseFree (postProcessOCRText t) = true ->
  postProcessOCRText (postProcessOCRText t) = postProcessOCRText t.
Proof.
  intros H. apply second_pass_when_settled.
  apply applyPhraseReplacements_free, H.
Qed.

(** What the whitespace step does achieve: no two white-space units in a
    row are left, and every line is trimmed. *)
Lemma normalizeWhitespace_lines_trimmed (s : jsstring) :
  Forall (fun l => trim l = l) (split_lf (normalizeWhitespace s)).
Proof.
  unfold normalizeWhitespace, trimLines.
  set (ls := split_lf (collapseNewlines (collapseSpaces s))).
  rewrite split_lf_join.
  - apply Forall_map, Forall_forall. intros l _. apply trim_idempotent.
  - subst ls. pose proof (split_lf_nonempty (collapseNewlines (collapseSpaces s))).
    destruct (split_lf _); [contradiction|discriminate].
  - apply Forall_map. eapply Forall_impl; [|apply split_lf_lfFree].
    intros l Hl. apply lfFree_trim, Hl.
Qed.

End WhitespaceStep.

(** C2 (the code departs from the claim).  The first statement of the
    whitespace step matches [\s], which includes the line feed: two line
    feeds in a row, and a line feed next to a space, are replaced by one
    space, and a run of four line feeds becomes one space instead of three
    line feeds.  A line feed between two other units is kept. *)
Theorem C2_line_feeds_collapsed :
  PDFParser.normalizeWhitespace (str ("a" ++ nl ++ nl ++ "b")) = str "a b" /\
  PDFParser.normalizeWhitespace (str ("a " ++ nl ++ "b")) = str "a b" /\
  PDFParser.normalizeWhitespace (str ("a" ++ nl ++ nl ++ nl ++ nl ++ "b")) = str "a b" /\
  PDFParser.normalizeWhitespace (str ("a" ++ nl ++ "b")) = str ("a" ++ nl ++ "b").
Proof. repeat split; vm_compute; reflexivity. Qed.

(** C5 fails as stated: with two spaces inside a phrase of the table, the
    first pass only collapses the spaces and the second pass repairs the
    phrase. *)
Lemma C5_counterexample_second_pass_differs :
  PDFParser.postProcessOCRText (str "Kode  8rg") = str "Kode 8rg" /\
  PDFParser.postProcessOCRText (PDFParser.postProcessOCRText (str "Kode  8rg"))
    = str "Kode Brg" /\
  ~ (forall t, PDFParser.postProcessOCRText (PDFParser.postProcessOCRText t)
               = PDFParser.postProcessOCRText t).
Proof.
  split; [vm_compute; reflexivity|]. split; [vm_compute; reflexivity|].
  intros H. specialize (H (str "Kode  8rg")). vm_compute in H. discriminate.
Qed.

(** A phrase followed by its own last letter is repaired once per pass. *)
Example second_pass_repairs_again :
  PDFParser.postProcessOCRText (str "Pos TarifII") = str "Pos TarifI" /\
  PDFParser.postProcessOCRText (str "Pos TarifI") = str "Pos Tarif".
Proof. split; vm_compute; reflexivity. Qed.

Lemma C5_witness_settled_text :
  PDFParser.postProcessOCRText
    (PDFParser.postProcessOCRText (str ("Kode 8rg :  AB12345 " ++ nl ++ nl ++ " 1MPOR")))
  = PDFParser.postProcessOCRText (str ("Kode 8rg :  AB12345 " ++ nl ++ nl ++ " 1MPOR")).
Proof.
  apply C5_idempotent_when_phrases_settled. vm_compute. reflexivity.
Defined.

(** ** Recognition of a scanned document *)

Section OCRFacts.
Import PDFParser.
Variable image : Type.
Variable env : collaborators image.

Lemma processBatch_length i pages :
  length (processBatch env i pages) = length pages.
Proof. revert i; induction pages; intros; simpl; auto. Qed.

Lemma processBatch_firstn n : forall i pages,
  processBatch env i (firstn n pages) = firstn n (processBatch env i pages).
Proof.
  induction n; intros i [|pg pages]; simpl; auto.
  now rewrite IHn.
Qed.

Lemma processBatch_skipn n : forall i pages,
  processBatch env (i + n) (skipn n pages) = skipn n (processBatch env i pages).
Proof.
  induction n; intros i pages.
  - now rewrite Nat.add_0_r.
  - destruct pages as [|pg pages]; simpl; auto.
    rewrite <- IHn. f_equal. lia.
Qed.

(** The fragment at a position is that of the page at this position. *)
Lemma processBatch_nth_error : forall pages i k,
  nth_error (processBatch env i pages) k =
  option_map (fun page => processPageWithOCR env page (i + k + 1))
             (nth_error pages k).
Proof.
  induction pages as [|pg pages IH]; intros i [|k]; simpl; auto.
  - now rewrite Nat.add_0_r.
  - rewrite IH. destruct (nth_error pages k); simpl; auto.
    do 2 f_equal. lia.
Qed.

Lemma processBatches_chunks : forall fuel i pages acc,
  processBatches env fuel i pages acc =
  acc ++ concat (map (join [LF; LF]) (chunks fuel (processBatch env i pages))).
Proof.
  induction fuel as [|fuel IH]; intros i pages acc.
  - simpl. now rewrite app_nil_r.
  - destruct pages as [|pg pages].
    + simpl. now rewrite app_nil_r.
    + cbn [processBatches]. rewrite IH.
      change batchSize with 3.
      rewrite processBatch_skipn, processBatch_firstn.
      cbn [processBatch chunks map concat].
      now rewrite <- app_assoc.
Qed.

(** No fragment is lost: the batches put end to end are all fragments. *)
Lemma chunks_cover : forall (fuel : nat) (l : list jsstring),
  length l <= fuel -> concat (chunks fuel l) = l.
Proof.
  induction fuel as [|fuel IH]; intros l Hl.
  - destruct l; [reflexivity | simpl in Hl; lia].
  - destruct l as [|a l]; [reflexivity|].
    cbn [chunks concat]. rewrite IH.
    + apply firstn_skipn.
    + rewrite length_skipn. simpl in *. lia.
Qed.

(** The loop over the batches assembles the fragments of all pages. *)
Lemma processBatches_assemble pages :
  processBatches env (length pages) 0 pages [] = assemble (fragments image env pages).
Proof.
  rewrite processBatches_chunks. unfold assemble, fragments.
  now rewrite processBatch_length.
Qed.

(** A page whose recognition throws contributes the empty fragment. *)
Lemma failed_page_fragment page n e :
  recognize env n (preprocessImage env (content page)) = inl e ->
  processPageWithOCR env page n = [].
Proof.
  intros H. unfold processPageWithOCR, recognizePage, bind.
  destruct (ensure_tessdata env n); [reflexivity|].
  now rewrite H.
Qed.

(** C8.  When the document is rasterised and the file-system steps go
    through, [extractTextWithOCR] returns the normalised text assembled
    from the fragments of all pages, in page order, and every page whose
    recognition throws stands in it with the empty fragment; the other
    fragments are those of their own pages.  When rasterisation throws,
    whatever the document, the call ends with the fatal error. *)
Theorem C8_page_failure_contained (p : parser) (pages : list (png_page image))
    (Htemp : ensure_tempFolder env = inr tt)
    (Hpng : pdfToPng env (pdfPath p) = inr pages)
    (Hrm : remove_tempFolder env = inr tt)
    (Hsave : forall t, save_result env t = inr tt) :
  fst (extractTextWithOCR env p)
    = inr (postProcessOCRText (assemble (fragments image env pages))) /\
  (forall k page,
     nth_error pages k = Some page ->
     nth_error (fragments image env pages) k
       = Some (processPageWithOCR env page (k + 1))) /\
  (forall k page e,
     nth_error pages k = Some page ->
     recognize env (k + 1) (preprocessImage env (content page)) = inl e ->
     nth_error (fragments image env pages) k = Some []) /\
  (forall (env' : collaborators image) (p' : parser) e,
     pdfToPng env' (pdfPath p') = inl e ->
     fst (extractTextWithOCR env' p') = inl ocrFailed).
Proof.
  repeat split.
  - unfold extractTextWithOCR, extractTextWithOCR_try, bind.
    rewrite Htemp, Hpng, Hrm. cbv beta iota zeta. rewrite Hsave.
    cbv beta iota. unfold fst. now rewrite processBatches_assemble.
  - intros k page Hk. unfold fragments.
    rewrite processBatch_nth_error, Hk. unfold option_map.
    now rewrite Nat.add_0_l.
  - intros k page e Hk Hrec. unfold fragments.
    rewrite processBatch_nth_error, Hk. unfold option_map.
    rewrite Nat.add_0_l. now rewrite (failed_page_fragment _ _ _ Hrec).
  - intros env' p' e Hfail.
    unfold extractTextWithOCR, extractTextWithOCR_try, bind.
    destruct (ensure_tempFolder env'); [reflexivity|].
    now rewrite Hfail.
Qed.

(** C10.  [preprocessImage] returns an image for every buffer; when the
    enhancement pipeline throws on the buffer of a page it returns that
    buffer unchanged, recognition is run on it, and the page yields the
    words recognised in the original image. *)
Theorem C10_preprocessing_failure_falls_back (page : png_page image) (e : Error)
    (Hfail : sharp_enhance env (content page) = inl e) :
  preprocessImage env (content page) = content page /\
  forall n data,
    ensure_tessdata env n = inr tt ->
    recognize env n (content page) = inr data ->
    processPageWithOCR env page n = filterWords data.
Proof.
  assert (Hpre : preprocessImage env (content page) = content page).
  { unfold preprocessImage. now rewrite Hfail. }
  split; [exact Hpre|].
  intros n data Hens Hrec.
  unfold processPageWithOCR, recognizePage, bind.
  now rewrite Hens, Hpre, Hrec.
Qed.
End OCRFacts.

(** The sample run: the text returned and the four fragments. *)
Example demo_run :
  fragments nat demo_env demo_pages = [str "Pos 101 "; []; str "Pos 3 "; str "Pos 104 "] /\
  fst (PDFParser.extractTextWithOCR demo_env demo_scanned)
    = inr (str "Pos 101 Pos 3 Pos 104").
Proof. split; vm_compute; reflexivity. Qed.

Lemma C8_witness_four_pages :
  fst (PDFParser.extractTextWithOCR demo_env demo_scanned)
    = inr (PDFParser.postProcessOCRText (assemble (fragments nat demo_env demo_pages))) /\
  nth_error (fragments nat demo_env demo_pages) 1 = Some [].
Proof.
  destruct (C8_page_failure_contained nat demo_env demo_scanned demo_pages
              eq_refl eq_refl eq_refl (fun _ => eq_refl)) as [H1 [_ [H3 _]]].
  split; [exact H1|].
  exact (H3 1 {| PDFParser.name := str "page.png"; PDFParser.content := 2 |}
            (str "recognition failed") eq_refl eq_refl).
Defined.

Lemma C10_witness_page_three :
  PDFParser.preprocessImage demo_env 3 = 3 /\
  PDFParser.processPageWithOCR demo_env
    {| PDFParser.name := str "page.png"; PDFParser.content := 3 |} 3
  = str "Pos 3 ".
Proof.
  destruct (C10_preprocessing_failure_falls_back nat demo_env
              {| PDFParser.name := str "page.png"; PDFParser.content := 3 |}
              (str "unsupported image format") eq_refl) as [H1 H2].
  split; [exact H1|].
  exact (H2 3 (demo_data 3) eq_refl eq_refl).
Defined.

(* ===================================================================== *)
(** * Further properties of the reconciliation                            *)
(* ===================================================================== *)

Lemma jsstring_eqb_eq (a b : jsstring) : jsstring_eqb a b = true <-> a = b.
Proof.
  revert b. induction a as [|x a IH]; intros [|y b]; simpl; try (split; congruence).
  rewrite andb_true_iff, IH. unfold cu_eqb. rewrite N.eqb_eq.
  split; [intros [-> ->]; reflexivity | intros E; injection E; auto].
Qed.

Lemma jsstring_eqb_refl (a : jsstring) : jsstring_eqb a a = true.
Proof. now apply jsstring_eqb_eq. Qed.

(** ** White space around a code *)

Section TrimFacts.
Variable p : codeunit -> bool.

Lemma dropWhile_all (w x : jsstring) :
  forallb p w = true -> dropWhile p (w ++ x) = dropWhile p x.
Proof.
  induction w as [|c w IH]; simpl; auto.
  intros H. apply andb_true_iff in H. destruct H as [Hc Hw]. now rewrite Hc, IH.
Qed.

Lemma dropWhile_nil_iff (s : jsstring) : dropWhile p s = [] <-> forallb p s = true.
Proof.
  induction s as [|c s IH]; simpl; [tauto|].
  destruct (p c); simpl; [exact IH | split; discriminate].
Qed.

Lemma dropWhile_app_keep (s x : jsstring) :
  dropWhile p s <> [] -> dropWhile p (s ++ x) = dropWhile p s ++ x.
Proof.
  induction s as [|c s IH]; simpl; [congruence|].
  destruct (p c); auto.
Qed.

Lemma forallb_rev (l : jsstring) : forallb p (rev l) = forallb p l.
Proof.
  destruct (forallb p l) eqn:E.
  - apply forallb_forall. intros x Hx. apply in_rev in Hx.
    rewrite forallb_forall in E. auto.
  - destruct (forallb p (rev l)) eqn:E'; auto.
    rewrite forallb_forall in E'.
    assert (forallb p l = true) by (apply forallb_forall; intros x Hx; apply E', in_rev;
                                    now rewrite rev_involutive).
    congruence.
Qed.
End TrimFacts.

(** White space around a text does not survive [trim], and changes
    nothing else. *)
Lemma trim_padding (w1 s w2 : jsstring) :
  forallb isWhiteSpace w1 = true -> forallb isWhiteSpace w2 = true ->
  trim (w1 ++ s ++ w2) = trim s.
Proof.
  intros H1 H2. unfold trim, trimStart, trimEnd.
  rewrite (dropWhile_all isWhiteSpace w1 (s ++ w2) H1).
  destruct (dropWhile isWhiteSpace s) as [|c t] eqn:E.
  - apply dropWhile_nil_iff in E.
    assert (Hall : forallb isWhiteSpace (s ++ w2) = true)
      by (rewrite forallb_app, E, H2; reflexivity).
    apply dropWhile_nil_iff in Hall. now rewrite Hall.
  - rewrite dropWhile_app_keep by (rewrite E; discriminate).
    rewrite E, rev_app_distr, dropWhile_all; [reflexivity|].
    now rewrite forallb_rev.
Qed.

Section ReconciliationFacts.
Import Validator.
Variable rt : runtime.
Variable opts : options.

(** X1.  White space around the code of the row or around the code of the
    extracted item changes neither the status nor the similarity that
    [validateItemCode] returns: both codes are trimmed before they are
    compared. *)
Theorem X1_item_code_ignores_padding (excelCode bcCode w1 w2 w3 w4 : jsstring) :
  forallb isWhiteSpace w1 = true -> forallb isWhiteSpace w2 = true ->
  forallb isWhiteSpace w3 = true -> forallb isWhiteSpace w4 = true ->
  cv_status (validateItemCode rt opts (w1 ++ excelCode ++ w2) (w3 ++ bcCode ++ w4))
  = cv_status (validateItemCode rt opts excelCode bcCode) /\
  cv_similarity (validateItemCode rt opts (w1 ++ excelCode ++ w2) (w3 ++ bcCode ++ w4))
  = cv_similarity (validateItemCode rt opts excelCode bcCode).
Proof.
  intros H1 H2 H3 H4. unfold validateItemCode.
  rewrite (trim_padding w1 excelCode w2 H1 H2), (trim_padding w3 bcCode w4 H3 H4).
  destruct (jsstring_eqb _ _); [split; reflexivity|].
  destruct (ge_value _ _ _); split; reflexivity.
Qed.

Lemma validateItem_overall_cases (excelItem : ExcelItem) (bcItem : option BCItem) :
  let o := v_overall (validation (validateItem rt opts excelItem bcItem)) in
  o = Some OK \/ o = Some WARNING \/ o = Some ERROR.
Proof.
  destruct bcItem as [bc|]; cbn; [|auto].
  unfold overall.
  destruct (status_eqb _ OK && status_eqb _ OK); auto.
  destruct (status_eqb _ ERROR || status_eqb _ ERROR); auto.
Qed.


(** X2.  The result of [validateItem] carries at least one issue whenever
    its overall status is not OK, at most two issues in every case, and
    under an overall OK nothing but notes on an item code accepted by
    similarity. *)
Theorem X2_issues_explain_the_verdict (excelItem : ExcelItem) (bcItem : option BCItem) :
  let r := validateItem rt opts excelItem bcItem in
  (v_overall (validation r) <> Some OK -> issues r <> []) /\
  (v_overall (validation r) = Some OK ->
     forall i, In i (issues r) -> exists s, i = CodeSimilar s) /\
  length (issues r) <= 2.
Proof.
  destruct bcItem as [bc|]; cbn.
  - unfold validateItemCode, validateQty.
    repeat match goal with
           | |- context [if ?c then _ else _] => destruct c
           end; cbn;
    (split; [intros H; congruence || discriminate
            |split; [intros H i Hi; try discriminate;
                     repeat (destruct Hi as [<-|Hi]; eauto); contradiction
                    |lia]]).
  - split; [discriminate|]. split; [discriminate | lia].
Qed.

Lemma validateItem_rowNumber (excelItem : ExcelItem) (bcItem : option BCItem) :
  r_rowNumber (validateItem rt opts excelItem bcItem) = rowNumber excelItem.
Proof. destruct bcItem; reflexivity. Qed.

Lemma find_first (A : Type) (f : A -> bool) (l : list A) (x : A) :
  find f l = Some x ->
  exists before after,
    l = before ++ x :: after /\ f x = true /\ forall i, In i before -> f i = false.
Proof.
  induction l as [|a l IH]; cbn [find]; [discriminate|].
  destruct (f a) eqn:E.
  - intros H. injection H as <-. exists [], l. repeat split; [exact E|]. intros i [].
  - intros H. destruct (IH H) as (before & after & -> & Hx & Hb).
    exists (a :: before), after. repeat split; [exact Hx|].
    intros i [<-|Hi]; auto.
Qed.

(** X3.  [validateBatch] returns one result per row, in the order of the
    rows and under their row numbers.  A row is validated against the
    first item of the parser that carries its serial; a row whose serial
    no item carries gets ERROR for the item code, the quantity and overall,
    with the one issue that the serial is not found. *)
Theorem X3_rows_checked_against_first_item_of_serial
    (excelItems : list ExcelItem) (p : PDFParser.parser) :
  let out := validateBatch rt opts excelItems (PDFParser.findBySeri p) in
  map r_rowNumber (fst out) = map rowNumber excelItems /\
  Forall2 (fun item r =>
     match r_bcData r with
     | Some bc =>
         r = validateItem rt opts item (Some bc) /\
         seri bc = seriBarang item /\
         exists before after,
           PDFParser.items p = before ++ bc :: after /\
           forall i, In i before -> seri i <> seriBarang item
     | None =>
         (forall bc, In bc (PDFParser.items p) -> seri bc <> seriBarang item) /\
         validation r = {| v_itemCode := Some ERROR; v_qty := Some ERROR;
                           v_overall := Some ERROR |} /\
         issues r = [SeriNotFound (seriBarang item)]
     end) excelItems (fst out).
Proof.
  cbn. split.
  - rewrite map_map. apply map_ext. intros item. apply validateItem_rowNumber.
  - induction excelItems as [|item rest IH]; cbn; constructor; [|exact IH].
    unfold PDFParser.findBySeri.
    destruct (find _ (PDFParser.items p)) as [bc|] eqn:E; cbn.
    + apply find_first in E. destruct E as (before & after & Hl & Heq & Hb).
      apply Z.eqb_eq in Heq. split; [reflexivity|]. split; [exact Heq|].
      exists before, after. split; [exact Hl|].
      intros i Hi. apply Z.eqb_neq. now apply Hb.
    + split; [|split; reflexivity].
      intros bc Hin. apply (find_none _ _ E) in Hin. now apply Z.eqb_neq in Hin.
Qed.

(** *** The summary *)

Lemma count_le (f : ValidationResult -> bool) (results : list ValidationResult) :
  count f results <= length results.
Proof. unfold count. apply filter_length_le. Qed.

Lemma count_three (a b c : ValidationResult -> bool) (results : list ValidationResult) :
  Forall (fun r => (a r = true /\ b r = false /\ c r = false) \/
                   (a r = false /\ b r = true /\ c r = false) \/
                   (a r = false /\ b r = false /\ c r = true)) results ->
  count a results + count b results + count c results = length results.
Proof.
  unfold count. induction 1 as [|r l Hr Hl IH]; [reflexivity|].
  cbn [filter length].
  destruct Hr as [(-> & -> & ->)|[(-> & -> & ->)|(-> & -> & ->)]]; cbn [length]; lia.
Qed.

Lemma count_or (a b c : ValidationResult -> bool) (results : list ValidationResult) :
  Forall (fun r => a r = negb (b r || c r)) results ->
  count b results <= length results - count a results /\
  count c results <= length results - count a results /\
  length results - count a results <= count b results + count c results.
Proof.
  unfold count. induction 1 as [|r l Hr Hl IH]; [cbn; lia|].
  cbn [filter length]. rewrite Hr.
  pose proof (filter_length_le a l).
  destruct (b r), (c r); cbn [negb orb length]; lia.
Qed.

Lemma validateItem_ok_iff_no_issue (excelItem : ExcelItem) (bcItem : option BCItem) :
  let v := validation (validateItem rt opts excelItem bcItem) in
  has_status OK (v_overall v) = negb (is_issue (v_itemCode v) || is_issue (v_qty v)).
Proof.
  destruct bcItem as [bc|]; cbn; [|reflexivity].
  destruct (cv_status _), (qv_status _); reflexivity.
Qed.

(** X4.  In the summary of [validateBatch] the total is the number of rows,
    the counts of OK, WARNING and ERROR add up to the total, each of the
    two issue counts is at most the number of rows that are not OK, and
    together they are at least that number. *)
Theorem X4_summary_accounts_for_every_row (excelItems : list ExcelItem)
    (findBySeri : Z -> option BCItem) :
  let s := snd (validateBatch rt opts excelItems findBySeri) in
  total s = length excelItems /\
  ok s + warning s + error s = total s /\
  issues_itemCode s <= total s - ok s /\
  issues_qty s <= total s - ok s /\
  total s - ok s <= issues_itemCode s + issues_qty s.
Proof.
  cbn.
  set (results := map _ excelItems).
  assert (Hlen : length results = length excelItems) by (subst results; apply length_map).
  split; [exact Hlen|]. split.
  - apply count_three. subst results. apply Forall_map, Forall_forall. intros item _.
    destruct (validateItem_overall_cases item (findBySeri (seriBarang item)))
      as [H|[H|H]]; cbn in H; rewrite H; cbn; auto.
  - apply (count_or (fun r => has_status OK (v_overall (validation r)))
                    (fun r => is_issue (v_itemCode (validation r)))
                    (fun r => is_issue (v_qty (validation r)))).
    subst results. apply Forall_map, Forall_forall. intros item _.
    apply validateItem_ok_iff_no_issue.
Qed.

End ReconciliationFacts.

(** The success rate lies between 0 and 100; it is 100 exactly when every
    result is OK, and 0 for an empty batch. *)
Lemma generateSummary_rate (results : list ValidationResult) :
  let s := Validator.generateSummary results in
  Validator.ok s <= Validator.total s /\
  (0 <= Validator.successRate s)%Q /\
  (Validator.successRate s <= 100)%Q /\
  (Validator.total s = 0 -> Validator.successRate s = 0%Q) /\
  (0 < Validator.total s ->
     (Validator.successRate s == 100)%Q <-> Validator.ok s = Validator.total s).
Proof.
  cbn.
  set (k := Validator.count _ results).
  assert (Hk : k <= length results) by (subst k; apply count_le).
  split; [exact Hk|].
  destruct (length results) as [|n] eqn:Hn.
  - cbn. repeat split; try discriminate; try lia.
  - replace (0 <? S n) with true by reflexivity.
    assert (E : (Qred (inject_Z (Z.of_nat k) / inject_Z (Z.of_nat (S n)) * 100)
                 == inject_Z (Z.of_nat k) / inject_Z (Z.of_nat (S n)) * 100)%Q)
      by apply Qred_correct.
    assert (Hpos : (0 < inject_Z (Z.of_nat (S n)))%Q)
      by (change 0%Q with (inject_Z 0); rewrite <- Zlt_Qlt; lia).
    split; [|split; [|split]].
    + rewrite E. apply Qmult_le_0_compat; [|discriminate].
      apply Qle_shift_div_l; [exact Hpos|].
      rewrite Qmult_0_l. change 0%Q with (inject_Z 0). rewrite <- Zle_Qle. lia.
    + rewrite E.
      setoid_replace (100%Q) with (1 * 100)%Q at 2 by reflexivity.
      apply Qmult_le_compat_r; [|discriminate].
      apply Qle_shift_div_r; [exact Hpos|].
      rewrite Qmult_1_l. rewrite <- Zle_Qle. lia.
    + discriminate.
    + intros _. rewrite E. split.
      * intros H.
        assert (H1 : (inject_Z (Z.of_nat k) / inject_Z (Z.of_nat (S n)) == 1)%Q).
        { apply (Qmult_inj_r _ _ 100); [discriminate|]. rewrite H. reflexivity. }
        apply (Qmult_inj_r _ _ (inject_Z (Z.of_nat (S n)))) in H1;
          [|intros Hz; rewrite Hz in Hpos; discriminate].
        rewrite Qmult_1_l in H1. unfold Qdiv in H1.
        rewrite <- Qmult_assoc, (Qmult_comm (/ _)), Qmult_inv_r, Qmult_1_r in H1
          by (intros Hz; rewrite Hz in Hpos; discriminate).
        unfold Qeq in H1. cbn [inject_Z Qnum Qden] in H1. lia.
      * intros ->. unfold Qdiv. rewrite Qmult_inv_r; [reflexivity|].
        intros Hz; rewrite Hz in Hpos; discriminate.
Qed.

(** ** Grouping of the reference rows *)

Section GroupingFacts.
Import Validator.

(** *** The key of a group *)

Lemma uint_no_underscore (d : Decimal.uint) :
  ~ In 95%N (map N_of_ascii (list_ascii_of_string (NilEmpty.string_of_uint d))).
Proof.
  induction d; cbn; [intros [] | ..]; (intros [H|H]; [discriminate | auto]).
Qed.

Lemma int_no_underscore (z : Z) : ~ In 95%N (int_to_jsstring z).
Proof.
  unfold int_to_jsstring, NilZero.string_of_int.
  assert (Hu : forall d,
             ~ In 95%N (map N_of_ascii (list_ascii_of_string (NilZero.string_of_uint d)))).
  { intros d. unfold NilZero.string_of_uint.
    destruct d; try apply uint_no_underscore.
    cbn. intros [H|[]]; discriminate. }
  destruct (Z.to_int z) as [d|d]; [apply Hu|].
  cbn. intros [H|H]; [discriminate | exact (Hu d H)].
Qed.

Lemma map_N_of_ascii_inj (a b : list ascii) :
  map N_of_ascii a = map N_of_ascii b -> a = b.
Proof.
  revert b. induction a as [|x a IH]; intros [|y b]; cbn; try congruence.
  intros E. injection E as Hxy Hab. f_equal; [|auto].
  rewrite <- (ascii_N_embedding x), <- (ascii_N_embedding y). now rewrite Hxy.
Qed.

Lemma int_to_jsstring_inj (a b : Z) : int_to_jsstring a = int_to_jsstring b -> a = b.
Proof.
  unfold int_to_jsstring. intros E. apply map_N_of_ascii_inj in E.
  assert (Es : NilZero.string_of_int (Z.to_int a) = NilZero.string_of_int (Z.to_int b)).
  { rewrite <- (string_of_list_ascii_of_string (NilZero.string_of_int (Z.to_int a))),
            <- (string_of_list_ascii_of_string (NilZero.string_of_int (Z.to_int b))).
    now rewrite E. }
  assert (Hn : forall z, Z.to_int z <> Decimal.Pos Decimal.Nil /\
                         Z.to_int z <> Decimal.Neg Decimal.Nil).
  { intros [|q|q]; cbn; split; try discriminate;
      intros H; injection H as H; exact (Unsigned.to_uint_nonnil q H). }
  apply DecimalZ.to_int_inj.
  pose proof (NilZero.isi (Z.to_int a) (proj1 (Hn a)) (proj2 (Hn a))) as Ha.
  pose proof (NilZero.isi (Z.to_int b) (proj1 (Hn b)) (proj2 (Hn b))) as Hb.
  rewrite Es, Hb in Ha. now injection Ha.
Qed.

(** The last occurrence of a separator splits a text in one way only. *)
Lemma split_at_last (c : codeunit) (u1 u2 v1 v2 : jsstring) :
  ~ In c v1 -> ~ In c v2 -> u1 ++ c :: v1 = u2 ++ c :: v2 -> u1 = u2 /\ v1 = v2.
Proof.
  revert u2. induction u1 as [|x u1 IH]; intros [|y u2] H1 H2 E; cbn in E.
  - injection E as E. auto.
  - injection E as <- E. exfalso. apply H1. rewrite E. apply in_or_app. right. now left.
  - injection E as -> E. exfalso. apply H2. rewrite <- E. apply in_or_app. right. now left.
  - injection E as -> E. destruct (IH u2 H1 H2 E) as [-> ->]. auto.
Qed.

Lemma group_key_inj (a b : ExcelItem) :
  group_key a = group_key b <->
  ajuNumber a = ajuNumber b /\ seriBarang a = seriBarang b.
Proof.
  unfold group_key. split.
  - intros E. change (str "_") with [95%N] in E. cbn [app] in E.
    apply split_at_last in E; try apply int_no_underscore.
    destruct E as [Ha Hs]. split; [exact Ha | now apply int_to_jsstring_inj].
  - intros [-> ->]. reflexivity.
Qed.

Lemma same_group_iff (a b : ExcelItem) :
  same_group a b = true <->
  ajuNumber a = ajuNumber b /\ seriBarang a = seriBarang b.
Proof.
  unfold same_group. now rewrite andb_true_iff, jsstring_eqb_eq, Z.eqb_eq.
Qed.

Lemma key_eqb_same_group (a b : ExcelItem) :
  jsstring_eqb (group_key a) (group_key b) = same_group a b.
Proof.
  destruct (same_group a b) eqn:E.
  - apply jsstring_eqb_eq, group_key_inj, same_group_iff, E.
  - destruct (jsstring_eqb _ _) eqn:E'; [|reflexivity].
    apply jsstring_eqb_eq, group_key_inj, same_group_iff in E'. congruence.
Qed.

Lemma same_group_refl (a : ExcelItem) : same_group a a = true.
Proof. now apply same_group_iff. Qed.

Lemma same_group_sym (a b : ExcelItem) : same_group a b = same_group b a.
Proof.
  destruct (same_group a b) eqn:E, (same_group b a) eqn:E'; auto.
  - apply same_group_iff in E. destruct E as [E1 E2].
    assert (same_group b a = true) by (apply same_group_iff; auto). congruence.
  - apply same_group_iff in E'. destruct E' as [E1 E2].
    assert (same_group a b = true) by (apply same_group_iff; auto). congruence.
Qed.

(** Rows of one group are grouped with the same rows. *)
Lemma same_group_ext (a b c : ExcelItem) :
  same_group a b = true -> same_group a c = same_group b c.
Proof.
  intros H. apply same_group_iff in H. destruct H as [H1 H2].
  unfold same_group. now rewrite H1, H2.
Qed.

Lemma existsb_same_group_ext (a b : ExcelItem) (l : list ExcelItem) :
  same_group a b = true -> existsb (same_group a) l = existsb (same_group b) l.
Proof.
  intros H. induction l as [|c l IH]; [reflexivity|].
  cbn. now rewrite IH, (same_group_ext a b c H).
Qed.

(** *** The rows that open a group *)

Lemma leaders_from_snoc (x : ExcelItem) : forall items before,
  leaders_from before (items ++ [x]) =
  leaders_from before items
  ++ (if existsb (same_group x) (before ++ items) then [] else [x]).
Proof.
  induction items as [|a items IH]; intros before; cbn [app leaders_from].
  - now rewrite !app_nil_r.
  - rewrite IH, <- !app_assoc. reflexivity.
Qed.

Lemma leaders_from_fresh : forall items before,
  Forall (fun l => existsb (same_group l) before = false) (leaders_from before items).
Proof.
  induction items as [|a items IH]; intros before; cbn [leaders_from]; [constructor|].
  apply Forall_app. split.
  - destruct (existsb (same_group a) before) eqn:E; constructor; [exact E | constructor].
  - eapply Forall_impl; [|apply IH]. cbn. intros l Hl.
    rewrite existsb_app in Hl. apply orb_false_iff in Hl. tauto.
Qed.

Lemma leaders_from_distinct : forall items before,
  distinct_groups (leaders_from before items).
Proof.
  unfold distinct_groups.
  induction items as [|a items IH]; intros before; cbn [leaders_from]; [constructor|].
  destruct (existsb (same_group a) before); cbn [app]; [apply IH|].
  constructor; [|apply IH].
  eapply Forall_impl; [|apply (leaders_from_fresh items (before ++ [a]))].
  cbn. intros l Hl. rewrite existsb_app in Hl. apply orb_false_iff in Hl.
  destruct Hl as [_ Hl]. cbn in Hl. rewrite orb_false_r in Hl.
  now rewrite same_group_sym.
Qed.

(** A row has a row of its group before it exactly when a leader is. *)
Lemma leaders_from_cover (x : ExcelItem) : forall items before,
  existsb (same_group x) (before ++ leaders_from before items)
  = existsb (same_group x) (before ++ items).
Proof.
  induction items as [|a items IH]; intros before; cbn [leaders_from]; [reflexivity|].
  specialize (IH (before ++ [a])).
  rewrite <- !app_assoc in IH. cbn [app] in IH.
  rewrite <- IH. rewrite !existsb_app. cbn [existsb].
  destruct (existsb (same_group a) before) eqn:E; cbn [app existsb];
    rewrite ?orb_false_r; [|reflexivity].
  destruct (same_group x a) eqn:Ex; [|reflexivity].
  rewrite (existsb_same_group_ext x a before Ex), E. reflexivity.
Qed.

Lemma leaders_cover (x : ExcelItem) (items : list ExcelItem) :
  existsb (same_group x) (leaders items) = existsb (same_group x) items.
Proof. exact (leaders_from_cover x items []). Qed.

(** *** The object [groups] *)

Lemma group_of_snoc (l x : ExcelItem) (items : list ExcelItem) :
  group_of l (items ++ [x]) =
  group_of l items ++ (if same_group l x then [x] else []).
Proof. unfold group_of. rewrite filter_app. reflexivity. Qed.

Lemma group_of_none (x : ExcelItem) (items : list ExcelItem) :
  existsb (same_group x) items = false -> group_of x items = [].
Proof.
  unfold group_of. induction items as [|a items IH]; cbn; [reflexivity|].
  intros H. apply orb_false_iff in H. destruct H as [-> H]. auto.
Qed.

Lemma push_group_spec (x : ExcelItem) (G : ExcelItem -> list ExcelItem) :
  forall ls : list ExcelItem,
    distinct_groups ls ->
    push_group (group_key x) x (map (fun l => (group_key l, G l)) ls) =
    map (fun l => (group_key l, G l ++ (if same_group l x then [x] else []))) ls
    ++ (if existsb (same_group x) ls then [] else [(group_key x, [x])]).
Proof.
  unfold distinct_groups.
  induction ls as [|l ls IH]; intros Hd; [reflexivity|].
  inversion Hd as [|? ? Hl Hls]; subst.
  cbn [map push_group existsb app]. rewrite key_eqb_same_group.
  rewrite (same_group_sym x l).
  destruct (same_group l x) eqn:E; cbn [orb].
  - rewrite app_nil_r. f_equal. apply map_ext_in. intros l' Hin.
    rewrite Forall_forall in Hl. specialize (Hl l' Hin).
    rewrite (same_group_sym l' x), <- (same_group_ext l x l' E), Hl.
    now rewrite app_nil_r.
  - rewrite app_nil_r. f_equal. apply IH, Hls.
Qed.

Lemma group_items_snoc (items : list ExcelItem) (x : ExcelItem) :
  group_items (items ++ [x]) = push_group (group_key x) x (group_items items).
Proof. unfold group_items. now rewrite fold_left_app. Qed.

(** The object [groups] holds, under each key and in the order of the
    first rows, the rows of the group in the order of the sheet. *)
Lemma group_items_spec (items : list ExcelItem) : group_items items = groups_spec items.
Proof.
  induction items as [|x items IH] using rev_ind; [reflexivity|].
  rewrite group_items_snoc, IH. unfold groups_spec.
  rewrite push_group_spec by apply leaders_from_distinct.
  unfold leaders. rewrite leaders_from_snoc. cbn [app].
  rewrite map_app. fold (leaders items). rewrite leaders_cover.
  f_equal.
  - apply map_ext. intros l. now rewrite group_of_snoc.
  - destruct (existsb (same_group x) items) eqn:E; [reflexivity|].
    cbn [map]. rewrite group_of_snoc, same_group_refl, (group_of_none x items E).
    reflexivity.
Qed.

(** *** The rows handed on *)

Lemma group_of_same (items : list ExcelItem) (l y : ExcelItem) :
  same_group l y = true -> group_of y items = group_of l items.
Proof.
  intros H. unfold group_of. apply filter_ext. intros z.
  symmetry. apply same_group_ext, H.
Qed.

Lemma process_group_annotated (items : list ExcelItem) (l : ExcelItem) :
  process_group (group_of l items) = map (annotated items) (group_of l items).
Proof.
  assert (Hg : forall y, In y (group_of l items) -> group_of y items = group_of l items).
  { intros y Hy. apply group_of_same. unfold group_of in Hy.
    apply filter_In in Hy. tauto. }
  unfold annotated.
  destruct (group_of l items) as [|a [|b g]] eqn:E; [reflexivity| |].
  - cbn [process_group map]. rewrite (Hg a) by (now left). reflexivity.
  - unfold process_group. apply map_ext_in. intros y Hy. rewrite (Hg y Hy). reflexivity.
Qed.

Lemma processDuplicateSeri_spec (opts : options) (items : list ExcelItem) :
  allowMultiItemSameSeri opts = true ->
  processDuplicateSeri opts items =
  flat_map (fun l => map (annotated items) (group_of l items)) (leaders items).
Proof.
  intros H. unfold processDuplicateSeri. rewrite H. cbn [negb].
  rewrite group_items_spec. unfold groups_spec.
  induction (leaders items) as [|l ls IH]; [reflexivity|].
  cbn [map flat_map snd]. now rewrite IH, process_group_annotated.
Qed.

(** *** No row is lost *)

Lemma flat_map_app_perm (X Y : ExcelItem -> list ExcelItem) (ls : list ExcelItem) :
  Permutation (flat_map (fun l => X l ++ Y l) ls) (flat_map X ls ++ flat_map Y ls).
Proof.
  induction ls as [|l ls IH]; [constructor|].
  cbn [flat_map]. rewrite IH, <- !app_assoc.
  apply Permutation_app_head.
  rewrite !app_assoc. apply Permutation_app_tail, Permutation_app_comm.
Qed.

Lemma one_leader (a : ExcelItem) (ls : list ExcelItem) :
  distinct_groups ls -> existsb (same_group a) ls = true ->
  flat_map (fun l => if same_group l a then [a] else []) ls = [a].
Proof.
  unfold distinct_groups. induction 1 as [|l ls Hl Hls IH]; [discriminate|].
  cbn [existsb flat_map]. rewrite (same_group_sym a l).
  destruct (same_group l a) eqn:E; cbn [orb app].
  - intros _. f_equal.
    assert (Hnone : forall l', In l' ls -> same_group l' a = false).
    { intros l' Hin. rewrite Forall_forall in Hl. specialize (Hl l' Hin).
      rewrite same_group_sym, <- (same_group_ext l a l' E). exact Hl. }
    clear -Hnone. induction ls as [|l' ls IH]; [reflexivity|].
    cbn [flat_map]. rewrite (Hnone l') by (now left). apply IH.
    intros l'' Hin. apply Hnone. now right.
  - exact IH.
Qed.

Lemma groups_partition (ls : list ExcelItem) :
  distinct_groups ls ->
  forall items : list ExcelItem,
    (forall a, In a items -> existsb (same_group a) ls = true) ->
    Permutation (flat_map (fun l => group_of l items) ls) items.
Proof.
  intros Hd. induction items as [|a items IH]; intros Hcov.
  - clear. induction ls as [|l ls IH]; cbn; [apply perm_nil | exact IH].
  - assert (E : flat_map (fun l => group_of l (a :: items)) ls =
                flat_map (fun l => (if same_group l a then [a] else [])
                                   ++ group_of l items) ls).
    { apply flat_map_ext. intros l. unfold group_of. cbn [filter].
      destruct (same_group l a); reflexivity. }
    rewrite E, flat_map_app_perm.
    rewrite (one_leader a ls Hd) by (apply Hcov; now left).
    cbn [app]. constructor. apply IH. intros b Hb. apply Hcov. now right.
Qed.

Lemma leaders_partition (items : list ExcelItem) :
  Permutation (flat_map (fun l => group_of l items) (leaders items)) items.
Proof.
  apply groups_partition; [apply leaders_from_distinct|].
  intros a Ha. rewrite leaders_cover.
  apply existsb_exists. exists a. split; [exact Ha | apply same_group_refl].
Qed.

Lemma flat_map_map_out (f : ExcelItem -> ExcelItem) (G : ExcelItem -> list ExcelItem)
    (ls : list ExcelItem) :
  flat_map (fun l => map f (G l)) ls = map f (flat_map G ls).
Proof.
  induction ls as [|l ls IH]; [reflexivity|].
  cbn [flat_map]. now rewrite map_app, IH.
Qed.

Lemma processDuplicateSeri_perm (opts : options) (items : list ExcelItem) :
  allowMultiItemSameSeri opts = true ->
  Permutation (processDuplicateSeri opts items) (map (annotated items) items).
Proof.
  intros H. rewrite (processDuplicateSeri_spec opts items H), flat_map_map_out.
  apply Permutation_map, leaders_partition.
Qed.

End GroupingFacts.

(** *** A second pass over rows already grouped *)

Section RegroupingFacts.
Import Validator.
Variable items : list ExcelItem.

Lemma annotate_same_group_l (x y : ExcelItem) (q : number) (d : bool) (c : option nat) :
  same_group (annotate x q d c) y = same_group x y.
Proof. reflexivity. Qed.

Lemma annotated_same_group_l (x y : ExcelItem) :
  same_group (annotated items x) y = same_group x y.
Proof. unfold annotated. destruct (_ =? 1); reflexivity. Qed.

Lemma annotated_same_group_r (x y : ExcelItem) :
  same_group y (annotated items x) = same_group y x.
Proof. now rewrite same_group_sym, annotated_same_group_l, same_group_sym. Qed.

Lemma annotated_qty (x : ExcelItem) : qty (annotated items x) = qty x.
Proof. unfold annotated. destruct (_ =? 1); reflexivity. Qed.

Lemma filter_map_annotated (x : ExcelItem) (g : list ExcelItem) :
  filter (same_group x) (map (annotated items) g)
  = map (annotated items) (filter (same_group x) g).
Proof.
  induction g as [|a g IH]; [reflexivity|].
  cbn [map filter]. rewrite annotated_same_group_r.
  destruct (same_group x a); cbn [map]; now rewrite IH.
Qed.

Lemma group_of_group_of (x l : ExcelItem) :
  group_of x (group_of l items) = if same_group l x then group_of l items else [].
Proof.
  unfold group_of. destruct (same_group l x) eqn:E.
  - induction items as [|a g IH]; [reflexivity|].
    cbn [filter]. destruct (same_group l a) eqn:Ea; [|exact IH].
    cbn [filter]. rewrite <- (same_group_ext l x a E), Ea. now rewrite IH.
  - induction items as [|a g IH]; [reflexivity|].
    cbn [filter]. destruct (same_group l a) eqn:Ea; [|exact IH].
    cbn [filter]. destruct (same_group x a) eqn:Exa; [|exact IH].
    exfalso. rewrite (same_group_sym x a) in Exa.
    rewrite (same_group_sym l x), <- (same_group_ext a x l Exa), same_group_sym in E.
    congruence.
Qed.

Lemma select_group (x : ExcelItem) (g : list ExcelItem) (ls : list ExcelItem) :
  distinct_groups ls ->
  flat_map (fun l => if same_group l x then g else []) ls
  = if existsb (same_group x) ls then g else [].
Proof.
  unfold distinct_groups. induction 1 as [|l ls Hl Hls IH]; [reflexivity|].
  cbn [flat_map existsb]. rewrite (same_group_sym x l).
  destruct (same_group l x) eqn:E; cbn [orb app]; [|exact IH].
  rewrite IH.
  replace (existsb (same_group x) ls) with false; [apply app_nil_r|].
  symmetry. apply not_true_is_false. intros Hex.
  apply existsb_exists in Hex. destruct Hex as [l' [Hin Hl']].
  rewrite Forall_forall in Hl. specialize (Hl l' Hin).
  rewrite (same_group_ext l x l' E) in Hl. congruence.
Qed.

(** The group of a row among the rows handed on is its group among the
    rows received. *)
Lemma group_of_processed (x : ExcelItem) :
  group_of x (flat_map (fun l => map (annotated items) (group_of l items)) (leaders items))
  = map (annotated items) (group_of x items).
Proof.
  rewrite flat_map_map_out.
  unfold group_of at 1. rewrite filter_map_annotated. f_equal.
  change (filter (same_group x)) with (group_of x).
  assert (E : forall ls,
             group_of x (flat_map (fun l => group_of l items) ls)
             = flat_map (fun l => if same_group l x then group_of x items else []) ls).
  { induction ls as [|l ls IH]; [reflexivity|].
    cbn [flat_map]. unfold group_of at 1. rewrite filter_app.
    change (filter (same_group x)) with (group_of x).
    rewrite IH, group_of_group_of.
    destruct (same_group l x) eqn:El; [|reflexivity].
    now rewrite (group_of_same items l x El). }
  rewrite E, select_group by apply leaders_from_distinct.
  rewrite leaders_cover.
  destruct (existsb (same_group x) items) eqn:Ex; [reflexivity|].
  symmetry. now apply group_of_none.
Qed.

Lemma sum_qty_map_annotated (g : list ExcelItem) :
  sum_qty (map (annotated items) g) = sum_qty g.
Proof.
  unfold sum_qty. generalize (Num 0).
  induction g as [|a g IH]; intros acc; [reflexivity|].
  cbn [map fold_left]. now rewrite annotated_qty, IH.
Qed.

Lemma leaders_from_app (u v : list ExcelItem) : forall before,
  leaders_from before (u ++ v) = leaders_from before u ++ leaders_from (before ++ u) v.
Proof.
  induction u as [|a u IH]; intros before; cbn [app leaders_from].
  - now rewrite app_nil_r.
  - rewrite IH, <- !app_assoc. reflexivity.
Qed.

Lemma leaders_from_known (u : list ExcelItem) : forall before,
  Forall (fun z => existsb (same_group z) before = true) u ->
  leaders_from before u = [].
Proof.
  induction u as [|a u IH]; intros before H; [reflexivity|].
  inversion H as [|? ? Ha Hu]; subst.
  cbn [leaders_from]. rewrite Ha. cbn [app]. apply IH.
  eapply Forall_impl; [|exact Hu]. cbn. intros z Hz.
  rewrite existsb_app, Hz. reflexivity.
Qed.

(** The leaders of a list made of one block per group. *)
Lemma leaders_blocks (B : ExcelItem -> list ExcelItem) :
  forall (ls before : list ExcelItem),
    distinct_groups ls ->
    Forall (fun l => existsb (same_group l) before = false) ls ->
    Forall (fun l => B l <> [] /\ Forall (fun z => same_group l z = true) (B l)) ls ->
    Forall2 (fun a l => same_group l a = true) (leaders_from before (flat_map B ls)) ls.
Proof.
  unfold distinct_groups.
  induction ls as [|l ls IH]; intros before Hd Hfresh HB; [constructor|].
  inversion Hd as [|? ? Hl Hls]; subst.
  inversion Hfresh as [|? ? Hf Hfs]; subst.
  inversion HB as [|? ? [Hne Hall] HBs]; subst.
  cbn [flat_map]. rewrite leaders_from_app.
  destruct (B l) as [|z0 zs] eqn:EB; [congruence|].
  inversion Hall as [|? ? Hz0 Hzs]; subst.
  cbn [leaders_from].
  rewrite <- (existsb_same_group_ext l z0 before Hz0), Hf.
  rewrite leaders_from_known.
  - cbn [app]. constructor; [exact Hz0|].
    apply IH; auto.
    rewrite Forall_forall in *. intros l' Hin.
    rewrite existsb_app, (Hfs l' Hin). cbn [orb].
    apply not_true_is_false. intros Hex.
    apply existsb_exists in Hex. destruct Hex as [z [Hz Hlz]].
    assert (Hlz0 : same_group l z = true).
    { destruct Hz as [<-|Hz]; [exact Hz0 | exact (Hzs z Hz)]. }
    specialize (Hl l' Hin).
    rewrite (same_group_ext l z l' Hlz0), same_group_sym in Hl. congruence.
  - eapply Forall_impl; [|exact Hzs]. cbn. intros z Hz.
    rewrite existsb_app. cbn [existsb].
    rewrite (same_group_sym z z0), <- (same_group_ext l z0 z Hz0), Hz.
    now rewrite orb_true_r.
Qed.

Lemma leaders_from_incl : forall (l : list ExcelItem) before x,
  In x (leaders_from before l) -> In x l.
Proof.
  induction l as [|a l IH]; intros before x; cbn [leaders_from]; [tauto|].
  intros H. apply in_app_or in H. destruct H as [H|H].
  - destruct (existsb _ before); [contradiction|]. destruct H as [<-|[]]. now left.
  - right. eapply IH, H.
Qed.

Lemma group_of_annotated (y : ExcelItem) :
  group_of (annotated items y)
    (flat_map (fun l => map (annotated items) (group_of l items)) (leaders items))
  = map (annotated items) (group_of y items).
Proof.
  rewrite group_of_processed. f_equal.
  unfold group_of. apply filter_ext. apply annotated_same_group_l.
Qed.

Lemma annotated_annotated (y : ExcelItem) :
  annotated (flat_map (fun l => map (annotated items) (group_of l items)) (leaders items))
            (annotated items y)
  = annotated items y.
Proof.
  unfold annotated at 1. cbv zeta. rewrite !group_of_annotated.
  rewrite sum_qty_map_annotated, !length_map, annotated_qty.
  unfold annotated.
  destruct (length (group_of y items) =? 1); reflexivity.
Qed.

Lemma flat_map_related (R : ExcelItem -> ExcelItem -> Prop)
    (F G : ExcelItem -> list ExcelItem) (ls' ls : list ExcelItem) :
  Forall2 R ls' ls -> (forall a l, R a l -> F a = G l) ->
  flat_map F ls' = flat_map G ls.
Proof.
  intros H HFG. induction H as [|a l ls' ls Hal H IH]; [reflexivity|].
  cbn [flat_map]. now rewrite IH, (HFG a l Hal).
Qed.

(** X6.  [processDuplicateSeri] is idempotent: on its own output it returns
    that output, rows, order and annotations. *)
Theorem X6_grouping_twice_is_grouping_once (opts : options) :
  processDuplicateSeri opts (processDuplicateSeri opts items)
  = processDuplicateSeri opts items.
Proof.
  destruct (allowMultiItemSameSeri opts) eqn:Hallow.
  2: { unfold processDuplicateSeri. rewrite Hallow. reflexivity. }
  rewrite (processDuplicateSeri_spec opts items Hallow).
  set (out := flat_map _ (leaders items)).
  rewrite (processDuplicateSeri_spec opts out Hallow).
  assert (HL : Forall2 (fun a l => same_group l a = true) (leaders out) (leaders items)).
  { apply leaders_blocks.
    - apply leaders_from_distinct.
    - apply Forall_forall. reflexivity.
    - apply Forall_forall. intros l Hl. apply leaders_from_incl in Hl. split.
      + assert (Hin : In l (group_of l items))
          by (apply filter_In; split; [exact Hl | apply same_group_refl]).
        intros E. apply (in_map (annotated items)) in Hin. rewrite E in Hin. exact Hin.
      + apply Forall_map, Forall_forall. intros z Hz.
        apply filter_In in Hz. now rewrite annotated_same_group_r. }
  apply (flat_map_related _ _ _ _ _ HL).
  intros a l Hal. subst out.
  rewrite group_of_processed, map_map.
  rewrite (group_of_same items l a Hal).
  apply map_ext. intros y. apply annotated_annotated.
Qed.

End RegroupingFacts.

(** *** Grouping and verdicts *)

Lemma filter_length_perm (f : ValidationResult -> bool) (l l' : list ValidationResult) :
  Permutation l l' -> length (filter f l) = length (filter f l').
Proof.
  induction 1 as [|x l l' H IH|x y l|l l' l'' H1 IH1 H2 IH2]; cbn [filter]; auto.
  - destruct (f x); cbn [length]; now rewrite IH.
  - destruct (f x), (f y); reflexivity.
  - now rewrite IH1.
Qed.

Lemma generateSummary_perm (l l' : list ValidationResult) :
  Permutation l l' -> Validator.generateSummary l = Validator.generateSummary l'.
Proof.
  intros H. unfold Validator.generateSummary, Validator.count.
  rewrite !(filter_length_perm _ l l' H), (Permutation_length H). reflexivity.
Qed.

(** X7.  Passing the rows through [processDuplicateSeri] before
    [validateBatch], as the callers do, changes no result: the results are
    those of the rows as given, up to their order, and the summary is the
    same. *)
Theorem X7_grouping_changes_no_verdict (rt : Validator.runtime) (opts : Validator.options)
    (items : list ExcelItem) (findBySeri : Z -> option BCItem) :
  let grouped :=
    Validator.validateBatch rt opts (Validator.processDuplicateSeri opts items) findBySeri in
  let direct := Validator.validateBatch rt opts items findBySeri in
  Permutation (fst grouped) (fst direct) /\ snd grouped = snd direct.
Proof.
  cbn.
  assert (HP : Permutation
                 (map (fun excelItem =>
                         Validator.validateItem rt opts excelItem
                           (findBySeri (seriBarang excelItem)))
                      (Validator.processDuplicateSeri opts items))
                 (map (fun excelItem =>
                         Validator.validateItem rt opts excelItem
                           (findBySeri (seriBarang excelItem)))
                      items)).
  { destruct (Validator.allowMultiItemSameSeri opts) eqn:Hallow.
    - rewrite (Permutation_map _ (processDuplicateSeri_perm opts items Hallow)).
      rewrite map_map. apply Permutation_refl'. apply map_ext. intros x.
      unfold annotated. destruct (_ =? 1); apply validateItem_ignores_qtyToCheck.
    - unfold Validator.processDuplicateSeri. rewrite Hallow. reflexivity. }
  split; [exact HP | apply generateSummary_perm, HP].
Qed.

(* ===================================================================== *)
(** * Further properties of the document parser                           *)
(* ===================================================================== *)

(** ** Occurrences of a text *)

Lemma startsWith_refl_app (p b : jsstring) : startsWith p (p ++ b) = true.
Proof.
  induction p as [|c p IH]; [reflexivity|].
  cbn. unfold cu_eqb. now rewrite N.eqb_refl, IH.
Qed.

Lemma includes_app_l (p a s : jsstring) : includes p s = true -> includes p (a ++ s) = true.
Proof.
  intros H. induction a as [|c a IH]; [exact H|].
  cbn [app includes]. rewrite IH. apply orb_true_r.
Qed.

Lemma includes_start (p s : jsstring) : startsWith p s = true -> includes p s = true.
Proof. intros H. destruct s; cbn [includes]; now rewrite H. Qed.

Lemma includes_here (p a b : jsstring) : includes p (a ++ p ++ b) = true.
Proof. apply includes_app_l, includes_start, startsWith_refl_app. Qed.

(** ** Document type and table section *)

Section DocumentTypeFacts.
Import PDFParser.

Lemma detectDocumentType_cases (p : parser) :
  detectDocumentType p = str "BC2.3" \/
  detectDocumentType p = str "BC4.0" \/
  detectDocumentType p = str "Unknown".
Proof.
  unfold detectDocumentType.
  destruct (existsb _ bc23Patterns); auto. destruct (existsb _ bc40Patterns); auto.
Qed.

Lemma detectDocumentType_BC23 (p : parser) (pattern : jsstring) :
  In pattern bc23Patterns -> includes pattern (fullText p) = true ->
  detectDocumentType p = str "BC2.3".
Proof.
  intros Hin Hinc. unfold detectDocumentType.
  replace (existsb _ bc23Patterns) with true; [reflexivity|].
  symmetry. apply existsb_exists. eauto.
Qed.

Lemma findTableSection_keyword (p : parser) (keyword : jsstring) :
  In keyword keywords -> includes keyword (fullText p) = true ->
  findTableSection p = true.
Proof.
  intros Hin Hinc. unfold findTableSection.
  assert (Hf : In keyword (filter (fun k => includes k (fullText p)) keywords))
    by (apply filter_In; auto).
  destruct (filter _ keywords); [contradiction | reflexivity].
Qed.

(** X8.  [detectDocumentType] returns 'BC2.3', 'BC4.0' or 'Unknown'.  A text
    that contains one of the four spellings of BC 2.3 is 'BC2.3', whatever
    else it contains; 'BC4.0' needs a spelling of BC 4.0 and no spelling of
    BC 2.3; 'Unknown' is returned exactly when none of the eight spellings
    occurs.  With 'BC 2.3', 'BC 23' or 'BC23' in the text (they are table
    keywords as well) the table section is found and [parseItems] returns
    a list. *)
Theorem X8_document_type_from_spellings (p : parser) :
  (detectDocumentType p = str "BC2.3" \/
   detectDocumentType p = str "BC4.0" \/
   detectDocumentType p = str "Unknown") /\
  (forall pattern before after,
     In pattern bc23Patterns ->
     fullText p = before ++ pattern ++ after ->
     detectDocumentType p = str "BC2.3") /\
  (detectDocumentType p = str "BC4.0" ->
     (forall pattern, In pattern bc23Patterns -> includes pattern (fullText p) = false) /\
     exists pattern, In pattern bc40Patterns /\ includes pattern (fullText p) = true) /\
  (detectDocumentType p = str "Unknown" <->
     forall pattern, In pattern (bc23Patterns ++ bc40Patterns) ->
                     includes pattern (fullText p) = false) /\
  (forall pattern,
     In pattern [str "BC 2.3"; str "BC 23"; str "BC23"] ->
     includes pattern (fullText p) = true ->
     detectDocumentType p = str "BC2.3" /\ findTableSection p = true /\
     exists l, fst (fst (parseItems p)) = inr l).
Proof.
  split; [apply detectDocumentType_cases|]. split; [|split; [|split]].
  - intros pattern before after Hin E. apply (detectDocumentType_BC23 p pattern Hin).
    rewrite E. apply includes_here.
  - unfold detectDocumentType.
    destruct (existsb _ bc23Patterns) eqn:E23; [discriminate|].
    destruct (existsb _ bc40Patterns) eqn:E40; [|discriminate].
    intros _. split.
    + intros pattern Hin. apply not_true_is_false. intros Hinc.
      assert (existsb (fun pt => includes pt (fullText p)) bc23Patterns = true)
        by (apply existsb_exists; eauto).
      congruence.
    + apply existsb_exists in E40. destruct E40 as [pt [H1 H2]]. eauto.
  - unfold detectDocumentType. split.
    + destruct (existsb _ bc23Patterns) eqn:E23; [discriminate|].
      destruct (existsb _ bc40Patterns) eqn:E40; [discriminate|].
      intros _ pattern Hin. apply not_true_is_false. intros Hinc.
      apply in_app_or in Hin. destruct Hin as [Hin|Hin].
      * assert (existsb (fun pt => includes pt (fullText p)) bc23Patterns = true)
          by (apply existsb_exists; eauto).
        congruence.
      * assert (existsb (fun pt => includes pt (fullText p)) bc40Patterns = true)
          by (apply existsb_exists; eauto).
        congruence.
    + intros H.
      replace (existsb _ bc23Patterns) with false.
      * replace (existsb _ bc40Patterns) with false; [reflexivity|].
        symmetry. apply not_true_is_false. intros Hex.
        apply existsb_exists in Hex. destruct Hex as [pt [H1 H2]].
        rewrite (H pt) in H2; [discriminate | apply in_or_app; auto].
      * symmetry. apply not_true_is_false. intros Hex.
        apply existsb_exists in Hex. destruct Hex as [pt [H1 H2]].
        rewrite (H pt) in H2; [discriminate | apply in_or_app; auto].
  - intros pattern Hin Hinc.
    assert (H23 : In pattern bc23Patterns).
    { unfold bc23Patterns. cbn in *. tauto. }
    assert (Hkw : In pattern keywords).
    { unfold keywords. cbn in *. destruct Hin as [<-|[<-|[<-|[]]]]; tauto. }
    pose proof (findTableSection_keyword p pattern Hkw Hinc) as Hs.
    split; [exact (detectDocumentType_BC23 p pattern H23 Hinc)|].
    split; [exact Hs|].
    unfold parseItems. rewrite Hs. cbn [negb].
    destruct (0 <? length _); [eexists; reflexivity|].
    destruct (parseItemsFromOCRTable _). eexists; reflexivity.
Qed.

End DocumentTypeFacts.

(** ** Looking items up *)

Section LookupFacts.
Import PDFParser.

Lemma findBySeri_facts (p : parser) (s : Z) :
  (forall item, findBySeri p s = Some item -> In item (items p) /\ seri item = s) /\
  (findBySeri p s = None <-> forall item, In item (items p) -> seri item <> s) /\
  (forall before item after,
     items p = before ++ item :: after ->
     seri item = s -> (forall i, In i before -> seri i <> s) ->
     findBySeri p s = Some item).
Proof.
  unfold findBySeri. split; [|split].
  - intros item H. apply find_some in H. now rewrite Z.eqb_eq in H.
  - split.
    + intros H item Hin. apply (find_none _ _ H) in Hin. now apply Z.eqb_neq.
    + intros H. destruct (find _ (items p)) as [item|] eqn:E; [|reflexivity].
      apply find_some in E. destruct E as [Hin E]. apply Z.eqb_eq in E.
      now apply H in Hin.
  - intros before item after -> Hs Hb.
    induction before as [|b before IH]; cbn [app find].
    + apply Z.eqb_eq in Hs. now rewrite Hs.
    + assert (Hne : seri b <> s) by (apply Hb; now left).
      apply Z.eqb_neq in Hne. rewrite Hne. apply IH.
      intros i Hi. apply Hb. now right.
Qed.

Variable toUpperCase : jsstring -> jsstring.

Lemma findByKodeBarang_facts (p : parser) (kodeBrg : jsstring) :
  (findByKodeBarang toUpperCase p kodeBrg = None <->
     forall item, In item (items p) ->
                  toUpperCase (Data.kodeBrg item) <> toUpperCase kodeBrg) /\
  (forall found,
     findByKodeBarang toUpperCase p kodeBrg = Some found ->
     found <> [] /\
     found = filter (fun i => jsstring_eqb (toUpperCase (Data.kodeBrg i))
                                           (toUpperCase kodeBrg)) (items p) /\
     forall item, In item found <->
                  In item (items p) /\
                  toUpperCase (Data.kodeBrg item) = toUpperCase kodeBrg) /\
  (forall other,
     toUpperCase other = toUpperCase kodeBrg ->
     findByKodeBarang toUpperCase p other = findByKodeBarang toUpperCase p kodeBrg).
Proof.
  unfold findByKodeBarang. split; [|split].
  - destruct (filter _ (items p)) as [|a l] eqn:E.
    + split; [|reflexivity]. intros _ item Hin Heq.
      assert (Hf : In item (filter (fun i => jsstring_eqb (toUpperCase (Data.kodeBrg i))
                                                (toUpperCase kodeBrg)) (items p)))
        by (apply filter_In; split; [exact Hin | now apply jsstring_eqb_eq]).
      rewrite E in Hf. exact Hf.
    + split; [discriminate|]. intros H. exfalso.
      assert (Ha : In a (a :: l)) by now left.
      rewrite <- E in Ha. apply filter_In in Ha. destruct Ha as [Hin Ha].
      apply jsstring_eqb_eq in Ha. exact (H a Hin Ha).
  - intros found. destruct (filter _ (items p)) as [|a l] eqn:E; [discriminate|].
    intros H. injection H as <-. split; [discriminate|]. split; [reflexivity|].
    intros item. rewrite <- E, filter_In, jsstring_eqb_eq. reflexivity.
  - intros other ->. reflexivity.
Qed.

End LookupFacts.

(** A code found by [findByKodeBarang] passes the code check of the
    validator when both codes carry no white space around them. *)
Lemma found_code_validates (rt : Validator.runtime) (opts : Validator.options)
    (p : PDFParser.parser) (code : jsstring) (found : list BCItem) (item : BCItem) :
  PDFParser.findByKodeBarang (Validator.toUpperCase rt) p code = Some found ->
  In item found ->
  trim code = code -> trim (kodeBrg item) = kodeBrg item ->
  Validator.validateItemCode rt opts code (kodeBrg item)
  = {| Validator.cv_status := OK; Validator.cv_similarity := Num 1;
       Validator.cv_message := None |}.
Proof.
  intros Hf Hin Hc Hk.
  destruct (findByKodeBarang_facts (Validator.toUpperCase rt) p code) as [_ [H _]].
  destruct (H found Hf) as [_ [_ Hall]]. apply Hall in Hin. destruct Hin as [_ Heq].
  unfold Validator.validateItemCode. rewrite Hc, Hk, Heq, jsstring_eqb_refl.
  reflexivity.
Qed.

(** ** The summary of the extracted items *)

Section SummaryFacts.
Import PDFParser.

Lemma existsb_jsstring_eqb (x : jsstring) (l : list jsstring) :
  existsb (jsstring_eqb x) l = true <-> In x l.
Proof.
  rewrite existsb_exists. split.
  - intros [y [Hin Hy]]. apply jsstring_eqb_eq in Hy. now subst.
  - intros H. exists x. split; [exact H | apply jsstring_eqb_refl].
Qed.

Lemma set_values_fold (xs : list jsstring) : forall seen,
  NoDup seen ->
  let out := fold_left (fun seen x => if existsb (jsstring_eqb x) seen then seen
                                      else seen ++ [x]) xs seen in
  NoDup out /\ forall k, In k out <-> In k seen \/ In k xs.
Proof.
  induction xs as [|x xs IH]; intros seen Hnd; cbn [fold_left].
  - split; [exact Hnd|]. intros k. cbn. tauto.
  - destruct (existsb (jsstring_eqb x) seen) eqn:E.
    + destruct (IH seen Hnd) as [H1 H2]. split; [exact H1|].
      intros k. rewrite H2. cbn [In]. apply existsb_jsstring_eqb in E.
      split; [tauto|]. intros [H|[<-|H]]; auto.
    + assert (Hx : ~ In x seen).
      { intros H. apply existsb_jsstring_eqb in H. congruence. }
      assert (Hnd' : NoDup (seen ++ [x])).
      { apply NoDup_app; [exact Hnd | repeat constructor; intros [] |].
        intros a Ha [<-|[]]. contradiction. }
      destruct (IH (seen ++ [x]) Hnd') as [H1 H2]. split; [exact H1|].
      intros k. rewrite H2, in_app_iff. cbn [In]. tauto.
Qed.

Lemma set_values_spec (xs : list jsstring) :
  NoDup (set_values xs) /\ forall k, In k (set_values xs) <-> In k xs.
Proof.
  destruct (set_values_fold xs [] (NoDup_nil _)) as [H1 H2].
  split; [exact H1|]. intros k. unfold set_values. rewrite H2. cbn. tauto.
Qed.

Lemma fold_min_spec (rest : list Z) : forall x,
  let r := fold_left Z.min rest x in
  In r (x :: rest) /\ forall y, In y (x :: rest) -> (r <= y)%Z.
Proof.
  induction rest as [|a rest IH]; intros x; cbn [fold_left].
  - split; [now left|]. intros y [<-|[]]. lia.
  - destruct (IH (Z.min x a)) as [H1 H2]. split.
    + destruct H1 as [H1|H1]; [|right; now right].
      rewrite <- H1. destruct (Z.min_spec x a) as [[_ ->]|[_ ->]]; [now left|right; now left].
    + intros y Hy. pose proof (H2 (Z.min x a) (or_introl eq_refl)) as H0.
      destruct Hy as [<-|[<-|Hy]]; [lia | lia | apply H2; now right].
Qed.

Lemma fold_max_spec (rest : list Z) : forall x,
  let r := fold_left Z.max rest x in
  In r (x :: rest) /\ forall y, In y (x :: rest) -> (y <= r)%Z.
Proof.
  induction rest as [|a rest IH]; intros x; cbn [fold_left].
  - split; [now left|]. intros y [<-|[]]. lia.
  - destruct (IH (Z.max x a)) as [H1 H2]. split.
    + destruct H1 as [H1|H1]; [|right; now right].
      rewrite <- H1. destruct (Z.max_spec x a) as [[_ ->]|[_ ->]]; [right; now left|now left].
    + intros y Hy. pose proof (H2 (Z.max x a) (or_introl eq_refl)) as H0.
      destruct Hy as [<-|[<-|Hy]]; [lia | lia | apply H2; now right].
Qed.

Lemma totalQty_isNaN (l : list BCItem) : forall acc,
  isNaN (fold_left (fun sum item => num_add sum (bc_qty item)) l acc)
  = isNaN acc || existsb (fun item => isNaN (bc_qty item)) l.
Proof.
  induction l as [|a l IH]; intros acc; cbn [fold_left existsb].
  - now rewrite orb_false_r.
  - rewrite IH. destruct acc, (bc_qty a); cbn; reflexivity.
Qed.

Lemma totalQty_value (l : list BCItem) : forall acc,
  existsb (fun item => isNaN (bc_qty item)) l = false ->
  (num_value (fold_left (fun sum item => num_add sum (bc_qty item)) l (Num acc))
   == acc + fold_right (fun item s => num_value (bc_qty item) + s) 0 l)%Q.
Proof.
  induction l as [|a l IH]; intros acc H; cbn [fold_left fold_right existsb] in *.
  - cbn. ring.
  - apply orb_false_iff in H. destruct H as [Ha Hl].
    destruct (bc_qty a) as [|q]; [discriminate|].
    cbn [num_add num_value]. rewrite (IH _ Hl), Qred_correct. ring.
Qed.

Lemma getSummary_lists (p : parser) :
  let s := getSummary p in
  totalItems s = length (items p) /\
  NoDup (kodeBrgList s) /\
  (forall k, In k (kodeBrgList s) <-> exists item, In item (items p) /\ kodeBrg item = k) /\
  isNaN (totalQty s) = existsb (fun item => isNaN (bc_qty item)) (items p) /\
  (existsb (fun item => isNaN (bc_qty item)) (items p) = false ->
     (num_value (totalQty s)
      == fold_right (fun item sum => num_value (bc_qty item) + sum) 0 (items p))%Q).
Proof.
  cbn. split; [reflexivity|].
  destruct (set_values_spec (map kodeBrg (items p))) as [H1 H2].
  split; [exact H1|]. split; [|split].
  - intros k. rewrite H2, in_map_iff. split; intros [i [A B]]; exists i; tauto.
  - now rewrite totalQty_isNaN.
  - intros H. rewrite (totalQty_value (items p) 0 H). ring.
Qed.

Lemma getSummary_range (p : parser) :
  let s := getSummary p in
  (items p = [] -> seriRange_min s = PosInfinity /\ seriRange_max s = NegInfinity) /\
  (items p <> [] ->
     exists lo hi,
       seriRange_min s = Finite lo /\ seriRange_max s = Finite hi /\
       (exists item, In item (items p) /\ seri item = lo) /\
       (exists item, In item (items p) /\ seri item = hi) /\
       (forall item, In item (items p) -> (lo <= seri item <= hi)%Z) /\
       (forall z, (z < lo \/ hi < z)%Z -> findBySeri p z = None)).
Proof.
  cbn. split.
  - intros ->. split; reflexivity.
  - destruct (items p) as [|a l] eqn:E; [congruence|]. intros _.
    cbn [map Math_min Math_max].
    destruct (fold_min_spec (map seri l) (seri a)) as [Hmin1 Hmin2].
    destruct (fold_max_spec (map seri l) (seri a)) as [Hmax1 Hmax2].
    change (seri a :: map seri l) with (map seri (a :: l)) in *.
    exists (fold_left Z.min (map seri l) (seri a)), (fold_left Z.max (map seri l) (seri a)).
    split; [reflexivity|]. split; [reflexivity|].
    assert (Hb : forall item, In item (a :: l) ->
                 (fold_left Z.min (map seri l) (seri a) <= seri item
                  <= fold_left Z.max (map seri l) (seri a))%Z).
    { intros item Hin. split; [apply Hmin2 | apply Hmax2]; now apply in_map. }
    split; [|split; [|split]].
    + apply in_map_iff in Hmin1. destruct Hmin1 as [i [A B]]. eauto.
    + apply in_map_iff in Hmax1. destruct Hmax1 as [i [A B]]. eauto.
    + exact Hb.
    + intros z Hz. apply (findBySeri_facts p z). rewrite E.
      intros item Hin. specialize (Hb item Hin). lia.
Qed.

End SummaryFacts.

(** ** Loading a document *)

Section LoadingFacts.
Import PDFParser.
Variable image : Type.
Variable bytes : Type.
Variable env : collaborators image.
Variable ld : loader bytes.

(** Recognition writes [fullText] and nothing else, and fails with one
    error only. *)
Lemma extractTextWithOCR_frame (p : parser) :
  let out := extractTextWithOCR env p in
  pdfPath (snd out) = pdfPath p /\
  items (snd out) = items p /\
  isScanned (snd out) = isScanned p /\
  (forall e, fst out = inl e -> e = ocrFailed) /\
  (forall t, fst out = inr t -> fullText (snd out) = t).
Proof.
  unfold extractTextWithOCR, extractTextWithOCR_try, bind.
  destruct (ensure_tempFolder env) as [e|[]].
  { cbn. repeat split; congruence. }
  destruct (pdfToPng env (pdfPath p)) as [e|pages].
  { cbn. repeat split; congruence. }
  destruct (remove_tempFolder env) as [e|[]].
  { cbn. repeat split; congruence. }
  cbv beta iota zeta.
  destruct (save_result env _) as [e|[]]; cbn [fst snd set_fullText pdfPath items
                                                isScanned fullText];
    repeat split; congruence.
Qed.

(** X11.  [load] returns nothing but [true].  With at least 100 units of
    text left after trimming, the text of the document is stored and no
    recognition runs; with fewer, the object is marked as scanned, the
    parsed data is kept, and the outcome is that of [extractTextWithOCR]:
    its text is stored, its failure is the failure of [load].  An error of
    [readFileSync] or of [pdfParse] is thrown as it is and leaves the
    object unchanged. *)
Theorem X11_load_outcomes (d : document) :
  (forall b, fst (load env ld d) = inr b -> b = true) /\
  (forall dataBuffer data,
     readFileSync ld (pdfPath (this d)) = inr dataBuffer ->
     pdfParse ld dataBuffer = inr data ->
     100 <= length (trim (text data)) ->
     load env ld d
     = (inr true, {| this := set_fullText (text data) (this d);
                     pdfData := Some data |})) /\
  (forall dataBuffer data,
     readFileSync ld (pdfPath (this d)) = inr dataBuffer ->
     pdfParse ld dataBuffer = inr data ->
     length (trim (text data)) < 100 ->
     let scanned := set_isScanned true (set_fullText (text data) (this d)) in
     isScanned (this (snd (load env ld d))) = true /\
     pdfData (snd (load env ld d)) = Some data /\
     (forall t, fst (extractTextWithOCR env scanned) = inr t ->
        fst (load env ld d) = inr true /\
        fullText (this (snd (load env ld d))) = t) /\
     (forall e, fst (extractTextWithOCR env scanned) = inl e ->
        fst (load env ld d) = inl ocrFailed)) /\
  (forall e,
     readFileSync ld (pdfPath (this d)) = inl e -> load env ld d = (inl e, d)) /\
  (forall dataBuffer e,
     readFileSync ld (pdfPath (this d)) = inr dataBuffer ->
     pdfParse ld dataBuffer = inl e -> load env ld d = (inl e, d)).
Proof.
  split; [|split; [|split; [|split]]].
  - intros b. unfold load.
    destruct (readFileSync ld _) as [e|buf]; [discriminate|].
    destruct (pdfParse ld buf) as [e|data]; [discriminate|].
    destruct (noExtractableText _).
    + destruct (extractTextWithOCR env _) as [[e|t] p3]; cbn; congruence.
    + cbn. congruence.
  - intros buf data Hr Hp Hlen. unfold load. rewrite Hr, Hp.
    unfold noExtractableText. cbn [set_fullText fullText].
    replace (length (trim (text data)) <? 100) with false; [reflexivity|].
    symmetry. apply Nat.ltb_ge, Hlen.
  - intros buf data Hr Hp Hlen scanned. unfold load. rewrite Hr, Hp.
    unfold noExtractableText. cbn [set_fullText fullText].
    replace (length (trim (text data)) <? 100) with true
      by (symmetry; apply Nat.ltb_lt, Hlen).
    fold scanned.
    destruct (extractTextWithOCR_frame scanned) as (_ & _ & Hs & He & Ht).
    destruct (extractTextWithOCR env scanned) as [[e|t] p3];
      cbn [fst snd this pdfData] in *.
    + split; [exact Hs|]. split; [reflexivity|]. split; [discriminate|].
      intros e' _. now rewrite (He e eq_refl).
    + split; [exact Hs|]. split; [reflexivity|]. split; [|discriminate].
      intros t' E. injection E as <-. split; [reflexivity | now apply Ht].
  - intros e Hr. unfold load. now rewrite Hr.
  - intros buf e Hr Hp. unfold load. now rewrite Hr, Hp.
Qed.

(** X12.  [loadFromBuffer] returns nothing but [true].  It writes the
    temporary file at most once and unlinks it at most once, after writing;
    when it returns [true] a file that was written has been unlinked, and
    when it throws after writing the file is left behind.  Once the file
    is written the object is marked as scanned and its path is the path of
    the temporary file, also after the file is unlinked; otherwise the path
    is unchanged. *)
Theorem X12_temporary_file_of_loadFromBuffer (d : document) (buffer : bytes) :
  let out := loadFromBuffer env ld d buffer in
  let outcome := fst (fst out) in
  let after := snd (fst out) in
  let events := snd out in
  (forall b, outcome = inr b -> b = true) /\
  (events = [] \/ events = [Written (tempPath ld)] \/
   events = [Written (tempPath ld); Unlinked (tempPath ld)]) /\
  (forall b, outcome = inr b -> events <> [] ->
     events = [Written (tempPath ld); Unlinked (tempPath ld)]) /\
  (forall e, outcome = inl e -> events <> [] -> events = [Written (tempPath ld)]) /\
  (events <> [] ->
     pdfPath (this after) = tempPath ld /\ isScanned (this after) = true) /\
  (events = [] -> pdfPath (this after) = pdfPath (this d)).
Proof.
  unfold loadFromBuffer.
  destruct (pdfParse ld buffer) as [e|data];
    [cbn; repeat split; intros; try congruence; auto|].
  destruct (noExtractableText _);
    [|cbn; repeat split; intros; try congruence; auto].
  destruct (writeFileSync ld (tempPath ld) buffer) as [e|[]];
    [cbn; repeat split; intros; try congruence; auto|].
  set (p3 := set_pdfPath _ _).
  destruct (extractTextWithOCR_frame p3) as (Hp & _ & Hs & _ & _).
  destruct (extractTextWithOCR env p3) as [[e|t] p4]; cbn [fst snd] in Hp, Hs;
    [cbn; repeat split; intros; try congruence; auto|].
  destruct (unlinkSync ld (tempPath ld)) as [e|[]];
    cbn; repeat split; intros; try congruence; auto.
Qed.

End LoadingFacts.

(** ** Extraction starts afresh *)

Section ExtractionFacts.
Import PDFParser.

Lemma scanLines_acc (lines : list jsstring) : forall acc,
  scanLines lines acc = acc ++ scanLines lines [].
Proof.
  induction lines as [|l lines IH]; intros acc; cbn [scanLines].
  - now rewrite app_nil_r.
  - destruct (exec noflags itemLinePattern (trim l)) as [z|]; [|apply IH].
    destruct (parseOCRItemText _ _ _) as [itemData|]; [|apply IH].
    rewrite (IH (acc ++ [itemData])), (IH ([] ++ [itemData])), <- app_assoc.
    reflexivity.
Qed.

Lemma parseBlocks_acc (text : jsstring) (matches : list match_result) : forall acc,
  parseBlocks text matches acc = acc ++ parseBlocks text matches [].
Proof.
  induction matches as [|mt rest IH]; intros acc; cbn [parseBlocks].
  - now rewrite app_nil_r.
  - destruct (parseItemText _ _) as [itemData|]; [|apply IH].
    rewrite (IH (acc ++ [itemData])), (IH ([] ++ [itemData])), <- app_assoc.
    reflexivity.
Qed.

(** Strategy 2 called on its own adds to the items already there. *)
Lemma parseItemsFromOCRTable_appends (p : parser) :
  items (fst (parseItemsFromOCRTable p)) = items p ++ ocrTableItems p /\
  fullText (fst (parseItemsFromOCRTable p)) = fullText p.
Proof.
  unfold parseItemsFromOCRTable, ocrTableItems. cbn [fst set_items items fullText].
  split; [apply scanLines_acc | reflexivity].
Qed.

Lemma findTableSection_set_items (l : list BCItem) (p : parser) :
  findTableSection (set_items l p) = findTableSection p.
Proof. reflexivity. Qed.

Lemma parseItems_set_items (l : list BCItem) (p : parser) :
  fst (fst (parseItems (set_items l p))) = fst (fst (parseItems p)) /\
  snd (parseItems (set_items l p)) = snd (parseItems p) /\
  (findTableSection p = true ->
     snd (fst (parseItems (set_items l p))) = snd (fst (parseItems p))).
Proof.
  unfold parseItems. rewrite findTableSection_set_items.
  destruct (findTableSection p); cbn [negb].
  - cbn [set_items fullText items].
    destruct (0 <? length _); cbn [fst snd]; auto.
  - cbn [fst snd]. split; [reflexivity|]. split; [reflexivity | discriminate].
Qed.

Lemma parseItems_again (p : parser) :
  parseItems (snd (fst (parseItems p))) = parseItems p.
Proof.
  unfold parseItems at 2.
  destruct (findTableSection p) eqn:Hs; cbn [negb].
  - destruct (0 <? length (matchAll noflags posTarifPattern (fullText p))) eqn:Hm;
      cbn [fst snd set_items fullText items parseItemsFromOCRTable].
    + unfold parseItems. rewrite !findTableSection_set_items, Hs. cbn [negb].
      cbn [set_items fullText items]. rewrite Hm. reflexivity.
    + unfold parseItems. rewrite !findTableSection_set_items, Hs. cbn [negb].
      cbn [set_items fullText items]. rewrite Hm. reflexivity.
  - cbn [fst snd]. unfold parseItems. rewrite Hs. reflexivity.
Qed.

(** *** Quantities of the items of strategy 2 *)

Lemma parseOCRItemText_some (seri : Z) (hsCode itemBlock : jsstring) (item : BCItem) :
  parseOCRItemText seri hsCode itemBlock = Some item ->
  Data.seri item = seri /\
  kodeBrg item = normalizeHsCode hsCode /\
  isNaN (bc_qty item) = false /\
  exists qtyMatch,
    exec flag_i qtyPattern itemBlock = Some qtyMatch /\
    bc_qty item = parseFloat (normalizeQtyString (group 1 qtyMatch)) /\
    satuan item = trim (group 3 qtyMatch).
Proof.
  unfold parseOCRItemText.
  destruct (exec flag_i qtyPattern itemBlock) as [qtyMatch|]; [|discriminate].
  destruct (isNaN _) eqn:E; [discriminate|].
  destruct (filter nonEmpty _) as [|firstLine others]; [discriminate|].
  intros H. injection H as <-. cbn [Data.seri kodeBrg bc_qty satuan].
  split; [reflexivity|]. split; [reflexivity|]. split; [exact E|].
  exists qtyMatch. auto.
Qed.

Lemma scanLines_Forall (P : BCItem -> Prop) :
  (forall seri hsCode itemBlock item,
     parseOCRItemText seri hsCode itemBlock = Some item -> P item) ->
  forall lines acc, Forall P acc -> Forall P (scanLines lines acc).
Proof.
  intros HP. induction lines as [|l lines IH]; intros acc Hacc; cbn [scanLines]; [exact Hacc|].
  destruct (exec noflags itemLinePattern (trim l)) as [z|]; [|now apply IH].
  destruct (parseOCRItemText _ _ _) as [itemData|] eqn:E; [|now apply IH].
  apply IH. apply Forall_app. split; [exact Hacc|].
  constructor; [|constructor]. eapply HP, E.
Qed.

Lemma ocrTableItems_numeric (p : parser) :
  Forall (fun item => isNaN (bc_qty item) = false) (ocrTableItems p).
Proof.
  apply scanLines_Forall; [|constructor].
  intros seri hsCode itemBlock item H. apply (parseOCRItemText_some _ _ _ _ H).
Qed.

Lemma scanLines_length (lines : list jsstring) : forall acc,
  length (scanLines lines acc) <= length acc + length lines.
Proof.
  induction lines as [|l lines IH]; intros acc; cbn [scanLines length]; [lia|].
  destruct (exec noflags itemLinePattern (trim l)) as [z|];
    [|specialize (IH acc); lia].
  destruct (parseOCRItemText _ _ _) as [itemData|]; [|specialize (IH acc); lia].
  specialize (IH (acc ++ [itemData])). rewrite length_app in IH. cbn in IH. lia.
Qed.

End ExtractionFacts.

(** X17.  Checked against an item that strategy 2 extracted, a quantity
    that is a number never gets the status ERROR from [validateQty]: the
    quantity of such an item is never NaN. *)
Theorem X17_quantity_of_OCR_item_never_invalid (p : PDFParser.parser)
    (item : BCItem) (excelQty : number) :
  In item (ocrTableItems p) ->
  isNaN excelQty = false ->
  Validator.qv_status (Validator.validateQty excelQty (bc_qty item)) <> ERROR.
Proof.
  intros Hin Hq.
  pose proof (ocrTableItems_numeric p) as H. rewrite Forall_forall in H.
  specialize (H item Hin).
  unfold Validator.validateQty, parseFloatNum. rewrite Hq, H. cbn [orb].
  destruct (num_le _ _); discriminate.
Qed.

(** ** Line feeds in a recognised text *)

Section LineFeedFacts.
Import PDFParser.

(** *** The phrase loop, written directly *)

Lemma prefixCI_length (key s : jsstring) : prefixCI key s = true -> length key <= length s.
Proof.
  revert s. induction key as [|c key IH]; intros [|x s]; cbn; try lia; try discriminate.
  intros H. apply andb_true_iff in H. destruct H as [_ H]. apply IH in H. lia.
Qed.

Lemma scan_g_lits (key rep : jsstring) (total : nat) :
  key <> [] ->
  forall (fuel i : nat) (rest : jsstring),
    length rest < fuel ->
    concat (scan_g flag_i (lits key) total (fun _ => rep) (fun c => [c]) fuel i rest)
    = replaceCI key rep fuel rest.
Proof.
  intros Hne. induction fuel as [|fuel IH]; intros i rest Hfuel; [lia|].
  cbn [scan_g replaceCI]. unfold match_here. rewrite lits_match by exact Hne.
  destruct rest as [|c t].
  - destruct key; [contradiction | reflexivity].
  - destruct (prefixCI key (c :: t)) eqn:Hp.
    + cbn [matched]. pose proof (prefixCI_length _ _ Hp) as Hlen.
      assert (Hm : length (firstn (length (c :: t) - length (skipn (length key) (c :: t)))
                                  (c :: t)) = length key).
      { rewrite length_firstn, length_skipn. lia. }
      rewrite Hm. destruct (length key) as [|n] eqn:Hk.
      { destruct key; [contradiction | discriminate]. }
      cbn [concat]. f_equal. apply IH.
      rewrite length_skipn. cbn [length] in *. lia.
    + cbn [concat app]. f_equal. apply IH. cbn [length] in Hfuel. lia.
Qed.

Lemma replacePhrase_direct (wrong correct s : jsstring) :
  wrong <> [] -> replacePhrase wrong correct s = replaceCI wrong correct (S (length s)) s.
Proof. intros Hne. unfold replacePhrase, replaceAll_g. apply scan_g_lits; auto. Qed.

(** *** Texts whose line feeds come in pairs *)

Lemma pairedLF_weaken (s : jsstring) (b : bool) : pairedLF false s -> pairedLF b s.
Proof.
  destruct s as [|c t]; [auto|]. cbn. intros [H1 H2]. split; [|exact H2].
  intros Hc. destruct (H1 Hc) as [H|H]; [discriminate | now right].
Qed.

Lemma pairedLF_line (l rest : jsstring) (b : bool) :
  lfFree l -> pairedLF false rest -> pairedLF b (l ++ rest).
Proof.
  intros Hl Hrest. revert b. induction Hl as [|c l Hc Hl IH]; intros b.
  - apply pairedLF_weaken, Hrest.
  - cbn [app pairedLF]. rewrite Hc. split; [discriminate | apply IH].
Qed.

Lemma pairedLF_after_line (l rest : jsstring) (b : bool) :
  lfFree l -> l <> [] -> pairedLF b (l ++ rest) -> pairedLF false rest.
Proof.
  intros Hl. revert b. induction Hl as [|c l Hc Hl IH]; intros b Hne; [congruence|].
  cbn [app pairedLF]. rewrite Hc. intros [_ H].
  destruct l as [|c' l]; [exact H|]. apply (IH false); [discriminate | exact H].
Qed.

Lemma pairedLF_separator (rest : jsstring) :
  pairedLF false rest -> pairedLF false (LF :: LF :: rest).
Proof.
  intros H. cbn [pairedLF]. change (cu_eqb LF LF) with true.
  split; [intros _; right; reflexivity|]. split; [intros _; now left|].
  apply pairedLF_weaken, H.
Qed.

Lemma pairedLF_join (ls : list jsstring) (rest : jsstring) (b : bool) :
  Forall lfFree ls -> pairedLF false rest ->
  pairedLF b (join [LF; LF] ls ++ rest).
Proof.
  intros Hls Hrest. revert b. induction Hls as [|l ls Hl Hls IH]; intros b.
  - apply pairedLF_weaken, Hrest.
  - destruct ls as [|l' ls].
    + cbn [join]. apply pairedLF_line; auto.
    + change (join [LF; LF] (l :: l' :: ls)) with (l ++ [LF; LF] ++ join [LF; LF] (l' :: ls)).
      rewrite <- !app_assoc. apply pairedLF_line; [exact Hl|].
      cbn [app]. apply pairedLF_separator, IH.
Qed.

Lemma Forall_firstn_skipn (A : Type) (P : A -> Prop) (n : nat) (l : list A) :
  Forall P l -> Forall P (firstn n l) /\ Forall P (skipn n l).
Proof.
  intros H. rewrite <- (firstn_skipn n l) in H. now apply Forall_app in H.
Qed.

Lemma chunks_lfFree : forall (fuel : nat) (l : list jsstring),
  Forall lfFree l -> Forall (Forall lfFree) (chunks fuel l).
Proof.
  induction fuel as [|fuel IH]; intros l Hl; [constructor|].
  destruct l as [|a l]; [constructor|].
  cbn [chunks].
  destruct (Forall_firstn_skipn _ lfFree 3 (a :: l) Hl) as [H1 H2].
  constructor; [exact H1 | apply IH, H2].
Qed.

(** The text assembled from fragments without line feed. *)
Lemma assemble_pairedLF (frags : list jsstring) :
  Forall lfFree frags -> pairedLF false (assemble frags).
Proof.
  intros H. unfold assemble.
  pose proof (chunks_lfFree (length frags) frags H) as Hc.
  induction Hc as [|ch chs Hch Hchs IH]; [exact I|].
  cbn [map concat]. apply pairedLF_join; auto.
Qed.

(** *** The phrase loop keeps the pairs *)

Lemma lineKey_prefix (key s : jsstring) :
  lineKey key = true -> prefixCI key s = true ->
  exists seg rest, s = seg ++ rest /\ length seg = length key /\ seg <> [] /\ lfFree seg.
Proof.
  intros Hk Hp.
  assert (Hne : key <> []) by (destruct key; [discriminate | discriminate]).
  assert (Hall : forallb (fun c => negb (cu_eqb (upperASCII c) LF)) key = true)
    by (destruct key; [discriminate | exact Hk]).
  clear Hk. exists (firstn (length key) s), (skipn (length key) s).
  pose proof (prefixCI_length _ _ Hp) as Hlen.
  split; [now rewrite firstn_skipn|]. split; [rewrite length_firstn; lia|].
  split.
  { intros E. apply (f_equal (@length _)) in E. rewrite length_firstn in E.
    destruct key; [contradiction | cbn [length] in *; lia]. }
  clear Hne Hlen. revert s Hp. induction key as [|c key IH]; intros s Hp.
  - constructor.
  - destruct s as [|x s]; [discriminate|].
    cbn [prefixCI] in Hp. apply andb_true_iff in Hp. destruct Hp as [Hcx Hp].
    cbn [forallb] in Hall. apply andb_true_iff in Hall. destruct Hall as [Hc Hall].
    cbn [length firstn]. constructor; [|apply IH; auto].
    apply N.eqb_eq in Hcx. apply negb_true_iff in Hc.
    destruct (cu_eqb x LF) eqn:Ex; [|reflexivity].
    apply N.eqb_eq in Ex. subst x. rewrite Hcx in Hc.
    change (upperASCII LF) with LF in Hc. unfold cu_eqb in Hc.
    now rewrite N.eqb_refl in Hc.
Qed.

Lemma lineKey_not_at_LF (key t : jsstring) :
  lineKey key = true -> prefixCI key (LF :: t) = false.
Proof.
  destruct key as [|c key]; [discriminate|]. cbn [lineKey forallb prefixCI].
  intros H. apply andb_true_iff in H. destruct H as [H _].
  apply negb_true_iff in H. change (upperASCII LF) with LF.
  unfold cu_eqb in *. now rewrite H.
Qed.

Lemma replaceCI_pairedLF (key rep : jsstring) :
  lineKey key = true -> lfFree rep ->
  forall (fuel : nat) (s : jsstring) (b : bool),
    length s < fuel -> pairedLF b s ->
    pairedLF b (replaceCI key rep fuel s) /\
    (startsWithLF s -> startsWithLF (replaceCI key rep fuel s)).
Proof.
  intros Hk Hrep. induction fuel as [|fuel IH]; intros s b Hfuel Hs; [lia|].
  destruct s as [|c t]; [cbn; tauto|].
  cbn [replaceCI]. destruct (prefixCI key (c :: t)) eqn:Hp.
  - destruct (lineKey_prefix key (c :: t) Hk Hp) as (seg & rest & E & Hlen & Hne & Hseg).
    assert (Hskip : skipn (length key) (c :: t) = rest).
    { rewrite E, <- Hlen. rewrite skipn_app, Nat.sub_diag, skipn_all. reflexivity. }
    rewrite Hskip. rewrite E in Hs.
    pose proof (pairedLF_after_line seg rest b Hseg Hne Hs) as Hrest.
    assert (Hr : length rest < fuel).
    { apply (f_equal (@length _)) in E. rewrite length_app in E.
      destruct seg; [contradiction|]. cbn [length] in *. lia. }
    split.
    + apply pairedLF_line; [exact Hrep|]. apply (IH rest false Hr Hrest).
    + intros Hlf. exfalso. cbn in Hlf. apply N.eqb_eq in Hlf. subst c.
      now rewrite (lineKey_not_at_LF key t Hk) in Hp.
  - assert (Ht : length t < fuel) by (cbn [length] in Hfuel; lia).
    cbn [pairedLF] in Hs. destruct Hs as [Hc Hs].
    destruct (IH t (cu_eqb c LF) Ht Hs) as [IH1 IH2].
    split; [|auto].
    cbn [pairedLF]. split; [|exact IH1].
    intros Hlf. destruct (Hc Hlf) as [H|H]; [now left | right; auto].
Qed.

Lemma fold_phrases_pairedLF (table : list (jsstring * jsstring)) :
  Forall (fun wc => lineKey (fst wc) = true /\ lfFree (snd wc)) table ->
  forall s, pairedLF false s ->
  pairedLF false (fold_left (fun cleaned wc => replacePhrase (fst wc) (snd wc) cleaned)
                            table s).
Proof.
  induction 1 as [|wc table [Hk Hv] Htable IH]; intros s Hs; [exact Hs|].
  cbn [fold_left]. apply IH.
  rewrite replacePhrase_direct by (destruct (fst wc); [discriminate | discriminate]).
  apply replaceCI_pairedLF; auto.
Qed.

Lemma lfFree_dec_true (l : jsstring) :
  forallb (fun c => negb (cu_eqb c LF)) l = true -> lfFree l.
Proof.
  intros H. apply Forall_forall. intros c Hc.
  rewrite forallb_forall in H. apply negb_true_iff. auto.
Qed.

Lemma applyPhraseReplacements_pairedLF (s : jsstring) :
  pairedLF false s -> pairedLF false (applyPhraseReplacements s).
Proof.
  apply fold_phrases_pairedLF. unfold phraseReplacements.
  repeat (constructor; [split; [reflexivity | apply lfFree_dec_true; reflexivity]|]).
  constructor.
Qed.

(** *** The first [replace] removes the pairs *)

Lemma pairedLF_dropWhile (s : jsstring) (b : bool) :
  pairedLF b s -> pairedLF false (dropWhile isWhiteSpace s).
Proof.
  revert b. induction s as [|c t IH]; intros b; [auto|].
  cbn [dropWhile]. destruct (isWhiteSpace c) eqn:Hc.
  - intros [_ H]. eapply IH, H.
  - cbn [pairedLF]. intros [_ H]. split; [|exact H].
    intros Hlf. apply N.eqb_eq in Hlf. subst c. discriminate.
Qed.

Lemma squeezed_lfFree : forall (fuel : nat) (s : jsstring),
  length s < fuel -> pairedLF false s ->
  lfFree (replaceRuns isWhiteSpace 2 [SP] fuel s).
Proof.
  induction fuel as [|fuel IH]; intros s Hfuel Hs; [lia|].
  destruct s as [|c t]; [constructor|].
  cbn [replaceRuns]. destruct (2 <=? runlen isWhiteSpace (c :: t)) eqn:Hrun.
  - cbn [app]. constructor; [reflexivity|]. apply IH.
    + pose proof (dropWhile_length isWhiteSpace (c :: t)) as HL.
      apply Nat.leb_le in Hrun. cbn [length] in *. lia.
    + eapply pairedLF_dropWhile, Hs.
  - cbn [pairedLF] in Hs. destruct Hs as [Hc Hs].
    assert (Hnot : cu_eqb c LF = false).
    { destruct (cu_eqb c LF) eqn:E; [|reflexivity]. exfalso.
      destruct (Hc eq_refl) as [H|H]; [discriminate|].
      destruct t as [|x t]; [exact H|]. cbn in H.
      apply N.eqb_eq in E, H. subst c x.
      rewrite !runlen_cons in Hrun. cbn in Hrun. discriminate. }
    constructor; [exact Hnot|]. rewrite Hnot in Hs.
    apply IH; [cbn [length] in Hfuel; lia | exact Hs].
Qed.

Lemma normalizeWhitespace_lfFree (s : jsstring) :
  pairedLF false s -> lfFree (normalizeWhitespace s).
Proof.
  intros H. unfold normalizeWhitespace.
  rewrite collapseNewlines_after_collapseSpaces.
  assert (Hc : lfFree (collapseSpaces s)).
  { rewrite collapseSpaces_runs. apply squeezed_lfFree; [lia | exact H]. }
  unfold trimLines. rewrite (split_lf_line _ Hc). cbn [map join].
  apply lfFree_trim, Hc.
Qed.

(** No line feed is left in the text made from fragments that hold none. *)
Lemma postProcessOCRText_assembled (frags : list jsstring) :
  Forall lfFree frags -> lfFree (postProcessOCRText (assemble frags)).
Proof.
  intros H. rewrite postProcessOCRText_eq.
  apply normalizeWhitespace_lfFree, applyPhraseReplacements_pairedLF,
        assemble_pairedLF, H.
Qed.

End LineFeedFacts.

Section RecognisedTextFacts.
Import PDFParser.
Variable image : Type.
Variable env : collaborators image.

Lemma filterWords_lfFree (data : ocr_data) : onOneLine data -> lfFree (filterWords data).
Proof.
  unfold onOneLine, filterWords. destruct (d_words data) as [words|]; [|auto].
  intros H.
  assert (G : forall acc, lfFree acc ->
              lfFree (fold_left (fun filteredText w =>
                                   if num_ge (w_confidence w) minConfidence
                                   then filteredText ++ w_text w ++ [SP]
                                   else filteredText) words acc)).
  { induction H as [|w words Hw Hws IH]; intros acc Hacc; [exact Hacc|].
    cbn [fold_left]. apply IH. destruct (num_ge _ _); [|exact Hacc].
    apply Forall_app. split; [exact Hacc|].
    apply Forall_app. split; [exact Hw | repeat constructor]. }
  apply G. constructor.
Qed.

Lemma processPageWithOCR_lfFree (page : png_page image) (n : nat) :
  (forall img data, recognize env n img = inr data -> onOneLine data) ->
  lfFree (processPageWithOCR env page n).
Proof.
  intros H. unfold processPageWithOCR, recognizePage, bind.
  destruct (ensure_tessdata env n); [constructor|].
  destruct (recognize env n _) as [e|data] eqn:E; [constructor|].
  apply filterWords_lfFree. eapply H, E.
Qed.

Lemma processBatch_lfFree (pages : list (png_page image)) :
  (forall n img data, recognize env n img = inr data -> onOneLine data) ->
  forall i, Forall lfFree (processBatch env i pages).
Proof.
  intros H. induction pages as [|page pages IH]; intros i; cbn [processBatch];
    constructor; [|apply IH].
  apply processPageWithOCR_lfFree. apply H.
Qed.

(** X18.  When no word the engine returns holds a line feed (nor the page
    text it returns without words), the text [extractTextWithOCR] returns
    and stores holds no line feed at all: the pages are joined by two line
    feeds and every run of white space is then replaced by one space.
    Split into lines it is one line, so strategy 2 extracts at most one
    item from it. *)
Theorem X18_recognised_text_is_one_line (p : parser) (t : jsstring) :
  (forall n img data, recognize env n img = inr data -> onOneLine data) ->
  fst (extractTextWithOCR env p) = inr t ->
  lfFree t /\
  fullText (snd (extractTextWithOCR env p)) = t /\
  split_lf t = [t] /\
  length (ocrTableItems (snd (extractTextWithOCR env p))) <= 1.
Proof.
  intros Hrec Hout.
  assert (Hlf : lfFree t).
  { revert Hout. unfold extractTextWithOCR, extractTextWithOCR_try, bind.
    destruct (ensure_tempFolder env) as [e|[]]; [discriminate|].
    destruct (pdfToPng env (pdfPath p)) as [e|pages]; [discriminate|].
    destruct (remove_tempFolder env) as [e|[]]; [discriminate|].
    cbv beta iota zeta. destruct (save_result env _) as [e|[]]; [discriminate|].
    cbn [fst]. intros E. injection E as <-.
    rewrite processBatches_assemble. apply postProcessOCRText_assembled.
    apply processBatch_lfFree, Hrec. }
  destruct (extractTextWithOCR_frame image env p) as (_ & _ & _ & _ & Ht).
  specialize (Ht t Hout).
  split; [exact Hlf|]. split; [exact Ht|]. split; [apply split_lf_line, Hlf|].
  unfold ocrTableItems. rewrite Ht, (split_lf_line t Hlf).
  apply (scanLines_length [t] []).
Qed.

End RecognisedTextFacts.

(* ===================================================================== *)
(** * Properties of the clean-up of recognition results                   *)
(* ===================================================================== *)

Section CleanupFacts.
Import OCRCleanup.

Lemma insert_desc_perm (x : file) (l : list file) :
  Permutation (insert_desc x l) (x :: l).
Proof.
  induction l as [|y l IH]; cbn [insert_desc]; [reflexivity|].
  destruct (mtime x <? mtime y)%Z; [|reflexivity].
  rewrite IH. apply perm_swap.
Qed.

Lemma sort_desc_perm (l : list file) : Permutation (sort_desc l) l.
Proof.
  induction l as [|x l IH]; cbn; [constructor|].
  rewrite insert_desc_perm. now constructor.
Qed.

Lemma insert_desc_sorted (x : file) (l : list file) :
  newest_first l -> newest_first (insert_desc x l).
Proof.
  unfold newest_first. induction 1 as [|y l Hl IH Hy]; cbn [insert_desc].
  - repeat constructor.
  - destruct (mtime x <? mtime y)%Z eqn:E.
    + constructor; [exact IH|].
      apply Forall_forall. intros z Hz.
      apply (Permutation_in _ (insert_desc_perm x l)) in Hz.
      destruct Hz as [<-|Hz]; [apply Z.ltb_lt in E; lia|].
      rewrite Forall_forall in Hy. auto.
    + apply Z.ltb_ge in E.
      constructor; [constructor; assumption|].
      constructor; [exact E|].
      eapply Forall_impl; [|exact Hy]. cbn. intros z Hz. lia.
Qed.

Lemma sort_desc_sorted (l : list file) : newest_first (sort_desc l).
Proof.
  induction l as [|x l IH]; cbn; [constructor | now apply insert_desc_sorted].
Qed.

Variable StringToNumber : jsstring -> number.
Variable unlinkSync : jsstring -> Error + unit.
Variable now : Z.
Variable this : cleanup.

Section Sweep.
Variable ms : number.

(** A file that goes takes with it every file that is not newer and
    comes later. *)
Lemma doomed_monotone (f g : file) (i j : nat) :
  (mtime g <= mtime f)%Z -> i <= j ->
  isOld now ms f || isBeyondLimit StringToNumber this i = true ->
  isOld now ms g || isBeyondLimit StringToNumber this j = true.
Proof.
  intros Hm Hij H. apply orb_true_iff in H. apply orb_true_iff.
  destruct H as [H|H]; [left|right].
  - unfold isOld, num_gt, num_of_Z in *.
    destruct ms as [|m]; [discriminate|].
    apply negb_true_iff in H. apply negb_true_iff.
    apply not_true_is_false. intros Hle. apply Qle_bool_iff in Hle.
    assert (Hf : (inject_Z (now - mtime f) <= m)%Q).
    { eapply Qle_trans; [|exact Hle]. rewrite <- Zle_Qle. lia. }
    apply Qle_bool_iff in Hf. congruence.
  - unfold isBeyondLimit, num_ge, num_le, num_of_Z in *.
    destruct (ToNumber StringToNumber (maxFiles this)) as [|q]; [discriminate|].
    apply Qle_bool_iff in H. apply Qle_bool_iff.
    eapply Qle_trans; [exact H|]. rewrite <- Zle_Qle. lia.
Qed.

Lemma sweep_names (files : list file) : forall i d u,
  exists u', snd (sweep StringToNumber unlinkSync now this ms i files d u) = u ++ u' /\
             incl u' (map f_name files) /\
             (truthy (dryRun this) = true -> u' = []).
Proof.
  induction files as [|f files IH]; intros i d u; cbn [sweep].
  - exists []. rewrite app_nil_r. repeat split. intros x [].
  - destruct (isOld _ _ f || isBeyondLimit _ _ i).
    + destruct (truthy (dryRun this)) eqn:Hdry.
      * destruct (IH (S i) (S d) u) as (u' & E & Hincl & Hd).
        exists u'. split; [exact E|]. split; [|exact Hd].
        intros x Hx. right. now apply Hincl.
      * destruct (unlinkSync (f_name f)) as [e|[]].
        { exists []. cbn [snd]. rewrite app_nil_r. split; [reflexivity|].
          split; [intros x [] | discriminate]. }
        destruct (IH (S i) (S d) (u ++ [f_name f])) as (u' & E & Hincl & Hd).
        exists (f_name f :: u'). rewrite E, <- app_assoc. split; [reflexivity|].
        split; [|discriminate].
        intros x [<-|Hx]; [now left | right; now apply Hincl].
    + destruct (IH (S i) d u) as (u' & E & Hincl & Hd).
      exists u'. split; [exact E|]. split; [|exact Hd].
      intros x Hx. right. now apply Hincl.
Qed.

(** Once a file goes, all the files after it go. *)
Lemma sweep_all (files : list file) : forall i d u d',
  Forall (fun g => forall j, i <= j ->
            isOld now ms g || isBeyondLimit StringToNumber this j = true)
         files ->
  fst (sweep StringToNumber unlinkSync now this ms i files d u) = inr d' ->
  d' = d + length files /\
  (truthy (dryRun this) = false ->
     snd (sweep StringToNumber unlinkSync now this ms i files d u) = u ++ map f_name files).
Proof.
  induction files as [|f files IH]; intros i d u d' Hall; cbn [sweep].
  - cbn. intros E. injection E as <-. split; [lia|]. intros _. now rewrite app_nil_r.
  - inversion Hall as [|? ? Hf Hrest]; subst.
    rewrite (Hf i (le_n i)).
    assert (Hrest' : Forall (fun g => forall j, S i <= j ->
                       isOld now ms g
                       || isBeyondLimit StringToNumber this j = true) files).
    { eapply Forall_impl; [|exact Hrest]. cbn. intros g Hg j Hj. apply Hg. lia. }
    destruct (truthy (dryRun this)) eqn:Hdry.
    + intros E. destruct (IH (S i) (S d) u d' Hrest' E) as [-> _].
      split; [cbn; lia | discriminate].
    + destruct (unlinkSync (f_name f)) as [e|[]]; [discriminate|].
      intros E. destruct (IH (S i) (S d) (u ++ [f_name f]) d' Hrest' E) as [-> Hu].
      split; [cbn; lia|]. intros _. rewrite (Hu eq_refl), <- app_assoc. reflexivity.
Qed.

Lemma sweep_sorted (files : list file) : forall i d u d',
  newest_first files ->
  fst (sweep StringToNumber unlinkSync now this ms i files d u) = inr d' ->
  exists k,
    k <= length files /\ d' = d + (length files - k) /\
    (forall f, In f (firstn k files) -> isOld now ms f = false) /\
    (forall j, j < k -> isBeyondLimit StringToNumber this (i + j) = false) /\
    (forall f, nth_error files k = Some f ->
       isOld now ms f || isBeyondLimit StringToNumber this (i + k) = true) /\
    (truthy (dryRun this) = false ->
       snd (sweep StringToNumber unlinkSync now this ms i files d u)
       = u ++ map f_name (skipn k files)).
Proof.
  unfold newest_first.
  induction files as [|f files IH]; intros i d u d' Hs.
  - cbn. intros E. injection E as <-. exists 0. cbn.
    split; [lia|]. split; [lia|]. split; [tauto|]. split; [lia|].
    split; [discriminate|].
    intros _. now rewrite app_nil_r.
  - inversion Hs as [|? ? Hs' Hf]; subst.
    destruct (isOld now ms f || isBeyondLimit StringToNumber this i)
      eqn:Hd.
    + intros E.
      assert (Hall : Forall (fun g => forall j, i <= j ->
                        isOld now ms g
                        || isBeyondLimit StringToNumber this j = true) (f :: files)).
      { constructor.
        - intros j Hj. apply (doomed_monotone f f i j); [lia | exact Hj | exact Hd].
        - eapply Forall_impl; [|exact Hf]. cbn. intros g Hg j Hj.
          apply (doomed_monotone f g i j); [exact Hg | exact Hj | exact Hd]. }
      destruct (sweep_all (f :: files) i d u d' Hall E) as [Hd' Hu].
      exists 0. cbn [firstn skipn length In].
      split; [lia|]. split; [cbn [length] in Hd'; lia|]. split; [tauto|].
      split; [lia|]. split; [|exact Hu].
      cbn [nth_error]. intros g Eg. injection Eg as <-. now rewrite Nat.add_0_r.
    + cbn [sweep]. rewrite Hd. intros E.
      destruct (IH (S i) d u d' Hs' E) as (k & Hk & Hd' & Hold & Hlim & Hmax & Hu).
      apply orb_false_iff in Hd. destruct Hd as [Hold0 Hlim0].
      exists (S k). cbn [length firstn skipn nth_error].
      split; [lia|]. split; [lia|]. split; [|split; [|split]].
      * intros g [<-|Hg]; auto.
      * intros [|j] Hj; [now rewrite Nat.add_0_r|].
        replace (i + S j) with (S i + j) by lia. apply Hlim. lia.
      * intros g Hg. replace (i + S k) with (S i + k) by lia. now apply Hmax.
      * exact Hu.
Qed.

Lemma sweep_succeeds (files : list file) : forall i d u,
  (forall f, In f files -> exists r, unlinkSync (f_name f) = inr r) ->
  exists d', fst (sweep StringToNumber unlinkSync now this ms i files d u) = inr d'.
Proof.
  induction files as [|f files IH]; intros i d u Hok; cbn [sweep].
  - eexists. reflexivity.
  - assert (Hrest : forall g, In g files -> exists r, unlinkSync (f_name g) = inr r)
      by (intros g Hg; apply Hok; now right).
    destruct (isOld _ _ f || isBeyondLimit _ _ i); [|now apply IH].
    destruct (truthy (dryRun this)); [now apply IH|].
    destruct (Hok f (or_introl eq_refl)) as [r ->]. now apply IH.
Qed.

End Sweep.

Variable readdirSync : Error + list jsstring.
Variable statSync : jsstring -> Error + Z.

Lemma stat_all_names (names : list jsstring) (stats : list file) :
  stat_all statSync names = inr stats -> map f_name stats = names.
Proof.
  revert stats. induction names as [|name names IH]; intros stats; cbn [stat_all].
  - intros E. injection E as <-. reflexivity.
  - destruct (statSync name) as [e|t]; [discriminate|].
    destruct (stat_all statSync names) as [e|files]; [discriminate|].
    intros E. injection E as <-. cbn. now rewrite (IH files eq_refl).
Qed.

(** X19.  [cleanupOCRResults] unlinks only files of the directory that are
    named ocr-result-*.txt, and none in a dry run.  When it returns,
    deleted and kept add up to the number of such files; the kept files are
    the first ones in the order newest first, none of them is older than
    the maximal age, and in a run that is not dry the files unlinked are
    exactly the others, each at most as new as every kept file.  When
    [maxFiles] is a whole number that is not negative, at most that many
    files are kept. *)
Theorem X19_cleanup_deletes_old_and_surplus_results :
  let out := cleanupOCRResults StringToNumber readdirSync statSync unlinkSync now this in
  (forall name, In name (snd out) ->
     isOCRResult name = true /\
     exists names, readdirSync = inr names /\ In name names) /\
  (truthy (dryRun this) = true -> snd out = []) /\
  (forall c, fst out = inr c ->
     exists names stats ms,
       readdirSync = inr names /\
       stat_all statSync (filter isOCRResult names) = inr stats /\
       maxAgeMs StringToNumber this = inr ms /\
       deleted c + kept c = length (filter isOCRResult names) /\
       (forall f, In f (firstn (kept c) (sort_desc stats)) ->
          isOld now ms f = false) /\
       (forall f g, In f (firstn (kept c) (sort_desc stats)) ->
          In g (skipn (kept c) (sort_desc stats)) -> (mtime g <= mtime f)%Z) /\
       (truthy (dryRun this) = false ->
          snd out = map f_name (skipn (kept c) (sort_desc stats))) /\
       (forall z, ToNumber StringToNumber (maxFiles this) = Num (inject_Z z) ->
          (0 <= z)%Z -> (Z.of_nat (kept c) <= z)%Z)).
Proof.
  cbv zeta. unfold cleanupOCRResults.
  destruct readdirSync as [e|names]; [cbn; repeat split; try tauto; discriminate|].
  destruct (stat_all statSync (filter isOCRResult names)) as [e|stats] eqn:Hstat;
    [cbn; repeat split; try tauto; discriminate|].
  destruct (maxAgeMs StringToNumber this) as [e|ms] eqn:Hms;
    [cbn; repeat split; try tauto; discriminate|].
  pose proof (stat_all_names _ _ Hstat) as Hnames.
  assert (Hlen : length (sort_desc stats) = length (filter isOCRResult names)).
  { rewrite <- Hnames, length_map. apply Permutation_length, sort_desc_perm. }
  destruct (sweep_names ms (sort_desc stats) 0 0 []) as (u' & Eu & Hincl & Hdry).
  pose proof (sweep_sorted ms (sort_desc stats) 0 0 []) as Hsw.
  destruct (sweep StringToNumber unlinkSync now this ms 0 (sort_desc stats) 0 [])
    as [[e|deletedCount] unlinked]; cbn [fst snd] in *.
  - subst unlinked. cbn [app]. split; [|split; [exact Hdry | discriminate]].
    intros name Hin. apply Hincl in Hin. apply in_map_iff in Hin.
    destruct Hin as [f [<- Hf]].
    apply (Permutation_in _ (sort_desc_perm stats)) in Hf.
    apply (in_map f_name) in Hf. rewrite Hnames in Hf. apply filter_In in Hf.
    split; [tauto|]. exists names. tauto.
  - subst unlinked. cbn [app]. split; [|split; [exact Hdry|]].
    + intros name Hin. apply Hincl in Hin. apply in_map_iff in Hin.
      destruct Hin as [f [<- Hf]].
      apply (Permutation_in _ (sort_desc_perm stats)) in Hf.
      apply (in_map f_name) in Hf. rewrite Hnames in Hf. apply filter_In in Hf.
      split; [tauto|]. exists names. tauto.
    + intros c E. injection E as <-. cbn [deleted kept].
      destruct (Hsw deletedCount (sort_desc_sorted stats) eq_refl)
        as (k & Hk & Hd & Hold & Hlim & _ & Hu).
      assert (Hkept : length (sort_desc stats) - deletedCount = k) by lia.
      rewrite Hkept. exists names, stats, ms.
      split; [reflexivity|]. split; [exact Hstat|]. split; [reflexivity|].
      split; [lia|].
      split; [exact Hold|]. split; [|split].
      * intros f g Hf Hg.
        pose proof (sort_desc_sorted stats) as Hs. unfold newest_first in Hs.
        rewrite <- (firstn_skipn k (sort_desc stats)) in Hs.
        clear -Hs Hf Hg. induction (firstn k (sort_desc stats)) as [|a l IH];
          [contradiction|].
        cbn [app] in Hs. inversion Hs as [|? ? Hs' Ha]; subst.
        destruct Hf as [<-|Hf]; [|now apply IH].
        rewrite Forall_forall in Ha. apply Ha, in_or_app. now right.
      * exact Hu.
      * intros z Hz Hz0. destruct k as [|k]; [lia|].
        specialize (Hlim k (Nat.lt_succ_diag_r k)).
        unfold isBeyondLimit, num_ge, num_le, num_of_Z in Hlim. rewrite Hz in Hlim.
        cbn [Nat.add] in Hlim.
        assert (Hnot : ~ (inject_Z z <= inject_Z (Z.of_nat k))%Q).
        { intros H. apply Qle_bool_iff in H. congruence. }
        rewrite <- Zle_Qle in Hnot. lia.
Qed.

End CleanupFacts.

(* ===================================================================== *)
(** * What the patterns of the parser capture                             *)
(* ===================================================================== *)

Section MatcherSoundness.
Variable fl : flags.
Variable total : nat.

Lemma rep_loop_sound (R : Type) (r : regex) (greedy : bool)
    (k : jsstring -> captures -> option R) :
  (forall s caps (d : jsstring -> captures -> option R) z,
     m fl total r s caps d = Some z ->
     exists s' caps', matches fl total r s caps s' caps' /\ d s' caps' = Some z) ->
  forall fuel lo hi s caps z,
    rep_loop (m fl total (R:=R) r) greedy k fuel lo hi s caps = Some z ->
    exists s' caps',
      matches fl total (Rep r lo hi greedy) s caps s' caps' /\ k s' caps' = Some z.
Proof.
  intros Hbody. induction fuel as [|fuel IH]; intros lo hi s caps z; [discriminate|].
  cbn [rep_loop].
  assert (Hstep : forall s1 c1,
             matches fl total r s caps s1 c1 ->
             hi <> Some 0 ->
             (if Nat.eqb lo 0 && Nat.eqb (length s1) (length s) then None
              else rep_loop (m fl total (R:=R) r) greedy k fuel (Nat.pred lo)
                            (option_map Nat.pred hi) s1 c1) = Some z ->
             exists s' caps',
               matches fl total (Rep r lo hi greedy) s caps s' caps' /\
               k s' caps' = Some z).
  { intros s1 c1 Hm Hhi Hd.
    destruct (Nat.eqb lo 0 && Nat.eqb (length s1) (length s)); [discriminate|].
    apply IH in Hd. destruct Hd as (s' & caps' & Hrest & Hk).
    exists s', caps'. split; [|exact Hk]. eapply M_RepStep; eauto. }
  assert (Hstop : lo = 0 \/ hi = Some 0 -> k s caps = Some z ->
                  exists s' caps',
                    matches fl total (Rep r lo hi greedy) s caps s' caps' /\
                    k s' caps' = Some z).
  { intros H Hk. exists s, caps. split; [now apply M_RepStop | exact Hk]. }
  assert (Hbody' : hi <> Some 0 ->
             m fl total r s caps
               (fun s' caps' =>
                  if Nat.eqb lo 0 && Nat.eqb (length s') (length s) then None
                  else rep_loop (m fl total (R:=R) r) greedy k fuel (Nat.pred lo)
                                (option_map Nat.pred hi) s' caps') = Some z ->
             exists s' caps',
               matches fl total (Rep r lo hi greedy) s caps s' caps' /\
               k s' caps' = Some z).
  { intros Hhi Hb. apply Hbody in Hb. destruct Hb as (s1 & c1 & Hm & Hd).
    eapply Hstep; eauto. }
  destruct hi as [[|h]|].
  - intros Hk. apply Hstop; auto.
  - assert (Hhi : Some (S h) <> Some 0) by discriminate.
    destruct (Nat.eqb lo 0) eqn:Elo; cbn [negb].
    + apply Nat.eqb_eq in Elo. destruct greedy.
      * destruct (m fl total r s caps _) eqn:Eb.
        -- intros E. injection E as <-. now apply Hbody'.
        -- apply Hstop. now left.
      * destruct (k s caps) eqn:Ek.
        -- intros E. injection E as <-. apply Hstop; auto.
        -- now apply Hbody'.
    + now apply Hbody'.
  - assert (Hhi : @None nat <> Some 0) by discriminate.
    destruct (Nat.eqb lo 0) eqn:Elo; cbn [negb].
    + apply Nat.eqb_eq in Elo. destruct greedy.
      * destruct (m fl total r s caps _) eqn:Eb.
        -- intros E. injection E as <-. now apply Hbody'.
        -- apply Hstop. now left.
      * destruct (k s caps) eqn:Ek.
        -- intros E. injection E as <-. apply Hstop; auto.
        -- now apply Hbody'.
    + now apply Hbody'.
Qed.

(** Every result of the matcher is a match, handed to the continuation. *)
Lemma m_sound (r : regex) : forall (R : Type) s caps (k : jsstring -> captures -> option R) z,
  m fl total r s caps k = Some z ->
  exists s' caps', matches fl total r s caps s' caps' /\ k s' caps' = Some z.
Proof.
  induction r as [|a|p| |r1 IH1 r2 IH2|r1 IH1 r2 IH2|r IH lo hi greedy|i r IH| | |r IH];
    intros R s caps k z; cbn [m].
  - intros H. exists s, caps. split; [constructor | exact H].
  - destruct s as [|x s]; [discriminate|].
    destruct (lit_matches fl a x) eqn:E; [|discriminate].
    intros H. exists s, caps. split; [now constructor | exact H].
  - destruct s as [|x s]; [discriminate|].
    destruct (cls_matches fl p x) eqn:E; [|discriminate].
    intros H. exists s, caps. split; [now constructor | exact H].
  - destruct s as [|x s]; [discriminate|].
    destruct (dotAll fl || negb (isLineTerminator x)) eqn:E; [|discriminate].
    intros H. exists s, caps. split; [now constructor | exact H].
  - intros H. apply IH1 in H. destruct H as (s1 & c1 & H1 & H).
    apply IH2 in H. destruct H as (s2 & c2 & H2 & H).
    exists s2, c2. split; [econstructor; eauto | exact H].
  - destruct (m fl total r1 s caps k) eqn:E.
    + intros H. injection H as <-. apply IH1 in E. destruct E as (s1 & c1 & H1 & H).
      exists s1, c1. split; [now apply M_AltL | exact H].
    + intros H. apply IH2 in H. destruct H as (s1 & c1 & H1 & H).
      exists s1, c1. split; [now apply M_AltR | exact H].
  - apply rep_loop_sound. intros s0 caps0 d z0. apply IH.
  - intros H. apply IH in H. destruct H as (s1 & c1 & H1 & H).
    exists s1, ((i, firstn (length s - length s1) s) :: c1).
    split; [now constructor | exact H].
  - destruct (Nat.eqb (length s) total) eqn:E; [|discriminate].
    apply Nat.eqb_eq in E.
    intros H. exists s, caps. split; [now constructor | exact H].
  - destruct s as [|x s]; [|discriminate].
    intros H. exists [], caps. split; [constructor | exact H].
  - destruct (m fl total r s caps (fun _ caps' => Some caps')) as [caps1|] eqn:E;
      [|discriminate].
    apply IH in E. destruct E as (s1 & c1 & H1 & E). injection E as ->.
    intros H. exists s, caps1. split; [econstructor; eauto | exact H].
Qed.

(** A match leaves a suffix of what it was given. *)
Lemma matches_suffix r s c s' c' :
  matches fl total r s c s' c' -> exists pre, s = pre ++ s'.
Proof.
  induction 1;
    try (now exists []);
    try (now (eexists [_]; reflexivity));
    auto.
  - destruct IHmatches1 as [p1 ->]. destruct IHmatches2 as [p2 ->].
    exists (p1 ++ p2). now rewrite app_assoc.
  - destruct IHmatches1 as [p1 ->]. destruct IHmatches2 as [p2 ->].
    exists (p1 ++ p2). now rewrite app_assoc.
Qed.

Lemma firstn_consumed (pre s' : jsstring) :
  firstn (length (pre ++ s') - length s') (pre ++ s') = pre.
Proof.
  rewrite length_app, Nat.add_sub, firstn_app, Nat.sub_diag, firstn_all.
  cbn. apply app_nil_r.
Qed.

(** A pattern without group leaves the captures alone. *)
Lemma matches_nogroup r s c s' c' :
  matches fl total r s c s' c' -> nogroup r = true -> c' = c.
Proof.
  induction 1; cbn [nogroup]; intros Hn; auto; try discriminate.
  - apply andb_true_iff in Hn. destruct Hn as [H1 H2].
    rewrite (IHmatches2 H2). auto.
  - apply andb_true_iff in Hn. destruct Hn. auto.
  - apply andb_true_iff in Hn. destruct Hn. auto.
  - rewrite (IHmatches2 Hn). auto.
Qed.

(** A repeated class consumes a run of the class, of a length within the
    bounds. *)
Lemma matches_run (p : codeunit -> bool) r s c s' c' :
  matches fl total r s c s' c' ->
  forall lo hi g, r = Rep (Cls p) lo hi g -> bounds_ok lo hi ->
  c' = c /\
  exists pre, s = pre ++ s' /\ lo <= length pre /\
              (forall h, hi = Some h -> length pre <= h) /\
              Forall (fun x => cls_matches fl p x = true) pre.
Proof.
  induction 1; intros lo0 hi0 g0 E Hb; try discriminate.
  - injection E as -> -> -> ->. split; [reflexivity|].
    exists []. split; [reflexivity|].
    split; [destruct H as [->| ->]; [apply Nat.le_0_l | cbn in Hb; cbn; lia]|].
    split; [intros h _; apply Nat.le_0_l | constructor].
  - injection E as -> -> -> ->.
    inversion H0; subst.
    destruct (IHmatches2 (Nat.pred lo0) (option_map Nat.pred hi0) g0 eq_refl)
      as [Hc (pre & Hs & Hlen & Hhi & Hall)].
    { destruct hi0 as [[|h]|]; cbn in *; try lia; congruence. }
    split; [exact Hc|].
    exists (x :: pre). split; [cbn; now rewrite Hs|]. split; [cbn; lia|].
    split; [|constructor; assumption].
    intros h ->. destruct h as [|h]; [congruence|].
    specialize (Hhi h eq_refl). cbn. lia.
Qed.

End MatcherSoundness.

(** What [exec] returns is a match at the index it tells. *)
Lemma exec_sound (fl : flags) (r : regex) (s : jsstring) (z : match_result) :
  exec fl r s = Some z ->
  exists pre rest s' caps',
    s = pre ++ rest /\ index z = length pre /\
    matches fl (length s) r rest [] s' caps' /\
    matched z = firstn (length rest - length s') rest /\
    groups z = caps'.
Proof.
  unfold exec.
  assert (G : forall rest i pre,
             s = pre ++ rest -> i = length pre ->
             search fl r (length s) i rest = Some z ->
             exists pre rest s' caps',
               s = pre ++ rest /\ index z = length pre /\
               matches fl (length s) r rest [] s' caps' /\
               matched z = firstn (length rest - length s') rest /\
               groups z = caps').
  { induction rest as [|c rest IH]; intros i pre Hs Hi; cbn [search].
    - destruct (match_here fl r (length s) i []) eqn:E; [|discriminate].
      intros H. injection H as ->. unfold match_here in E.
      apply m_sound in E. destruct E as (s' & caps' & Hm & E). injection E as <-.
      exists pre, [], s', caps'. cbn. auto.
    - destruct (match_here fl r (length s) i (c :: rest)) eqn:E.
      + intros H. injection H as ->. unfold match_here in E.
        apply m_sound in E. destruct E as (s' & caps' & Hm & E). injection E as <-.
        exists pre, (c :: rest), s', caps'. cbn. auto.
      + apply (IH (S i) (pre ++ [c])).
        * now rewrite <- app_assoc.
        * rewrite length_app. cbn. lia. }
  apply (G s 0 []); reflexivity.
Qed.

(** ** Classes under flag [i] *)

Lemma isLower_range (x : codeunit) : isLower x = true -> (97 <= x <= 122)%N.
Proof.
  unfold isLower. intros H. apply andb_true_iff in H.
  destruct H as [H1 H2]. apply N.leb_le in H1, H2. lia.
Qed.

Lemma isUpper_range (x : codeunit) : isUpper x = true -> (65 <= x <= 90)%N.
Proof.
  unfold isUpper. intros H. apply andb_true_iff in H.
  destruct H as [H1 H2]. apply N.leb_le in H1, H2. lia.
Qed.

Lemma isNumChar_range (x : codeunit) :
  isNumChar x = true <-> (48 <= x <= 57)%N \/ x = 46%N \/ x = 44%N.
Proof.
  unfold isNumChar, isDigit, oneOf. cbn. unfold cu_eqb.
  rewrite !orb_true_iff, andb_true_iff, !N.leb_le, !N.eqb_eq. intuition discriminate.
Qed.

Lemma numchar_ci (x : codeunit) :
  cls_matches flag_i (fun c => isDigit c || oneOf ".," c) x = true -> isNumChar x = true.
Proof.
  unfold cls_matches. cbn [ignoreCase flag_i].
  change (fun c => isDigit c || oneOf ".," c) with isNumChar.
  intros H. apply orb_true_iff in H. destruct H as [H|H].
  - apply orb_true_iff in H. destruct H as [H|H]; [exact H|].
    unfold upperASCII in H. destruct (isLower x) eqn:E; [|exact H].
    apply isLower_range in E. apply isNumChar_range in H. lia.
  - unfold lowerASCII in H. destruct (isUpper x) eqn:E; [|exact H].
    apply isUpper_range in E. apply isNumChar_range in H. lia.
Qed.

Lemma upper_ci (x : codeunit) : cls_matches flag_i isUpper x = true -> isLetter x = true.
Proof.
  unfold cls_matches, isLetter. cbn [ignoreCase flag_i].
  intros H. apply orb_true_iff in H. destruct H as [H|H].
  - apply orb_true_iff in H. destruct H as [->|H]; [reflexivity|].
    unfold upperASCII in H. destruct (isLower x) eqn:E; [apply orb_true_r|].
    now rewrite H.
  - unfold lowerASCII in H. destruct (isUpper x) eqn:E; [reflexivity|].
    now rewrite H in E.
Qed.

Lemma isLetter_not_white (x : codeunit) : isLetter x = true -> isWhiteSpace x = false.
Proof.
  unfold isLetter. intros H. apply orb_true_iff in H.
  assert (Hr : (65 <= x <= 122)%N).
  { destruct H as [H|H]; [apply isUpper_range in H | apply isLower_range in H]; lia. }
  unfold isWhiteSpace.
  repeat match goal with
         | |- context [(?a <=? ?b)%N] => destruct (N.leb_spec a b); try lia
         | |- context [(?a =? ?b)%N] => destruct (N.eqb_spec a b); try lia
         end; reflexivity.
Qed.

Lemma isWord_not_white (x : codeunit) : isWord x = true -> isWhiteSpace x = false.
Proof.
  unfold isWord. intros H.
  assert (Hr : (48 <= x <= 122)%N).
  { rewrite !orb_true_iff in H. destruct H as [[[H|H]|H]|H].
    - unfold isDigit in H. apply andb_true_iff in H. destruct H as [H1 H2].
      apply N.leb_le in H1, H2. lia.
    - apply isUpper_range in H. lia.
    - apply isLower_range in H. lia.
    - apply N.eqb_eq in H. lia. }
  unfold isWhiteSpace.
  repeat match goal with
         | |- context [(?a <=? ?b)%N] => destruct (N.leb_spec a b); try lia
         | |- context [(?a =? ?b)%N] => destruct (N.eqb_spec a b); try lia
         end; reflexivity.
Qed.

(** A text without white space at either end is what [trim] returns. *)
Lemma trim_no_white (s : jsstring) :
  Forall (fun x => isWhiteSpace x = false) s -> trim s = s.
Proof.
  intros H. apply trim_fixed.
  - destruct H; cbn; auto.
  - unfold lastOK. apply Forall_rev in H. destruct H; cbn; auto.
Qed.

(** ** Reading a quantity *)

Lemma span_fst_all (p : codeunit -> bool) (s : jsstring) :
  Forall (fun x => p x = true) (fst (span p s)).
Proof.
  induction s as [|c s IH]; cbn; [constructor|].
  destruct (p c) eqn:E; [|constructor].
  destruct (span p s); cbn in *. constructor; assumption.
Qed.

Lemma digitsValue_nonneg (ds : jsstring) :
  Forall (fun x => isDigit x = true) ds -> (0 <= digitsValue ds)%Z.
Proof.
  unfold digitsValue. intros H.
  assert (G : forall acc, (0 <= acc)%Z ->
              (0 <= fold_left (fun acc d => acc * 10 + (Z.of_N d - 48)) ds acc)%Z).
  { induction H as [|d ds Hd Hds IH]; intros acc Hacc; cbn [fold_left]; [exact Hacc|].
    apply IH. unfold isDigit in Hd. apply andb_true_iff in Hd.
    destruct Hd as [H1 H2]. apply N.leb_le in H1, H2. lia. }
  apply G. lia.
Qed.

(** [parseFloat] on a text that does not start with a sign: NaN or a
    number that is not negative. *)
Lemma parseFloat_unsigned (s : jsstring) :
  (forall c t, trimStart s = c :: t -> c <> 45%N) ->
  parseFloat s = NaN \/ exists q, parseFloat s = Num q /\ (0 <= q)%Q.
Proof.
  intros Hsign. unfold parseFloat.
  assert (Hr : readSign (trimStart s) = (false, trimStart s) \/
               exists t, readSign (trimStart s) = (false, t)).
  { unfold readSign. destruct (trimStart s) as [|c t] eqn:E; [now left|].
    destruct (N.eqb_spec c 45) as [->|_]; [now destruct (Hsign 45%N t eq_refl)|].
    destruct (c =? 43)%N; [right; eauto | now left]. }
  assert (Hr' : exists t, readSign (trimStart s) = (false, t))
    by (destruct Hr as [H|H]; eauto).
  destruct Hr' as [s1 ->].
  pose proof (span_fst_all isDigit s1) as Hip.
  destruct (span isDigit s1) as [ip s2]. cbn [fst] in Hip.
  assert (Hfp : forall u, Forall (fun x => isDigit x = true) (fst (span isDigit u)))
    by (intros u; apply span_fst_all).
  set (frac := match s2 with
               | [] => ([], [])
               | c :: t => if (c =? 46)%N then span isDigit t else ([], s2)
               end).
  assert (Hfrac : Forall (fun x => isDigit x = true) (fst frac)).
  { subst frac. destruct s2 as [|c t]; [constructor|].
    destruct (c =? 46)%N; [apply Hfp | constructor]. }
  destruct frac as [fp s3]. cbn [fst] in Hfrac.
  destruct (ip ++ fp) as [|d ds] eqn:E; [now left|].
  right. eexists. split; [reflexivity|].
  rewrite Qred_correct. apply Qmult_le_0_compat.
  - change 0%Q with (inject_Z 0). rewrite <- Zle_Qle.
    apply digitsValue_nonneg. rewrite <- E. apply Forall_app. auto.
  - apply Qpower_0_le. discriminate.
Qed.

Lemma numchar_not_white (x : codeunit) : isNumChar x = true -> isWhiteSpace x = false.
Proof.
  intros H. apply isNumChar_range in H. unfold isWhiteSpace.
  repeat match goal with
         | |- context [(?a <=? ?b)%N] => destruct (N.leb_spec a b); try lia
         | |- context [(?a =? ?b)%N] => destruct (N.eqb_spec a b); try lia
         end; reflexivity.
Qed.

Lemma parseFloat_numchars (s : jsstring) :
  Forall (fun x => isNumChar x = true) s ->
  parseFloat s = NaN \/ exists q, parseFloat s = Num q /\ (0 <= q)%Q.
Proof.
  intros H. apply parseFloat_unsigned. intros c t E.
  assert (Hin : In c s).
  { unfold trimStart in E. clear H. induction s as [|a s IH]; [discriminate|].
    cbn in E. destruct (isWhiteSpace a); [right; auto|].
    injection E as -> _. now left. }
  rewrite Forall_forall in H. apply H, isNumChar_range in Hin. lia.
Qed.

(** ** Rewriting a quantity text *)

Lemma replace1_Forall (P : codeunit -> Prop) (fl : flags) (r : regex)
    (f : match_result -> jsstring) (s : jsstring) :
  Forall P s -> (forall z, Forall P (f z)) -> Forall P (replace1 fl r f s).
Proof.
  intros Hs Hf. unfold replace1. destruct (exec fl r s) as [z|]; [|exact Hs].
  apply Forall_app. split; [apply (Forall_firstn_skipn _ P _ s Hs)|].
  apply Forall_app. split; [apply Hf | apply (Forall_firstn_skipn _ P _ s Hs)].
Qed.

(** ** The quantity pattern of strategy 2 *)

Ltac inv_seq :=
  repeat match goal with
         | H : matches _ _ (Seq _ _) _ _ _ _ |- _ => inversion H; subst; clear H
         | H : matches _ _ (Grp _ _) _ _ _ _ |- _ => inversion H; subst; clear H
         end.

(** A step of a pattern without group: the captures stay. *)
Ltac same_caps r :=
  match goal with
  | H : matches ?fl ?total r _ _ _ _ |- _ =>
      let E := fresh "E" in
      pose proof (matches_nogroup fl total _ _ _ _ _ H eq_refl) as E;
      try subst; clear H
  end.

Lemma qtyPattern_captures (total : nat) (rest s' : jsstring) (caps' : captures) :
  matches flag_i total PDFParser.qtyPattern rest [] s' caps' ->
  exists g1 g2 g3,
    caps' = [(3, g3); (2, g2); (1, g1)] /\
    g1 <> [] /\ Forall (fun x => isNumChar x = true) g1 /\
    g3 <> [] /\ Forall (fun x => isLetter x = true) g3.
Proof.
  unfold PDFParser.qtyPattern. cbn [seq]. intros H. inv_seq.
  same_caps (plus PDFParser.space). same_caps PDFParser.unitName.
  same_caps (star PDFParser.space). same_caps (Lit (chr "(")).
  same_caps (Lit (chr ")")).
  match goal with
  | H : matches _ _ (plus PDFParser.numchar) _ _ _ _ |- _ =>
      destruct (matches_run flag_i total _ _ _ _ _ _ H 1 None true eq_refl I)
        as [Hc1 (pre1 & Hs1 & Hlen1 & _ & Hall1)]
  end.
  match goal with
  | H : matches _ _ (plus PDFParser.AZ) _ _ _ _ |- _ =>
      destruct (matches_run flag_i total _ _ _ _ _ _ H 1 None true eq_refl I)
        as [Hc3 (pre3 & Hs3 & Hlen3 & _ & Hall3)]
  end.
  subst. rewrite !firstn_consumed.
  eexists _, _, _. split; [reflexivity|].
  split; [intros E; subst; cbn in Hlen1; lia|].
  split; [eapply Forall_impl; [|exact Hall1]; apply numchar_ci|].
  split; [intros E; subst; cbn in Hlen3; lia|].
  eapply Forall_impl; [|exact Hall3]. apply upper_ci.
Qed.

Lemma filter_Forall_numchar (q : codeunit -> bool) (s : jsstring) :
  Forall (fun x => isNumChar x = true) s ->
  Forall (fun x => isNumChar x = true) (filter q s).
Proof.
  intros H. apply Forall_forall. intros x Hx. apply filter_In in Hx.
  rewrite Forall_forall in H. now apply H.
Qed.

Lemma normalizeQtyString_numchars (g : jsstring) :
  Forall (fun x => isNumChar x = true) g ->
  Forall (fun x => isNumChar x = true) (PDFParser.normalizeQtyString g).
Proof.
  intros H. unfold PDFParser.normalizeQtyString, PDFParser.dotsOut_commaToDot.
  destruct (includes (str ".") g && includes (str ",") g).
  - apply replace1_Forall; [|intros z; repeat constructor].
    rewrite (replaceAll_g_delete (cu_eqb (chr ".")) (Lit (chr ".")) (lit_one_unit _)).
    now apply filter_Forall_numchar.
  - destruct (test noflags _ g); [exact H|].
    destruct (test noflags _ g).
    + rewrite (replaceAll_g_delete (cu_eqb (chr ".")) (Lit (chr ".")) (lit_one_unit _)).
      now apply filter_Forall_numchar.
    + apply replace1_Forall; [exact H | intros z; repeat constructor].
Qed.

(** ** The tariff code *)

Lemma lit_noflags (a x : codeunit) : lit_matches noflags a x = true -> x = a.
Proof. unfold lit_matches. cbn. unfold cu_eqb. intros H. apply N.eqb_eq in H. auto. Qed.

Lemma hsTwoDots_shape (total : nat) (rest s' : jsstring) (caps' : captures) :
  matches noflags total hsTwoDots rest [] s' caps' ->
  exists a b c,
    caps' = [(3, c); (2, b); (1, a)] /\ s' = [] /\ length rest = total /\
    rest = a ++ 46%N :: b ++ 46%N :: c /\
    length a = 4 /\ length b = 2 /\ length c = 4 /\
    Forall (fun x => isDigit x = true) (a ++ b ++ c).
Proof.
  unfold hsTwoDots. cbn [seq]. intros H. inv_seq.
  repeat match goal with
         | H : matches _ _ Bol _ _ _ _ |- _ => inversion H; subst; clear H
         | H : matches _ _ Eol _ _ _ _ |- _ => inversion H; subst; clear H
         | H : matches _ _ (Lit _) _ _ _ _ |- _ => inversion H; subst; clear H
         end.
  repeat match goal with
         | H : lit_matches noflags _ _ = true |- _ => apply lit_noflags in H; subst
         end.
  repeat match goal with
         | H : matches _ _ (times ?n ?n PDFParser.digit) _ _ _ _ |- _ =>
             let Hc := fresh "Hc" in
             let pre := fresh "pre" in
             let Hs := fresh "Hs" in
             let Hlo := fresh "Hlo" in
             let Hhi := fresh "Hhi" in
             let Hall := fresh "Hall" in
             destruct (matches_run noflags _ _ _ _ _ _ _ H n (Some n) true eq_refl
                                   (le_n n))
               as [Hc (pre & Hs & Hlo & Hhi & Hall)];
             specialize (Hhi n eq_refl); clear H
         end.
  subst. change (chr ".") with 46%N. rewrite !firstn_consumed.
  match goal with
  | |- context [(3, ?c) :: (2, ?b) :: (1, ?a) :: []] => exists a, b, c
  end.
  rewrite !app_nil_r.
  split; [reflexivity|]. split; [reflexivity|]. split; [reflexivity|].
  split; [reflexivity|]. split; [lia|]. split; [lia|]. split; [lia|].
  repeat (apply Forall_app; split); assumption.
Qed.

Lemma normalizeHsCode_eq (hsCode : jsstring) :
  PDFParser.normalizeHsCode hsCode =
  if negb (includes (str ".") (stripBrackets hsCode))
     && (10 <=? length (stripBrackets hsCode))
  then substring 0 4 (stripBrackets hsCode) ++ str "." ++ skipn 4 (stripBrackets hsCode)
  else replace1 noflags hsTwoDots
         (fun z => group 1 z ++ str "." ++ group 2 z ++ group 3 z)
         (stripBrackets hsCode).
Proof. unfold PDFParser.normalizeHsCode. rewrite brackets_removed. reflexivity. Qed.

Lemma includes_unit_iff (c : codeunit) (s : jsstring) :
  includes [c] s = true <-> In c s.
Proof.
  induction s as [|x s IH]; cbn [includes startsWith In].
  - split; [discriminate | tauto].
  - rewrite orb_true_iff, IH, andb_true_r. unfold cu_eqb. rewrite N.eqb_eq.
    split; intros [H|H]; auto.
Qed.

Lemma digit_not_46 (x : codeunit) : isDigit x = true -> x <> 46%N.
Proof.
  unfold isDigit. intros H. apply andb_true_iff in H. destruct H as [H1 H2].
  apply N.leb_le in H1, H2. lia.
Qed.

Lemma digits_no_dot (s : jsstring) : Forall (fun x => isDigit x = true) s -> ~ In 46%N s.
Proof.
  intros H Hin. rewrite Forall_forall in H. now apply (digit_not_46 46%N (H 46%N Hin)).
Qed.

Lemma stripBrackets_fixed (s : jsstring) :
  Forall (fun x => isBracket x = false) s -> stripBrackets s = s.
Proof.
  unfold stripBrackets. induction 1 as [|x s Hx Hs IH]; [reflexivity|].
  cbn [filter]. rewrite Hx. cbn [negb]. now rewrite IH.
Qed.

Lemma stripBrackets_clean (s : jsstring) :
  Forall (fun x => isBracket x = false) (stripBrackets s).
Proof.
  apply Forall_forall. intros x Hx. apply filter_In in Hx.
  now apply negb_true_iff.
Qed.

Lemma digits_clean (s : jsstring) :
  Forall (fun x => isDigit x = true) s -> Forall (fun x => isBracket x = false) s.
Proof. apply Forall_impl. apply digit_not_bracket. Qed.

(** What the pattern does on a text: nothing unless the text is made of
    four digits, a dot, two digits, a dot and four digits. *)
Lemma exec_hsTwoDots (k : jsstring) (z : match_result) :
  exec noflags hsTwoDots k = Some z ->
  exists a b c,
    k = a ++ 46%N :: b ++ 46%N :: c /\
    length a = 4 /\ length b = 2 /\ length c = 4 /\
    Forall (fun x => isDigit x = true) (a ++ b ++ c) /\
    index z = 0 /\ matched z = k /\
    group 1 z = a /\ group 2 z = b /\ group 3 z = c.
Proof.
  intros H. apply exec_sound in H.
  destruct H as (pre & rest & s' & caps' & Hk & Hi & Hm & Hmd & Hg).
  apply hsTwoDots_shape in Hm.
  destruct Hm as (a & b & c & Hc & -> & Hlen & Hr & Ha & Hb & Hcl & Hd).
  assert (Hpre : pre = []).
  { rewrite Hk, length_app in Hlen. destruct pre; [reflexivity | cbn in Hlen; lia]. }
  subst pre. cbn [app length] in *. subst rest.
  exists a, b, c. split; [exact Hr|].
  split; [exact Ha|]. split; [exact Hb|]. split; [exact Hcl|]. split; [exact Hd|].
  split; [exact Hi|]. split.
  - rewrite Hmd. cbn [length]. rewrite Nat.sub_0_r. apply firstn_all.
  - unfold group. rewrite Hg, Hc. cbn. auto.
Qed.

Lemma one_dot_no_match (x y : jsstring) :
  length x = 4 -> ~ In 46%N y ->
  exec noflags hsTwoDots (x ++ 46%N :: y) = None.
Proof.
  intros Hx Hy. destruct (exec noflags hsTwoDots (x ++ 46%N :: y)) as [z|] eqn:E;
    [|reflexivity].
  exfalso. apply exec_hsTwoDots in E.
  destruct E as (a & b & c & Hk & Ha & _ & _ & _).
  apply (f_equal (skipn 5)) in Hk.
  rewrite !skipn_app, Hx, Ha in Hk.
  rewrite (skipn_all2 x), (skipn_all2 a) in Hk by lia.
  cbn in Hk. apply Hy. rewrite Hk. apply in_or_app. right. now left.
Qed.

Lemma normalizeHsCode_clean (hsCode : jsstring) :
  Forall (fun x => isBracket x = false) (PDFParser.normalizeHsCode hsCode).
Proof.
  rewrite normalizeHsCode_eq. pose proof (stripBrackets_clean hsCode) as Hk.
  destruct (negb _ && _).
  - unfold substring.
    apply Forall_app. split; [apply (Forall_firstn_skipn _ _ _ _ Hk)|].
    apply Forall_app. split; [repeat constructor|].
    apply (Forall_firstn_skipn _ _ _ _ Hk).
  - unfold replace1.
    destruct (exec noflags hsTwoDots (stripBrackets hsCode)) as [z|] eqn:E; [|exact Hk].
    apply exec_hsTwoDots in E.
    destruct E as (a & b & c & _ & _ & _ & _ & Hd & _ & _ & -> & -> & ->).
    apply Forall_app. split; [apply (Forall_firstn_skipn _ _ _ _ Hk)|].
    apply Forall_app. split; [|apply (Forall_firstn_skipn _ _ _ _ Hk)].
    apply digits_clean in Hd. apply Forall_app in Hd. destruct Hd as [Ha Hbc].
    apply Forall_app. split; [exact Ha|].
    apply Forall_app. split; [repeat constructor | exact Hbc].
Qed.

Lemma normalizeHsCode_again (hsCode : jsstring) :
  PDFParser.normalizeHsCode (PDFParser.normalizeHsCode hsCode)
  = PDFParser.normalizeHsCode hsCode.
Proof.
  pose proof (normalizeHsCode_clean hsCode) as Hclean.
  rewrite (normalizeHsCode_eq (PDFParser.normalizeHsCode hsCode)).
  rewrite (stripBrackets_fixed _ Hclean).
  rewrite normalizeHsCode_eq. set (k := stripBrackets hsCode).
  destruct (negb (includes (str ".") k) && (10 <=? length k)) eqn:Hcond.
  - apply andb_true_iff in Hcond. destruct Hcond as [Hdot Hlen].
    apply negb_true_iff in Hdot. apply Nat.leb_le in Hlen.
    assert (Hno : ~ In 46%N k).
    { intros Hin. apply (includes_unit_iff 46%N k) in Hin.
      change [46%N] with (str ".") in Hin. congruence. }
    unfold substring. change (firstn (4 - 0) (skipn 0 k)) with (firstn 4 k).
    change (str "." ++ skipn 4 k) with (46%N :: skipn 4 k).
    assert (Hinc : includes (str ".") (firstn 4 k ++ 46%N :: skipn 4 k) = true)
      by apply (includes_unit 46%N).
    rewrite Hinc. cbn [negb andb].
    unfold replace1. rewrite one_dot_no_match; [reflexivity | |].
    + rewrite length_firstn. lia.
    + intros Hin. apply Hno. rewrite <- (firstn_skipn 4 k). apply in_or_app. now right.
  - destruct (exec noflags hsTwoDots k) as [z|] eqn:E.
    + destruct (exec_hsTwoDots k z E)
        as (a & b & c & Hk & Ha & Hb & Hc & Hd & Hi & Hm & H1 & H2 & H3).
      assert (Hout : replace1 noflags hsTwoDots
                       (fun z => group 1 z ++ str "." ++ group 2 z ++ group 3 z) k
                     = a ++ 46%N :: (b ++ c)).
      { unfold replace1. rewrite E, Hi, Hm, H1, H2, H3.
        cbn [firstn Nat.add app]. rewrite skipn_all. now rewrite app_nil_r. }
      rewrite !Hout.
      assert (Hinc : includes (str ".") (a ++ 46%N :: (b ++ c)) = true)
        by apply (includes_unit 46%N).
      rewrite Hinc. cbn [negb andb].
      unfold replace1. rewrite one_dot_no_match; [reflexivity | exact Ha |].
      apply digits_no_dot. apply Forall_app in Hd. tauto.
    + assert (Hout : replace1 noflags hsTwoDots
                       (fun z => group 1 z ++ str "." ++ group 2 z ++ group 3 z) k
                     = k)
        by (unfold replace1; now rewrite E).
      rewrite !Hout, Hcond. rewrite ?Hout. reflexivity.
Qed.

(** ** The units a pattern consumes *)

Lemma matches_alphabet (fl : flags) (total : nat) r s c s' c' :
  matches fl total r s c s' c' ->
  exists pre, s = pre ++ s' /\ Forall (fun x => accepts fl r x = true) pre.
Proof.
  induction 1; cbn [accepts];
    try (exists []; split; [reflexivity | constructor]).
  - exists [x]. split; [reflexivity | repeat constructor; assumption].
  - exists [x]. split; [reflexivity | repeat constructor; assumption].
  - exists [x]. split; [reflexivity | repeat constructor; assumption].
  - destruct IHmatches1 as (p1 & -> & Hp1). destruct IHmatches2 as (p2 & -> & Hp2).
    exists (p1 ++ p2). split; [now rewrite app_assoc|].
    apply Forall_app. split; eapply Forall_impl; eauto; cbn; intros a Ha; rewrite Ha;
      auto using orb_true_r.
  - destruct IHmatches as (p1 & -> & Hp1). exists p1. split; [reflexivity|].
    eapply Forall_impl; eauto. cbn. intros a Ha. now rewrite Ha.
  - destruct IHmatches as (p1 & -> & Hp1). exists p1. split; [reflexivity|].
    eapply Forall_impl; eauto. cbn. intros a Ha. rewrite Ha. apply orb_true_r.
  - destruct IHmatches1 as (p1 & -> & Hp1). destruct IHmatches2 as (p2 & -> & Hp2).
    exists (p1 ++ p2). split; [now rewrite app_assoc|].
    apply Forall_app. split; assumption.
  - exact IHmatches.
Qed.

(** Every element of [matchAll] is a match. *)
Lemma scan_g_sound (fl : flags) (r : regex) (total : nat) (z : match_result) :
  forall (fuel i : nat) (rest : jsstring),
    In z (concat (scan_g fl r total (fun z => [z]) (fun _ => []) fuel i rest)) ->
    exists rest0 s' caps', matches fl total r rest0 [] s' caps' /\ groups z = caps'.
Proof.
  induction fuel as [|fuel IH]; intros i rest; cbn [scan_g]; [intros []|].
  destruct (match_here fl r total i rest) as [z0|] eqn:E.
  - assert (Hz0 : exists rest0 s' caps', matches fl total r rest0 [] s' caps' /\
                                         groups z0 = caps').
    { unfold match_here in E. apply m_sound in E.
      destruct E as (s' & caps' & Hm & E). injection E as <-.
      exists rest, s', caps'. auto. }
    destruct (length (matched z0)) as [|n].
    + cbn [concat app]. intros [<-|H]; [exact Hz0|].
      destruct rest as [|c rest']; [destruct H|]. cbn [concat app] in H. eapply IH, H.
    + cbn [concat app]. intros [<-|H]; [exact Hz0|]. eapply IH, H.
  - destruct rest as [|c rest']; [intros []|]. cbn [concat app]. apply IH.
Qed.

Lemma matchAll_sound (fl : flags) (r : regex) (s : jsstring) (z : match_result) :
  In z (matchAll fl r s) ->
  exists rest s' caps', matches fl (length s) r rest [] s' caps' /\ groups z = caps'.
Proof. unfold matchAll. apply scan_g_sound. Qed.

(** ** What the groups of the patterns hold *)

Lemma grp_run (fl : flags) (total i : nat) (p : codeunit -> bool) (lo : nat)
    (hi : option nat) (g : bool) s c s' c' :
  matches fl total (Grp i (Rep (Cls p) lo hi g)) s c s' c' ->
  bounds_ok lo hi ->
  exists pre, c' = (i, pre) :: c /\ s = pre ++ s' /\ lo <= length pre /\
              Forall (fun x => cls_matches fl p x = true) pre.
Proof.
  intros H Hb. inversion H; subst.
  match goal with
  | H : matches _ _ (Rep _ _ _ _) _ _ _ _ |- _ =>
      destruct (matches_run fl total p _ _ _ _ _ H lo hi g eq_refl Hb)
        as [-> (pre & -> & Hlo & _ & Hall)]
  end.
  exists pre. rewrite firstn_consumed. auto.
Qed.

Lemma grp_alphabet (fl : flags) (total i : nat) (r : regex) s c s' c' :
  matches fl total (Grp i r) s c s' c' -> nogroup r = true ->
  exists pre, c' = (i, pre) :: c /\ s = pre ++ s' /\
              Forall (fun x => accepts fl r x = true) pre.
Proof.
  intros H Hn. inversion H; subst.
  match goal with
  | H : matches _ _ r _ _ _ _ |- _ =>
      pose proof (matches_nogroup fl total _ _ _ _ _ H Hn) as ->;
      destruct (matches_alphabet fl total _ _ _ _ _ H) as (pre & -> & Hall)
  end.
  exists pre. rewrite firstn_consumed. auto.
Qed.

Ltac inv_seqs :=
  repeat match goal with
         | H : matches _ _ (Seq _ _) _ _ _ _ |- _ => inversion H; subst; clear H
         end.

(** The captures after a step without group are those before it. *)
Ltac caps_step :=
  match goal with
  | H : matches ?fl ?t ?r ?s ?c ?s' ?c' |- _ =>
      is_var c';
      tryif constr_eq c c' then fail else
      (let E := fresh "E" in
       assert (E : c' = c)
         by (apply (matches_nogroup fl t r s c s' c' H); reflexivity);
       subst c')
  end.

(** The capture of a group that holds a repeated class. *)
Ltac grp_step :=
  match goal with
  | H : matches ?fl ?t (Grp ?i (Rep (Cls ?p) ?lo ?hi ?g)) ?s ?c ?s' ?c' |- _ =>
      is_var c';
      let pre := fresh "pre" in
      let E := fresh "E" in
      let Hs := fresh "Hs" in
      let Hlo := fresh "Hlo" in
      let Hall := fresh "Hall" in
      destruct (grp_run fl t i p lo hi g s c s' c' H ltac:(cbn; lia))
        as (pre & E & Hs & Hlo & Hall);
      clear H; subst c'
  end.

Ltac open_pattern :=
  cbv [plus star opt times atleast plus_lazy PDFParser.word PDFParser.digit
       PDFParser.numchar PDFParser.AZ PDFParser.az PDFParser.space] in *.

Lemma word_ci (fl : flags) (x : codeunit) : cls_matches fl isWord x = true -> isWord x = true.
Proof.
  unfold cls_matches. destruct (ignoreCase fl); [|auto].
  intros H. apply orb_true_iff in H. destruct H as [H|H].
  - apply orb_true_iff in H. destruct H as [H|H]; [exact H|].
    unfold upperASCII in H. destruct (isLower x) eqn:E; [|exact H].
    unfold isWord. rewrite E. now rewrite !orb_true_r.
  - unfold lowerASCII in H. destruct (isUpper x) eqn:E; [|exact H].
    unfold isWord. rewrite E. now rewrite !orb_true_r.
Qed.

Lemma digit_ci (x : codeunit) : cls_matches noflags isDigit x = true -> isDigit x = true.
Proof. auto. Qed.

Lemma numchar_noflags (x : codeunit) :
  cls_matches noflags (fun c => isDigit c || oneOf ".," c) x = true -> isNumChar x = true.
Proof. auto. Qed.

(** [/(\d+)\s+Pos Tarif\/HS/]: group 1 is a run of digits. *)
Lemma posTarifPattern_captures (total : nat) (rest s' : jsstring) (caps' : captures) :
  matches noflags total PDFParser.posTarifPattern rest [] s' caps' ->
  exists g1, caps' = [(1, g1)] /\ Forall (fun x => isDigit x = true) g1.
Proof.
  unfold PDFParser.posTarifPattern. cbn [seq]. intros H. open_pattern. inv_seqs.
  grp_step. repeat caps_step.
  eexists. split; [reflexivity|]. eapply Forall_impl; [|eassumption]. apply digit_ci.
Qed.

(** [/Kode Brg\s*:\s*(\w+)/]: group 1 is a run of word characters. *)
Lemma kodePattern_captures (total : nat) (rest s' : jsstring) (caps' : captures) :
  matches noflags total PDFParser.kodePattern rest [] s' caps' ->
  exists g1, caps' = [(1, g1)] /\ g1 <> [] /\ Forall (fun x => isWord x = true) g1.
Proof.
  unfold PDFParser.kodePattern. cbn [seq]. intros H. open_pattern. inv_seqs.
  repeat caps_step. grp_step.
  eexists. split; [reflexivity|]. split.
  - intros ->. cbn in *. lia.
  - eapply Forall_impl; [|eassumption]. apply word_ci.
Qed.

(** [/-\s*([\d.,]+)\s*\n\s*-\s*(\w+)/] *)
Lemma jumlahPattern_captures (total : nat) (rest s' : jsstring) (caps' : captures) :
  matches noflags total PDFParser.jumlahPattern rest [] s' caps' ->
  exists g1 g2,
    caps' = [(2, g2); (1, g1)] /\
    Forall (fun x => isNumChar x = true) g1 /\
    g2 <> [] /\ Forall (fun x => isWord x = true) g2.
Proof.
  unfold PDFParser.jumlahPattern. cbn [seq]. intros H. open_pattern. inv_seqs.
  repeat first [caps_step | grp_step].
  eexists _, _. split; [reflexivity|]. split; [|split].
  - eapply Forall_impl; [|eassumption]. apply numchar_noflags.
  - intros ->. cbn in *. lia.
  - eapply Forall_impl; [|eassumption]. apply word_ci.
Qed.

(** [/Jumlah[:\s]*([\d.,]+)\s*(\w+)/i] *)
Lemma jumlahAltPattern_captures (total : nat) (rest s' : jsstring) (caps' : captures) :
  matches flag_i total PDFParser.jumlahAltPattern rest [] s' caps' ->
  exists g1 g2,
    caps' = [(2, g2); (1, g1)] /\
    Forall (fun x => isNumChar x = true) g1 /\
    g2 <> [] /\ Forall (fun x => isWord x = true) g2.
Proof.
  unfold PDFParser.jumlahAltPattern. cbn [seq]. intros H. open_pattern. inv_seqs.
  repeat first [caps_step | grp_step].
  eexists _, _. split; [reflexivity|]. split; [|split].
  - eapply Forall_impl; [|eassumption]. apply numchar_ci.
  - intros ->. cbn in *. lia.
  - eapply Forall_impl; [|eassumption]. apply word_ci.
Qed.

Ltac alpha_step :=
  match goal with
  | H : matches ?fl ?t (Grp ?i ?r) ?s ?c ?s' ?c' |- _ =>
      is_var c';
      let pre := fresh "pre" in
      let E := fresh "E" in
      let Hs := fresh "Hs" in
      let Hall := fresh "Hall" in
      destruct (grp_alphabet fl t i r s c s' c' H eq_refl) as (pre & E & Hs & Hall);
      clear H; subst c'
  end.

(** [/^[\|\s]*(\d+)\s+\[?(\d{4}[.,]?\d{2,3}[.,]?\d{3,4}|\d{10})/]: group 1
    is a run of digits, group 2 is made of digits, dots and commas. *)
Lemma itemLinePattern_captures (total : nat) (rest s' : jsstring) (caps' : captures) :
  matches noflags total PDFParser.itemLinePattern rest [] s' caps' ->
  exists g1 g2,
    caps' = [(2, g2); (1, g1)] /\
    Forall (fun x => isDigit x = true) g1 /\
    Forall (fun x => isNumChar x = true) g2.
Proof.
  unfold PDFParser.itemLinePattern. cbn [seq]. intros H. inv_seqs.
  repeat caps_step. open_pattern. grp_step. repeat caps_step. alpha_step.
  eexists _, _. split; [reflexivity|]. split.
  - eapply Forall_impl; [|eassumption]. apply digit_ci.
  - eapply Forall_impl; [|eassumption]. intros x.
    cbv [accepts seq PDFParser.sep_opt opt times cls_matches ignoreCase noflags].
    unfold isNumChar.
    destruct (isDigit x), (oneOf ".," x); cbn; congruence.
Qed.

Lemma dotsOut_commaToDot_numchars (g : jsstring) :
  Forall (fun x => isNumChar x = true) g ->
  Forall (fun x => isNumChar x = true) (PDFParser.dotsOut_commaToDot g).
Proof.
  intros H. unfold PDFParser.dotsOut_commaToDot.
  apply replace1_Forall; [|intros z; repeat constructor].
  rewrite (replaceAll_g_delete (cu_eqb (chr ".")) (Lit (chr ".")) (lit_one_unit _)).
  now apply filter_Forall_numchar.
Qed.

Lemma normalizeHsCode_numchars (hsCode : jsstring) :
  Forall (fun x => isNumChar x = true) hsCode ->
  Forall (fun x => isNumChar x = true) (PDFParser.normalizeHsCode hsCode).
Proof.
  intros H. rewrite normalizeHsCode_eq.
  assert (Hk : Forall (fun x => isNumChar x = true) (stripBrackets hsCode))
    by now apply filter_Forall_numchar.
  destruct (negb _ && _).
  - unfold substring.
    apply Forall_app. split; [apply (Forall_firstn_skipn _ _ _ _ Hk)|].
    apply Forall_app. split; [repeat constructor|].
    apply (Forall_firstn_skipn _ _ _ _ Hk).
  - unfold replace1.
    destruct (exec noflags hsTwoDots (stripBrackets hsCode)) as [z|] eqn:E; [|exact Hk].
    apply Forall_app. split; [apply (Forall_firstn_skipn _ _ _ _ Hk)|].
    apply Forall_app. split; [|apply (Forall_firstn_skipn _ _ _ _ Hk)].
    apply exec_hsTwoDots in E.
    destruct E as (a & b & c & _ & _ & _ & _ & Hd & _ & _ & -> & -> & ->).
    assert (Hn : Forall (fun x => isNumChar x = true) (a ++ b ++ c)).
    { eapply Forall_impl; [|exact Hd]. intros x Hx. unfold isNumChar. now rewrite Hx. }
    apply Forall_app in Hn. destruct Hn as [Ha Hn].
    apply Forall_app. split; [exact Ha|].
    apply Forall_app. split; [repeat constructor | exact Hn].
Qed.

Lemma isLetter_isWord (x : codeunit) : isLetter x = true -> isWord x = true.
Proof.
  unfold isLetter, isWord. intros H. apply orb_true_iff in H.
  destruct H as [-> | ->]; now rewrite ?orb_true_r.
Qed.

Lemma group_of_caps (i : nat) (z : match_result) (caps : captures) (v : jsstring) :
  groups z = caps -> capture i caps = Some v -> group i z = v.
Proof. intros <- H. unfold group. now rewrite H. Qed.

(** ** The items of strategy 2 *)

Lemma parseOCRItemText_shape (seri : Z) (hsCode itemBlock : jsstring) (item : BCItem) :
  PDFParser.parseOCRItemText seri hsCode itemBlock = Some item ->
  satuan item <> [] /\
  Forall (fun x => isLetter x = true) (satuan item) /\
  exists q, bc_qty item = Num q /\ (0 <= q)%Q.
Proof.
  intros H. apply parseOCRItemText_some in H.
  destruct H as (_ & _ & Hnan & z & Hex & Hq & Hs).
  apply exec_sound in Hex.
  destruct Hex as (pre & rest & s' & caps' & _ & _ & Hm & _ & Hg).
  apply qtyPattern_captures in Hm.
  destruct Hm as (g1 & g2 & g3 & -> & _ & Hg1 & Hg3 & Hl3).
  rewrite (group_of_caps 1 z _ g1 Hg eq_refl) in Hq.
  rewrite (group_of_caps 3 z _ g3 Hg eq_refl) in Hs.
  rewrite trim_no_white in Hs
    by (eapply Forall_impl; [|exact Hl3]; apply isLetter_not_white).
  rewrite Hs. split; [exact Hg3|]. split; [exact Hl3|].
  destruct (parseFloat_numchars _ (normalizeQtyString_numchars _ Hg1)) as [E|E].
  - rewrite Hq, E in Hnan. discriminate.
  - now rewrite Hq.
Qed.

Lemma scanLines_items (P : BCItem -> Prop) :
  (forall line z item,
     exec noflags PDFParser.itemLinePattern line = Some z ->
     forall itemBlock,
     PDFParser.parseOCRItemText (PDFParser.parseIntDigits (group 1 z)) (group 2 z) itemBlock
       = Some item -> P item) ->
  forall lines acc, Forall P acc -> Forall P (PDFParser.scanLines lines acc).
Proof.
  intros HP. induction lines as [|l lines IH]; intros acc Hacc;
    cbn [PDFParser.scanLines]; [exact Hacc|].
  destruct (exec noflags PDFParser.itemLinePattern (trim l)) as [z|] eqn:Ez;
    [|now apply IH].
  destruct (PDFParser.parseOCRItemText _ _ _) as [itemData|] eqn:E; [|now apply IH].
  apply IH. apply Forall_app. split; [exact Hacc|].
  constructor; [|constructor]. eapply HP; eassumption.
Qed.

Lemma ocr_items_ok (lines : list jsstring) :
  Forall (fun item => item_ok item /\ ocr_item_ok item) (PDFParser.scanLines lines []).
Proof.
  apply scanLines_items; [|constructor].
  intros line z item Hex itemBlock H.
  apply exec_sound in Hex.
  destruct Hex as (pre & rest & s' & caps' & _ & _ & Hm & _ & Hg).
  apply itemLinePattern_captures in Hm. destruct Hm as (g1 & g2 & -> & Hg1 & Hg2).
  rewrite (group_of_caps 1 z _ g1 Hg eq_refl) in H.
  rewrite (group_of_caps 2 z _ g2 Hg eq_refl) in H.
  pose proof (parseOCRItemText_shape _ _ _ _ H) as (Hne & Hl & Hq).
  apply parseOCRItemText_some in H. destruct H as (Hseri & Hk & _).
  split.
  - repeat split.
    + rewrite Hseri. now apply digitsValue_nonneg.
    + exact Hne.
    + eapply Forall_impl; [|exact Hl]. apply isLetter_isWord.
    + now right.
  - repeat split.
    + rewrite Hk. now apply normalizeHsCode_numchars.
    + exact Hl.
    + exact Hq.
Qed.

(** ** The items of strategy 1 *)

Lemma parseItemText_shape (seri : Z) (itemText : jsstring) (item : BCItem) :
  PDFParser.parseItemText seri itemText = Some item ->
  Data.seri item = seri /\
  digital_item_ok item /\
  satuan item <> [] /\ Forall (fun x => isWord x = true) (satuan item) /\
  (bc_qty item = NaN \/ exists q, bc_qty item = Num q /\ (0 <= q)%Q).
Proof.
  unfold PDFParser.parseItemText.
  destruct (exec noflags PDFParser.kodePattern itemText) as [kz|] eqn:Ek; [|discriminate].
  apply exec_sound in Ek.
  destruct Ek as (pre & rest & s' & caps' & _ & _ & Hm & _ & Hgk).
  apply kodePattern_captures in Hm. destruct Hm as (k & -> & Hkne & Hk).
  rewrite (group_of_caps 1 kz _ k Hgk eq_refl).
  rewrite (trim_no_white k)
    by (eapply Forall_impl; [|exact Hk]; apply isWord_not_white).
  assert (Hshape : forall fl r z,
            exec fl r itemText = Some z ->
            (forall total rest s' caps',
               matches fl total r rest [] s' caps' ->
               exists g1 g2, caps' = [(2, g2); (1, g1)] /\
                 Forall (fun x => isNumChar x = true) g1 /\
                 g2 <> [] /\ Forall (fun x => isWord x = true) g2) ->
            trim (group 2 z) <> [] /\
            Forall (fun x => isWord x = true) (trim (group 2 z)) /\
            (parseFloat (PDFParser.dotsOut_commaToDot (group 1 z)) = NaN \/
             exists q, parseFloat (PDFParser.dotsOut_commaToDot (group 1 z)) = Num q
                       /\ (0 <= q)%Q)).
  { intros fl r z Hex Hcap. apply exec_sound in Hex.
    destruct Hex as (pre0 & rest0 & s0 & caps0 & _ & _ & Hm & _ & Hg).
    apply Hcap in Hm. destruct Hm as (g1 & g2 & -> & Hg1 & Hne & Hg2).
    rewrite (group_of_caps 1 z _ g1 Hg eq_refl).
    rewrite (group_of_caps 2 z _ g2 Hg eq_refl).
    rewrite (trim_no_white g2)
      by (eapply Forall_impl; [|exact Hg2]; apply isWord_not_white).
    split; [exact Hne|]. split; [exact Hg2|].
    apply parseFloat_numchars. now apply dotsOut_commaToDot_numchars. }
  destruct (exec noflags PDFParser.jumlahPattern itemText) as [jz|] eqn:Ej.
  - destruct (Hshape _ _ _ Ej jumlahPattern_captures) as (Hne & Hw & Hq).
    destruct (isNaN _); [discriminate|].
    intros H. injection H as <-. cbn [Data.seri kodeBrg satuan bc_qty].
    unfold digital_item_ok. cbn [kodeBrg]. auto.
  - destruct (exec flag_i PDFParser.jumlahAltPattern itemText) as [az|] eqn:Ea;
      [|discriminate].
    destruct (Hshape _ _ _ Ea jumlahAltPattern_captures) as (Hne & Hw & Hq).
    intros H. injection H as <-. cbn [Data.seri kodeBrg satuan bc_qty].
    unfold digital_item_ok. cbn [kodeBrg]. auto.
Qed.

Lemma parseBlocks_items (P : BCItem -> Prop) (text : jsstring) (Q : match_result -> Prop) :
  (forall mt itemText item,
     Q mt ->
     PDFParser.parseItemText (PDFParser.parseIntDigits (group 1 mt)) itemText = Some item ->
     P item) ->
  forall ms acc, Forall Q ms -> Forall P acc ->
                 Forall P (PDFParser.parseBlocks text ms acc).
Proof.
  intros HP. induction ms as [|mt ms IH]; intros acc HQ Hacc;
    cbn [PDFParser.parseBlocks]; [exact Hacc|].
  inversion HQ as [|? ? Hmt Hms]; subst.
  destruct (PDFParser.parseItemText _ _) as [itemData|] eqn:E; [|now apply IH].
  apply IH; [exact Hms|]. apply Forall_app. split; [exact Hacc|].
  constructor; [|constructor]. eapply HP; eassumption.
Qed.

Lemma digital_items_ok (text : jsstring) :
  Forall (fun item => item_ok item /\ digital_item_ok item)
    (PDFParser.parseBlocks text (matchAll noflags PDFParser.posTarifPattern text) []).
Proof.
  apply (parseBlocks_items _ text
           (fun mt => In mt (matchAll noflags PDFParser.posTarifPattern text)));
    [|apply Forall_forall; auto | constructor].
  intros mt itemText item Hin H.
  apply matchAll_sound in Hin. destruct Hin as (rest & s' & caps' & Hm & Hg).
  apply posTarifPattern_captures in Hm. destruct Hm as (g1 & -> & Hg1).
  rewrite (group_of_caps 1 mt _ g1 Hg eq_refl) in H.
  apply parseItemText_shape in H. destruct H as (Hseri & Hd & Hne & Hw & Hq).
  split; [|exact Hd].
  repeat split; auto. rewrite Hseri. now apply digitsValue_nonneg.
Qed.

(** ** The items returned by [parseItems] *)

Lemma parseItems_wellformed (p : PDFParser.parser) (its : list BCItem) :
  fst (fst (PDFParser.parseItems p)) = inr its ->
  Forall item_ok its /\
  (matchAll noflags PDFParser.posTarifPattern (PDFParser.fullText p) <> [] ->
     Forall digital_item_ok its) /\
  (matchAll noflags PDFParser.posTarifPattern (PDFParser.fullText p) = [] ->
     Forall ocr_item_ok its /\
     Forall (fun item => isNaN (bc_qty item) = false) its).
Proof.
  unfold PDFParser.parseItems.
  destruct (negb (PDFParser.findTableSection p)); [discriminate|].
  cbv zeta. cbn [PDFParser.items PDFParser.fullText PDFParser.set_items].
  destruct (matchAll noflags PDFParser.posTarifPattern (PDFParser.fullText p))
    as [|mt ms] eqn:Em.
  - cbn [length Nat.ltb Nat.leb]. unfold PDFParser.parseItemsFromOCRTable.
    cbn [fst snd PDFParser.items PDFParser.fullText PDFParser.set_items].
    intros E. injection E as <-.
    pose proof (ocr_items_ok (split_lf (PDFParser.fullText p))) as H.
    split; [eapply Forall_impl; [|exact H]; cbn; tauto|].
    split; [congruence|]. intros _.
    split; [eapply Forall_impl; [|exact H]; cbn; tauto|].
    eapply Forall_impl; [|exact H]. cbn.
    intros item [_ (_ & _ & q & -> & _)]. reflexivity.
  - cbn [length Nat.ltb Nat.leb fst snd PDFParser.items PDFParser.fullText
         PDFParser.set_items].
    intros E. injection E as <-.
    pose proof (digital_items_ok (PDFParser.fullText p)) as H. rewrite Em in H.
    split; [eapply Forall_impl; [|exact H]; cbn; tauto|].
    split; [|discriminate]. intros _.
    eapply Forall_impl; [|exact H]. cbn. tauto.
Qed.

(** The quantity of an item of strategy 1 can be NaN: the branch of the
    alternative [Jumlah] pattern returns the item without the check. *)
Lemma digital_item_without_quantity :
  exists p its item,
    fst (fst (PDFParser.parseItems p)) = inr its /\ In item its /\ bc_qty item = NaN.
Proof.
  exists {| PDFParser.pdfPath := []; PDFParser.items := []; PDFParser.isScanned := false;
            PDFParser.fullText := str "1 Pos Tarif/HS Kode Brg: AB1 Jumlah: , pcs" |}.
  eexists. eexists. split; [vm_compute; reflexivity|].
  split; [left; reflexivity | reflexivity].
Qed.

(** ** The automatic cleanup *)

Lemma isOld_week (now : Z) (f : OCRCleanup.file) :
  OCRCleanup.isOld now (Num (inject_Z 604800000)) f = false <->
  (now - OCRCleanup.mtime f <= 604800000)%Z.
Proof.
  unfold OCRCleanup.isOld, num_gt, num_of_Z.
  rewrite negb_false_iff, Qle_bool_iff, <- Zle_Qle. reflexivity.
Qed.

Lemma isBeyondLimit_fifty (StringToNumber : jsstring -> number) (c : OCRCleanup.cleanup)
    (j : nat) :
  OCRCleanup.maxFiles c = JNumber (Num (inject_Z 50)) ->
  OCRCleanup.isBeyondLimit StringToNumber c j = (50 <=? j).
Proof.
  intros E. unfold OCRCleanup.isBeyondLimit, num_ge, num_le, num_of_Z, OCRCleanup.ToNumber.
  rewrite E. apply eq_true_iff_eq. rewrite Qle_bool_iff, <- Zle_Qle, Nat.leb_le. lia.
Qed.

(** X20.  When the directory can be read and its result files can be
    unlinked, the cleanup that [runCleanupAsync] starts (7 days, 50 files,
    no dry run) keeps the newest result files up to the first one that is
    older than 7 days, and 50 of them at most; it unlinks all the other
    result files and logs the two counts, or that there was nothing to
    delete. *)
Theorem X20_automatic_cleanup_keeps_recent_results (StringToNumber : jsstring -> number)
    (readdirSync : OCRCleanup.Error + list jsstring)
    (statSync : jsstring -> OCRCleanup.Error + Z)
    (unlinkSync : jsstring -> OCRCleanup.Error + unit) (now : Z)
    (names : list jsstring) (stats : list OCRCleanup.file) :
  readdirSync = inr names ->
  OCRCleanup.stat_all statSync (filter OCRCleanup.isOCRResult names) = inr stats ->
  (forall name, In name names -> unlinkSync name = inr tt) ->
  let out := AutoCleanup.runCleanupAsync StringToNumber readdirSync statSync unlinkSync now in
  let files := OCRCleanup.sort_desc stats in
  exists k,
    k <= 50 /\ k <= length files /\
    (forall f, In f (firstn k files) -> (now - OCRCleanup.mtime f <= 604800000)%Z) /\
    (forall f, nth_error files k = Some f ->
       k = 50 \/ (604800000 < now - OCRCleanup.mtime f)%Z) /\
    snd out = map OCRCleanup.f_name (skipn k files) /\
    fst out = [ AutoCleanup.RunningAutoCleanup;
                if 0 <? length files - k
                then AutoCleanup.AutoCleanupDeleted (length files - k) k
                else AutoCleanup.NothingToDelete ].
Proof.
  intros Hdir Hstat Hunlink. cbv zeta. unfold AutoCleanup.runCleanupAsync.
  set (c := OCRCleanup.constructor _).
  assert (Hfiles : OCRCleanup.maxFiles c = JNumber (Num (inject_Z 50))) by reflexivity.
  assert (Hdry : truthy (OCRCleanup.dryRun c) = false) by reflexivity.
  assert (Hms : OCRCleanup.maxAgeMs StringToNumber c = inr (Num (inject_Z 604800000)))
    by reflexivity.
  unfold OCRCleanup.cleanupOCRResults. rewrite Hdir, Hstat, Hms.
  set (files := OCRCleanup.sort_desc stats).
  assert (Hok : forall f, In f files ->
                  exists r, unlinkSync (OCRCleanup.f_name f) = inr r).
  { intros f Hf. exists tt. apply Hunlink.
    apply (Permutation_in _ (sort_desc_perm stats)) in Hf.
    apply (in_map OCRCleanup.f_name) in Hf.
    rewrite (stat_all_names _ _ _ Hstat) in Hf. apply filter_In in Hf. tauto. }
  destruct (sweep_succeeds StringToNumber unlinkSync now c (Num (inject_Z 604800000))
              files 0 0 [] Hok) as [d' Hd'].
  destruct (sweep_sorted StringToNumber unlinkSync now c (Num (inject_Z 604800000))
              files 0 0 [] d' (sort_desc_sorted stats) Hd')
    as (k & Hk & Hd & Hold & Hlim & Hmax & Hu).
  specialize (Hu Hdry). cbn [app Nat.add] in *.
  destruct (OCRCleanup.sweep _ _ _ _ _ _ _ _ _) as [[e|deletedCount] unlinked];
    cbn [fst snd] in *; [discriminate|].
  injection Hd' as ->. subst d'. cbn [fst snd OCRCleanup.deleted OCRCleanup.kept].
  exists k. split; [|split; [exact Hk|split; [|split; [|split]]]].
  - destruct k as [|k]; [lia|].
    specialize (Hlim k (Nat.lt_succ_diag_r k)).
    rewrite (isBeyondLimit_fifty _ _ _ Hfiles) in Hlim. apply Nat.leb_gt in Hlim. lia.
  - intros f Hf. apply isOld_week. now apply Hold.
  - intros f Hf. specialize (Hmax f Hf). apply orb_true_iff in Hmax.
    rewrite (isBeyondLimit_fifty _ _ _ Hfiles) in Hmax.
    destruct Hmax as [Hmax|Hmax].
    + right. destruct (Z.le_gt_cases (now - OCRCleanup.mtime f) 604800000) as [Hle|Hgt];
        [|lia].
      apply isOld_week in Hle. congruence.
    + apply Nat.leb_le in Hmax.
      destruct k as [|k]; [lia|].
      specialize (Hlim k (Nat.lt_succ_diag_r k)).
      rewrite (isBeyondLimit_fifty _ _ _ Hfiles) in Hlim. apply Nat.leb_gt in Hlim.
      left. lia.
  - exact Hu.
  - replace (length files - (length files - k)) with k by lia. reflexivity.
Qed.

(** ** The summary of the extracted items *)

Lemma parseItems_items (p : PDFParser.parser) (its : list BCItem) :
  fst (fst (PDFParser.parseItems p)) = inr its ->
  PDFParser.items (snd (fst (PDFParser.parseItems p))) = its.
Proof.
  unfold PDFParser.parseItems.
  destruct (negb (PDFParser.findTableSection p)); [discriminate|].
  cbv zeta. destruct (0 <? length _).
  - cbn [fst snd]. congruence.
  - destruct (PDFParser.parseItemsFromOCRTable _) as [p1 log2]. cbn [fst snd]. congruence.
Qed.

Lemma totalQty_nonneg (l : list BCItem) :
  Forall (fun item => bc_qty item = NaN \/ exists q, bc_qty item = Num q /\ (0 <= q)%Q) l ->
  forall acc, (0 <= acc)%Q ->
  let total := fold_left (fun sum item => num_add sum (bc_qty item)) l (Num acc) in
  total = NaN \/ exists q, total = Num q /\ (0 <= q)%Q.
Proof.
  cbv zeta. induction 1 as [|item l Hitem Hl IH]; intros acc Hacc; cbn [fold_left].
  - right. eauto.
  - destruct Hitem as [->|(q & -> & Hq)]; cbn [num_add].
    + left. clear. induction l as [|x l IH]; [reflexivity | exact IH].
    + apply IH. rewrite Qred_correct.
      replace 0%Q with (0 + 0)%Q by reflexivity. now apply Qplus_le_compat.
Qed.

(** X16.  After a [parseItems] that returned a list, [getSummary] counts
    the items of that list; on the empty list the range of serials is from
    +Infinity to -Infinity and the total quantity is 0; otherwise the range
    is finite and starts at a serial that is not negative.  The total
    quantity is NaN or not negative, and it is a number whenever the text
    holds no strategy-1 marker. *)
Theorem X16_summary_of_parsed_items (p : PDFParser.parser) (its : list BCItem) :
  fst (fst (PDFParser.parseItems p)) = inr its ->
  let s := PDFParser.getSummary (snd (fst (PDFParser.parseItems p))) in
  PDFParser.totalItems s = length its /\
  (its = [] ->
     PDFParser.seriRange_min s = PDFParser.PosInfinity /\
     PDFParser.seriRange_max s = PDFParser.NegInfinity /\
     PDFParser.totalQty s = Num 0) /\
  (its <> [] ->
     exists lo hi,
       PDFParser.seriRange_min s = PDFParser.Finite lo /\
       PDFParser.seriRange_max s = PDFParser.Finite hi /\ (0 <= lo <= hi)%Z) /\
  (PDFParser.totalQty s = NaN \/
   exists q, PDFParser.totalQty s = Num q /\ (0 <= q)%Q) /\
  (matchAll noflags PDFParser.posTarifPattern (PDFParser.fullText p) = [] ->
     isNaN (PDFParser.totalQty s) = false).
Proof.
  intros H. cbv zeta.
  pose proof (parseItems_items p its H) as Hits.
  pose proof (parseItems_wellformed p its H) as (Hok & _ & Hocr).
  set (p' := snd (fst (PDFParser.parseItems p))) in *.
  destruct (getSummary_lists p') as (Hn & _ & _ & Hnan & _).
  destruct (getSummary_range p') as (Hempty & Hrange).
  cbv zeta in *. rewrite Hits in *.
  split; [exact Hn|]. split; [|split; [|split]].
  - intros ->. destruct (Hempty eq_refl) as [-> ->].
    unfold PDFParser.getSummary. rewrite Hits. cbn. auto.
  - intros Hne. destruct (Hrange Hne) as (lo & hi & -> & -> & (x & Hx & <-) & _ & Hb & _).
    exists (seri x), hi. split; [reflexivity|]. split; [reflexivity|].
    rewrite Forall_forall in Hok. destruct (Hok x Hx) as (Hs & _).
    specialize (Hb x Hx). lia.
  - unfold PDFParser.getSummary. cbn [PDFParser.totalQty]. rewrite Hits.
    apply (totalQty_nonneg its); [|apply Qle_refl].
    eapply Forall_impl; [|exact Hok]. intros item Hi. apply Hi.
  - intros Hm. rewrite Hnan. destruct (Hocr Hm) as [_ Hnum].
    clear -Hnum. induction Hnum as [|x l Hx Hl IH]; [reflexivity|].
    cbn [existsb]. now rewrite Hx, IH.
Qed.

(* ===================================================================== *)
(** * Grouping, lookups, summaries and items: the main statements         *)
(* ===================================================================== *)

(** X5.  With [allowMultiItemSameSeri] switched off [processDuplicateSeri]
    returns the rows as given.  Otherwise it returns the groups one after
    the other, in the order of their first rows and each in the order of
    the sheet, every row annotated with the size and the total quantity of
    its group (with its own quantity when it is alone); no row is lost or
    repeated.  Two rows are in one group exactly when they agree on the
    document number and on the serial: the key of a group determines
    both. *)
Theorem X5_rows_grouped_by_document_and_serial (opts : Validator.options)
    (items : list ExcelItem) :
  (Validator.allowMultiItemSameSeri opts = false ->
     Validator.processDuplicateSeri opts items = items) /\
  (Validator.allowMultiItemSameSeri opts = true ->
     Validator.processDuplicateSeri opts items
     = flat_map (fun l => map (annotated items) (group_of l items)) (leaders items) /\
     Permutation (Validator.processDuplicateSeri opts items)
                 (map (annotated items) items)) /\
  (forall a b,
     Validator.group_key a = Validator.group_key b <->
     ajuNumber a = ajuNumber b /\ seriBarang a = seriBarang b).
Proof.
  split; [|split].
  - intros H. unfold Validator.processDuplicateSeri. now rewrite H.
  - intros H. split.
    + now apply processDuplicateSeri_spec.
    + now apply processDuplicateSeri_perm.
  - apply group_key_inj.
Qed.

(** X9.  [findByKodeBarang] returns null exactly when no item carries the
    code, letters compared in upper case; otherwise it returns the items
    that carry it, all of them and in the order of the parser.  Two codes
    with the same upper-case form give the same answer.  An item found for
    a code passes the item-code check of the validator against that code
    with similarity 1, when neither code has white space around it. *)
Theorem X9_items_found_by_code (rt : Validator.runtime) (opts : Validator.options)
    (p : PDFParser.parser) (code : jsstring) :
  let toUpperCase := Validator.toUpperCase rt in
  (PDFParser.findByKodeBarang toUpperCase p code = None <->
     forall item, In item (PDFParser.items p) ->
                  toUpperCase (kodeBrg item) <> toUpperCase code) /\
  (forall found,
     PDFParser.findByKodeBarang toUpperCase p code = Some found ->
     found <> [] /\
     found = filter (fun i => jsstring_eqb (toUpperCase (kodeBrg i)) (toUpperCase code))
                    (PDFParser.items p) /\
     forall item, In item found ->
       trim code = code -> trim (kodeBrg item) = kodeBrg item ->
       Validator.validateItemCode rt opts code (kodeBrg item)
       = {| Validator.cv_status := OK; Validator.cv_similarity := Num 1;
            Validator.cv_message := None |}) /\
  (forall other,
     toUpperCase other = toUpperCase code ->
     PDFParser.findByKodeBarang toUpperCase p other
     = PDFParser.findByKodeBarang toUpperCase p code).
Proof.
  cbv zeta.
  destruct (findByKodeBarang_facts (Validator.toUpperCase rt) p code) as (H1 & H2 & H3).
  split; [exact H1|]. split; [|exact H3].
  intros found Hf. destruct (H2 found Hf) as (Hne & Hfilter & _).
  split; [exact Hne|]. split; [exact Hfilter|].
  intros item Hin Hc Hk. exact (found_code_validates rt opts p code found item Hf Hin Hc Hk).
Qed.

(** X10.  [getSummary] counts the items, lists every item code once, and
    gives as total quantity NaN when the quantity of some item is NaN and
    the sum of the quantities otherwise.  Without items the range of
    serials is from +Infinity to -Infinity; with items it is from the least
    to the greatest serial of an item, and [findBySeri] finds nothing
    outside of it. *)
Theorem X10_summary_of_items (p : PDFParser.parser) :
  let s := PDFParser.getSummary p in
  PDFParser.totalItems s = length (PDFParser.items p) /\
  NoDup (PDFParser.kodeBrgList s) /\
  (forall k, In k (PDFParser.kodeBrgList s) <->
             exists item, In item (PDFParser.items p) /\ kodeBrg item = k) /\
  isNaN (PDFParser.totalQty s)
  = existsb (fun item => isNaN (bc_qty item)) (PDFParser.items p) /\
  (existsb (fun item => isNaN (bc_qty item)) (PDFParser.items p) = false ->
     (num_value (PDFParser.totalQty s)
      == fold_right (fun item sum => num_value (bc_qty item) + sum) 0 (PDFParser.items p))%Q) /\
  (PDFParser.items p = [] ->
     PDFParser.seriRange_min s = PDFParser.PosInfinity /\
     PDFParser.seriRange_max s = PDFParser.NegInfinity) /\
  (PDFParser.items p <> [] ->
     exists lo hi,
       PDFParser.seriRange_min s = PDFParser.Finite lo /\
       PDFParser.seriRange_max s = PDFParser.Finite hi /\
       (exists item, In item (PDFParser.items p) /\ seri item = lo) /\
       (exists item, In item (PDFParser.items p) /\ seri item = hi) /\
       (forall item, In item (PDFParser.items p) -> (lo <= seri item <= hi)%Z) /\
       (forall z, (z < lo \/ hi < z)%Z -> PDFParser.findBySeri p z = None)).
Proof.
  cbv zeta.
  destruct (getSummary_lists p) as (H1 & H2 & H3 & H4 & H5).
  destruct (getSummary_range p) as (H6 & H7).
  repeat (split; [assumption|]). assumption.
Qed.

(** X13.  [parseItems] starts from an empty list: the items the parser
    holds before the call do not show in what it returns or logs, and on
    the parser it leaves a second call returns, stores and logs the same.
    [parseItemsFromOCRTable] called on its own keeps the items held
    and appends what it extracts. *)
Theorem X13_parseItems_starts_afresh (p : PDFParser.parser) (held : list BCItem) :
  fst (fst (PDFParser.parseItems (PDFParser.set_items held p)))
  = fst (fst (PDFParser.parseItems p)) /\
  snd (PDFParser.parseItems (PDFParser.set_items held p)) = snd (PDFParser.parseItems p) /\
  PDFParser.parseItems (snd (fst (PDFParser.parseItems p))) = PDFParser.parseItems p /\
  PDFParser.items (fst (PDFParser.parseItemsFromOCRTable (PDFParser.set_items held p)))
  = held ++ ocrTableItems p.
Proof.
  destruct (parseItems_set_items held p) as (H1 & H2 & _).
  split; [exact H1|]. split; [exact H2|]. split; [apply parseItems_again|].
  destruct (parseItemsFromOCRTable_appends (PDFParser.set_items held p)) as [H _].
  exact H.
Qed.

(** X14.  The tariff code is normalised once and for all: the normal form
    of a normal form is that normal form.  A normal form holds no square
    bracket, and it is made of digits, dots and commas when the code
    is. *)
Theorem X14_tariff_code_normal_form (hsCode : jsstring) :
  PDFParser.normalizeHsCode (PDFParser.normalizeHsCode hsCode)
  = PDFParser.normalizeHsCode hsCode /\
  Forall (fun x => isBracket x = false) (PDFParser.normalizeHsCode hsCode) /\
  (Forall (fun x => isNumChar x = true) hsCode ->
   Forall (fun x => isNumChar x = true) (PDFParser.normalizeHsCode hsCode)).
Proof.
  split; [apply normalizeHsCode_again|]. split; [apply normalizeHsCode_clean|].
  apply normalizeHsCode_numchars.
Qed.

Lemma parseBlocks_length (text : jsstring) (ms : list match_result) : forall acc,
  length (PDFParser.parseBlocks text ms acc) <= length acc + length ms.
Proof.
  induction ms as [|mt ms IH]; intros acc; cbn [PDFParser.parseBlocks length]; [lia|].
  destruct (PDFParser.parseItemText _ _) as [itemData|].
  - specialize (IH (acc ++ [itemData])). rewrite length_app in IH. cbn [length] in IH. lia.
  - specialize (IH acc). lia.
Qed.

(** X15.  Every item [parseItems] returns has a serial that is not
    negative, a unit that is not empty and made of letters, digits and
    underscores, and a quantity that is NaN or not negative.  When the text
    holds strategy-1 markers there is at most one item per marker and the
    item codes are not empty and made of letters, digits and underscores.
    When it holds none there is at most one item per line, the item codes
    are made of digits, dots and commas, the units of letters, and every
    quantity is a number. *)
Theorem X15_items_are_well_formed (p : PDFParser.parser) (its : list BCItem) :
  fst (fst (PDFParser.parseItems p)) = inr its ->
  Forall item_ok its /\
  (posTarifMatches p <> [] ->
     Forall digital_item_ok its /\ length its <= length (posTarifMatches p)) /\
  (posTarifMatches p = [] ->
     Forall ocr_item_ok its /\
     Forall (fun item => isNaN (bc_qty item) = false) its /\
     length its <= length (split_lf (PDFParser.fullText p))).
Proof.
  intros H. destruct (parseItems_wellformed p its H) as (Hok & Hd & Ho).
  split; [exact Hok|]. unfold posTarifMatches.
  revert H. unfold PDFParser.parseItems.
  destruct (negb (PDFParser.findTableSection p)); [discriminate|].
  cbv zeta. cbn [PDFParser.items PDFParser.fullText PDFParser.set_items].
  destruct (matchAll noflags PDFParser.posTarifPattern (PDFParser.fullText p))
    as [|mt ms] eqn:Em.
  - cbn [length Nat.ltb Nat.leb]. unfold PDFParser.parseItemsFromOCRTable.
    cbn [fst snd PDFParser.items PDFParser.fullText PDFParser.set_items].
    intros E. injection E as E. split; [congruence|]. intros _.
    destruct (Ho eq_refl) as [H1 H2]. split; [exact H1|]. split; [exact H2|].
    rewrite <- E. apply (scanLines_length _ []).
  - cbn [length Nat.ltb Nat.leb fst snd PDFParser.items PDFParser.fullText
         PDFParser.set_items].
    intros E. injection E as E. split; [|discriminate]. intros Hne.
    split; [exact (Hd Hne)|].
    rewrite <- E. apply (parseBlocks_length _ (mt :: ms) []).
Qed.

Lemma NoAdj_pair (s before after : jsstring) (a b : codeunit) :
  NoAdj s -> s = before ++ a :: b :: after ->
  isWhiteSpace a = true -> isWhiteSpace b = false.
Proof.
  intros H ->. induction before as [|c before IH]; cbn [app NoAdj] in H.
  - destruct H as [H _]. intros Ha. exact (H Ha).
  - destruct H as [_ H]. exact (IH H).
Qed.

(** X21.  In the text [postProcessOCRText] returns no white-space unit is
    followed by another one: no blank line and no run of spaces is left,
    whatever the input.  Every line of it is trimmed, and each of the three
    white-space statements of the function, applied to it again, returns
    it unchanged. *)
Theorem X21_normalised_text_has_no_white_run (t : jsstring) :
  let out := PDFParser.postProcessOCRText t in
  (forall before a b after,
     out = before ++ a :: b :: after ->
     isWhiteSpace a = true -> isWhiteSpace b = false) /\
  Forall (fun l => trim l = l) (split_lf out) /\
  PDFParser.collapseSpaces out = out /\
  PDFParser.collapseNewlines out = out /\
  PDFParser.trimLines out = out.
Proof.
  cbv zeta. rewrite postProcessOCRText_eq.
  set (c := PDFParser.applyPhraseReplacements t).
  pose proof (normalizeWhitespace_NoAdj c) as Hn.
  split; [intros before a b after E; exact (NoAdj_pair _ before after a b Hn E)|].
  split; [apply normalizeWhitespace_lines_trimmed|].
  split; [now apply collapseSpaces_fixed|].
  split; [now apply collapseNewlines_fixed|].
  unfold PDFParser.normalizeWhitespace. apply trimLines_idempotent.
Qed.

(** X22.  For a row whose serial is found, the item-code status is never
    ERROR, so the overall status is ERROR exactly when one of the two
    quantities is NaN; a code that does not match gives WARNING at most.
    The overall status is OK exactly when the code is accepted and the
    quantity of the row is at most the quantity of the item. *)
Theorem X22_verdict_of_a_matched_row (rt : Validator.runtime) (opts : Validator.options)
    (item : ExcelItem) (bc : BCItem) :
  let v := validation (Validator.validateItem rt opts item (Some bc)) in
  let code := Validator.cv_status
                (Validator.validateItemCode rt opts (itemCode item) (kodeBrg bc)) in
  v_itemCode v = Some code /\ code <> ERROR /\
  (v_overall v = Some ERROR <-> isNaN (qty item) || isNaN (bc_qty bc) = true) /\
  (v_overall v = Some OK <->
     code = OK /\ isNaN (qty item) || isNaN (bc_qty bc) = false /\
     num_le (qty item) (bc_qty bc) = true) /\
  (v_overall v = Some WARNING <->
     isNaN (qty item) || isNaN (bc_qty bc) = false /\
     (code = NOT_MATCH \/ num_le (qty item) (bc_qty bc) = false)).
Proof.
  cbv zeta. cbn [Validator.validateItem validation v_itemCode v_overall].
  unfold Validator.validateQty, parseFloatNum.
  destruct (validateItemCode_status_cases rt opts (itemCode item) (kodeBrg bc)) as [E|E];
    rewrite E;
    destruct (isNaN (qty item) || isNaN (bc_qty bc));
    [| destruct (num_le (qty item) (bc_qty bc)) | | destruct (num_le (qty item) (bc_qty bc))];
    cbn; repeat split; try discriminate; try tauto; try congruence;
    try (intros [H|H]; discriminate); try (intros (? & ? & ?); discriminate);
    try (intros (? & ?); discriminate);
    try (intros [_ [H|H]]; discriminate); auto.
Qed.

(* ===================================================================== *)
(** * Instances on the sample documents                                   *)
(* ===================================================================== *)

Lemma X1_witness_padded_codes :
  Validator.cv_status
    (Validator.validateItemCode sample_runtime (Validator.constructor Validator.no_options)
       (str " ab12 ") (str "AB12" ++ [LF]))
  = Validator.cv_status
      (Validator.validateItemCode sample_runtime (Validator.constructor Validator.no_options)
         (str "ab12") (str "AB12")) /\
  Validator.cv_similarity
    (Validator.validateItemCode sample_runtime (Validator.constructor Validator.no_options)
       (str " ab12 ") (str "AB12" ++ [LF]))
  = Validator.cv_similarity
      (Validator.validateItemCode sample_runtime (Validator.constructor Validator.no_options)
         (str "ab12") (str "AB12")).
Proof.
  exact (X1_item_code_ignores_padding sample_runtime
           (Validator.constructor Validator.no_options)
           (str "ab12") (str "AB12") (str " ") (str " ") [] [LF]
           eq_refl eq_refl eq_refl eq_refl).
Defined.

Lemma X15_witness_sample_table :
  item_ok sample_item /\ ocr_item_ok sample_item /\
  length [sample_item; sample_item2] <= 4.
Proof.
  assert (H : fst (fst (PDFParser.parseItems sample_table))
              = inr [sample_item; sample_item2])
    by (vm_compute; reflexivity).
  assert (Hm : posTarifMatches sample_table = []) by (vm_compute; reflexivity).
  assert (Hl : length (split_lf (PDFParser.fullText sample_table)) = 4)
    by (vm_compute; reflexivity).
  destruct (X15_items_are_well_formed sample_table _ H) as (Hok & _ & Hocr).
  destruct (Hocr Hm) as (Ho & _ & Hlen). rewrite Hl in Hlen.
  split; [exact (Forall_inv Hok)|]. split; [exact (Forall_inv Ho) | exact Hlen].
Defined.

Lemma X16_witness_sample_table :
  PDFParser.totalItems
    (PDFParser.getSummary (snd (fst (PDFParser.parseItems sample_table)))) = 2 /\
  isNaN (PDFParser.totalQty
           (PDFParser.getSummary (snd (fst (PDFParser.parseItems sample_table))))) = false.
Proof.
  assert (H : fst (fst (PDFParser.parseItems sample_table))
              = inr [sample_item; sample_item2])
    by (vm_compute; reflexivity).
  assert (Hm : matchAll noflags PDFParser.posTarifPattern
                 (PDFParser.fullText sample_table) = [])
    by (vm_compute; reflexivity).
  destruct (X16_summary_of_parsed_items sample_table _ H) as (Hn & _ & _ & _ & Hnum).
  split; [exact Hn | exact (Hnum Hm)].
Defined.

Lemma X17_witness_sample_item :
  Validator.qv_status (Validator.validateQty (Num 7) (bc_qty sample_item)) <> ERROR.
Proof.
  assert (E : ocrTableItems sample_table = [sample_item; sample_item2])
    by (vm_compute; reflexivity).
  apply (X17_quantity_of_OCR_item_never_invalid sample_table sample_item (Num 7)).
  - rewrite E. left. reflexivity.
  - reflexivity.
Defined.

Lemma X18_witness_plain_page :
  lfFree (str "BC 2.3 1 8479903000 5,0000 Piece (PCE) 2 8479903000 7,0000 Piece (PCE)") /\
  length (ocrTableItems (snd (PDFParser.extractTextWithOCR plain_env demo_scanned))) <= 1.
Proof.
  assert (Hw : forall (n : nat) (img : nat) data,
             PDFParser.recognize plain_env n img = inr data -> onOneLine data).
  { intros n img data H. injection H as <-. unfold onOneLine. cbn.
    repeat constructor. }
  destruct (X18_recognised_text_is_one_line nat plain_env demo_scanned
              (str "BC 2.3 1 8479903000 5,0000 Piece (PCE) 2 8479903000 7,0000 Piece (PCE)")
              Hw ltac:(vm_compute; reflexivity)) as (H1 & _ & _ & H4).
  split; [exact H1 | exact H4].
Defined.

Lemma X20_witness_two_result_files :
  exists k,
    k <= 50 /\
    snd (AutoCleanup.runCleanupAsync parseFloat (inr sample_names) sample_statSync
           (fun _ => inr tt) 700000000)
    = map OCRCleanup.f_name (skipn k (OCRCleanup.sort_desc sample_stats)).
Proof.
  destruct (X20_automatic_cleanup_keeps_recent_results parseFloat (inr sample_names)
              sample_statSync (fun _ => inr tt) 700000000 sample_names sample_stats
              eq_refl eq_refl (fun _ _ => eq_refl))
    as (k & Hk & _ & _ & _ & Hu & _).
  exists k. split; [exact Hk | exact Hu].
Defined.
